(** * TransactionManager: merge, ordering and caching engine

    A shallow embedding of the class [TransactionManager] of the TandaPay
    wallet and the properties of its two public operations, [loadMore] and
    [getOrderedTransactions].

    Conventions of the embedding.
    - JavaScript numbers that the class manipulates ([_pageSize],
      [_pagesLoaded], array lengths, the safe index) are integers; they are
      modelled as [Z].
    - A value that may be [undefined], [null] or a string (a transfer hash, a
      page key) is a three-constructor inductive: the class tells the three
      apart.
    - A JavaScript exception is a [Throw] completion; the mutations made
      before the exception stay in the state. A rejected promise is a [Throw]
      at the [await].
    - What the class imports is not part of it. The remote helpers
      ([isAlchemyAvailableForNetwork], [getAssetTransfersForNetwork],
      [getBatchTransactionsByHashForNetwork]) are an oracle record [Remote],
      and the calls made to them are logged. The priority queue of
      [datastructures-js] is an interface, [PriorityQueueImpl], with the
      properties the class relies on stated apart, [PriorityQueueSpec]. The
      formatter [toFullTransaction] is an interface,
      [FullTransactionFormatter]. [ethers.utils.isAddress] is an argument of
      the constructor.
    - The opaque [_perAccountState] handle is only ever passed on to the
      remote helpers; it is part of the oracle.
    - [getOrderedTransactions] is modelled twice: on values, where an array
      is the list of its elements, and in a heap of arrays and objects
      (module [Aliasing]), where an array and its copy are two things that
      share their elements. The first is the second read through
      ([getOrderedTransactions_refines]).

    Beside the manager, three pieces of the application around it are
    embedded, each in a module of its own: the component [TransactionList]
    that shows what the manager returns, the function
    [activeAuthentications] of the login screen with the dispatch of
    [handleAuth], and the contract row of [CommunityOverviewCard]. *)

From stdpp Require Import gmap strings list fin_maps sorting.
From Stdlib Require Import ZArith Lia.

Open Scope Z_scope.

(* ===================================================================== *)
(** ** Values *)
(* ===================================================================== *)

(** [?string]: [undefined], [null] or a string. *)
Inductive JsString :=
  | JsUndefined
  | JsNull
  | JsStr (s : string).

Global Instance JsString_eq_dec : EqDecision JsString.
Proof. solve_decision. Defined.

Definition JsString_encode (h : JsString) : option (option string) :=
  match h with
  | JsUndefined => None
  | JsNull => Some None
  | JsStr s => Some (Some s)
  end.

Definition JsString_decode (o : option (option string)) : JsString :=
  match o with
  | None => JsUndefined
  | Some None => JsNull
  | Some (Some s) => JsStr s
  end.

Global Instance JsString_countable : Countable JsString.
Proof.
  apply (inj_countable' JsString_encode JsString_decode).
  by intros [].
Defined.

(** JavaScript truthiness of a [?string]: only a non-empty string is
    truthy. *)
Definition truthy (v : JsString) : bool :=
  match v with
  | JsStr s => negb (String.eqb s "")
  | _ => false
  end.

(** [v ?? ''] *)
Definition nullish_or_empty (v : JsString) : string :=
  match v with
  | JsStr s => s
  | _ => ""%string
  end.

(** [v || undefined], as an optional page key: [None] is [undefined]. *)
Definition or_undefined (v : JsString) : option string :=
  match v with
  | JsStr s => if String.eqb s "" then None else Some s
  | _ => None
  end.

(** The value of [metadata.blockTimestamp] as the comparator sees it:
    missing ([undefined] or [null]), or a string whose [Date] is given by
    its [getTime()]: [None] when the date is invalid ([NaN]), the epoch
    milliseconds otherwise. *)
Inductive BlockTimestamp :=
  | TsMissing
  | TsDate (getTime : option Z).

Global Instance BlockTimestamp_eq_dec : EqDecision BlockTimestamp.
Proof. solve_decision. Defined.

(** One leg of a transaction, as returned by the asset-transfer feed. The
    class reads [hash] and [metadata.blockTimestamp]; the other fields are
    carried along. *)
Record Transfer := mkTransfer {
  hash : JsString;
  blockTimestamp : BlockTimestamp;
  category : string;
  from : string;
  to : string;
  value : Z
}.

Global Instance Transfer_eq_dec : EqDecision Transfer.
Proof. solve_decision. Defined.

(** Details of a signed transaction, fetched in batch by hash. *)
Record SignedTransaction := mkSignedTransaction {
  signed_hash : JsString;
  nonce : Z;
  gas : Z;
  input : string
}.

Global Instance SignedTransaction_eq_dec : EqDecision SignedTransaction.
Proof. solve_decision. Defined.

(** An [Error] object: its message. *)
Record Error := mkError { message : string }.

Global Instance Error_eq_dec : EqDecision Error.
Proof. solve_decision. Defined.

(** How a call ends: it returns a value or throws (for an [async] function:
    the promise resolves or rejects). *)
Inductive Completion (A : Type) :=
  | Return (a : A)
  | Throw (e : Error).
Arguments Return {A} a.
Arguments Throw {A} e.

(* ===================================================================== *)
(** ** The comparator *)
(* ===================================================================== *)

(** [_transactionSortKey(tx1, tx2)]: negative when [tx1] is more recent. *)
Definition _transactionSortKey (tx1 tx2 : Transfer) : Completion Z :=
  match blockTimestamp tx1 with
  | TsMissing =>
      Throw (mkError "Transaction metadata blockTimestamp is missing for tx1")
  | TsDate date1 =>
      match blockTimestamp tx2 with
      | TsMissing =>
          Throw (mkError "Transaction metadata blockTimestamp is missing for tx2")
      | TsDate date2 =>
          match date1, date2 with
          | Some t1, Some t2 =>
              if t1 >? t2 then Return (-1)
              else if t1 <? t2 then Return 1
              else Return 0
          | _, _ =>
              Throw (mkError "Invalid date in transaction metadata blockTimestamp")
          end
      end
  end.

(** [a] may stand before [b] in the queue order: the comparator returns and
    does not put [b] first. *)
Definition precedes (a b : Transfer) : Prop :=
  ∃ c, _transactionSortKey a b = Return c ∧ c <= 0.

(** The timestamp of a transfer when the comparator accepts it. *)
Definition timestamp (tx : Transfer) : option Z :=
  match blockTimestamp tx with
  | TsDate (Some t) => Some t
  | _ => None
  end.

(* ===================================================================== *)
(** ** The priority queue *)
(* ===================================================================== *)

(** [PriorityQueue] of [datastructures-js], built with
    [_transactionSortKey] as its comparator. The class uses the constructor,
    [enqueue] and [toArray]. [enqueue] calls the comparator and so may throw;
    it then leaves some queue behind. [toArray] lists the content, highest
    priority first, without removing anything. *)
Class PriorityQueueImpl := {
  PriorityQueue : Type;
  pq_new : PriorityQueue;
  pq_enqueue : Transfer → PriorityQueue → Completion unit * PriorityQueue;
  pq_toArray : PriorityQueue → list Transfer;
  (** the queues built by the constructor and by enqueues that returned *)
  pq_wf : PriorityQueue → Prop
}.

(** What the class relies on: the constructor gives an empty queue; an
    enqueue that returns adds the transfer and keeps the rest; [toArray]
    lists the content in comparator order (an element stands before those
    the comparator does not put before it), and does so without throwing for
    the queues that the constructor and returned enqueues build. *)
Class PriorityQueueSpec `{PQ : PriorityQueueImpl} : Prop := {
  pq_new_wf : pq_wf pq_new;
  pq_new_toArray : pq_toArray pq_new = [];
  pq_enqueue_wf : ∀ x q q',
    pq_wf q → pq_enqueue x q = (Return (), q') → pq_wf q';
  pq_enqueue_toArray : ∀ x q q',
    pq_wf q → pq_enqueue x q = (Return (), q') →
    pq_toArray q' ≡ₚ x :: pq_toArray q;
  pq_toArray_sorted : ∀ q, pq_wf q → StronglySorted precedes (pq_toArray q)
}.

(* ===================================================================== *)
(** ** Full transactions and the remote helpers *)
(* ===================================================================== *)

(** The argument object of [toFullTransaction]. *)
Record ToFullTransactionParams := mkToFullTransactionParams {
  args_walletAddress : string;
  args_tandapayContractAddress : option string;
  transfers : list Transfer;
  signedTransaction : option SignedTransaction;
  args_network : string
}.

Global Instance ToFullTransactionParams_eq_dec : EqDecision ToFullTransactionParams.
Proof. solve_decision. Defined.

(** [toFullTransaction] and its result type [FullTransaction], imported by
    the class from [FullTransaction.js]: any formatter will do. *)
Class FullTransactionFormatter := {
  FullTransaction : Type;
  toFullTransaction : ToFullTransactionParams → FullTransaction
}.

(** The hash an argument object is for: the hash of the transfers of its
    group. *)
Definition args_hash (args : ToFullTransactionParams) : option JsString :=
  hash <$> head (transfers args).

(** The parameter object of [getAssetTransfersForNetwork]. An absent
    property ([toAddress], [fromAddress], [pageKey: undefined]) is [None]. *)
Record AssetTransfersParams := mkAssetTransfersParams {
  fromBlock : string;
  toBlock : string;
  categories : list string;
  withMetadata : bool;
  excludeZeroValue : bool;
  order : string;
  maxCount : Z;
  toAddress : option string;
  fromAddress : option string;
  pageKey : option string
}.

Global Instance AssetTransfersParams_eq_dec : EqDecision AssetTransfersParams.
Proof. solve_decision. Defined.

(** [{ transfers, pageKey }] *)
Record AssetTransfersResponse := mkAssetTransfersResponse {
  resp_transfers : list Transfer;
  resp_pageKey : JsString
}.

(** What the remote side answers during one call of [loadMore]. Each helper
    is [async]: its promise resolves ([Return]) or rejects ([Throw]). *)
Record Remote := mkRemote {
  isAlchemyAvailableForNetwork : string → Completion bool;
  getAssetTransfersForNetwork :
    string → AssetTransfersParams → Completion AssetTransfersResponse;
  getBatchTransactionsByHashForNetwork :
    string → list string → Completion (list (option SignedTransaction))
}.

(** A call to a remote helper, with its arguments. *)
Inductive RemoteCall :=
  | CallIsAlchemyAvailable (network : string)
  | CallGetAssetTransfers (network : string) (params : AssetTransfersParams)
  | CallGetBatchTransactionsByHash (network : string) (hashes : list string).

Global Instance RemoteCall_eq_dec : EqDecision RemoteCall.
Proof. solve_decision. Defined.

(* ===================================================================== *)
(** ** Methods as state transformers *)
(* ===================================================================== *)

(** A method body over a state [S]: it ends in a completion, leaves a state
    behind (also when it throws) and has made some remote calls. *)
Definition M (S A : Type) : Type := S → Completion A * S * list RemoteCall.

Definition throw {S A} (e : Error) : M S A := λ s, (Throw e, s, []).

Definition ret {S A} (a : A) : M S A := λ s, (Return a, s, []).

Definition bind {S A B} (m : M S A) (k : A → M S B) : M S B := λ s,
  match m s with
  | (Return a, s1, calls1) =>
      let '(r, s2, calls2) := k a s1 in (r, s2, calls1 ++ calls2)
  | (Throw e, s1, calls1) => (Throw e, s1, calls1)
  end.

Notation "'let!' x ':=' m 'in' k" := (bind m (λ x, k))
  (at level 10, x name, m at level 100, k at level 200, only parsing).
Notation "'do!' m 'in' k" := (bind m (λ _, k))
  (at level 10, m at level 100, k at level 200, only parsing).

Definition gets {S A} (f : S → A) : M S A := λ s, (Return (f s), s, []).

Definition modify {S} (f : S → S) : M S unit := λ s, (Return (), f s, []).

(** Calling an [async] helper: the call is made now, the promise (here: how
    it will settle) is the value. *)
Definition call {S A} (c : RemoteCall) (promise : Completion A)
  : M S (Completion A) := λ s, (Return promise, s, [c]).

(** [await promise] *)
Definition await {S A} (promise : Completion A) : M S A := λ s, (promise, s, []).

(** [await Promise.all([p1, p2])]. When both reject, the rejection that
    comes first wins; the model takes the first promise's. *)
Definition await_all {S A B} (p1 : Completion A) (p2 : Completion B)
  : M S (A * B) :=
  match p1, p2 with
  | Return a, Return b => ret (a, b)
  | Throw e, _ => throw e
  | _, Throw e => throw e
  end.

(** [try { body } catch (error) { handler }] *)
Definition try_catch {S A} (body : M S A) (handler : Error → M S A) : M S A :=
  λ s,
  match body s with
  | (Throw e, s1, calls1) =>
      let '(r, s2, calls2) := handler e s1 in (r, s2, calls1 ++ calls2)
  | returned => returned
  end.

(** [l.forEach(f)] *)
Fixpoint forEach {S A} (f : A → M S unit) (l : list A) : M S unit :=
  match l with
  | [] => ret ()
  | x :: l' => do! f x in forEach f l'
  end.

(* ===================================================================== *)
(** ** The class *)
(* ===================================================================== *)

Section Manager.
Context `{PQ : PriorityQueueImpl} `{FT : FullTransactionFormatter}.

(** The fields of a [TransactionManager]. [Cache] is what
    [_getOrderedTransactionsCache] holds when it is an array: the sequence of
    Full Transactions itself where only values matter, a reference to an
    array where sharing matters (module [Aliasing] below). [None] is
    [undefined] or [null]: the class only asks [Array.isArray]. *)
Record TransactionManager {Cache : Type} := mkTransactionManager {
  _network : string;
  _walletAddress : string;
  _tandapayContractAddress : option string;
  _transactionQueue : PriorityQueue;
  _nextIncomingPage : JsString;
  _nextOutgoingPage : JsString;
  _pageSize : Z;
  _pagesLoaded : Z;
  _inorderTransactionHashes : list JsString;
  _allTransactions : gmap JsString (list Transfer);
  _allSignedTransactions : gmap JsString SignedTransaction;
  _getOrderedTransactionsCache : option Cache;
  _lock : bool
}.
Arguments TransactionManager : clear implicits.

Section Generic.
Context {Cache : Type}.
Abbreviation TM := (TransactionManager Cache).

(** Field assignments. *)
Definition set_lock (b : bool) (s : TM) : TM :=
  mkTransactionManager Cache (_network s) (_walletAddress s)
    (_tandapayContractAddress s) (_transactionQueue s) (_nextIncomingPage s)
    (_nextOutgoingPage s) (_pageSize s) (_pagesLoaded s)
    (_inorderTransactionHashes s) (_allTransactions s)
    (_allSignedTransactions s) (_getOrderedTransactionsCache s) b.

Definition set_transactionQueue (q : PriorityQueue) (s : TM) : TM :=
  mkTransactionManager Cache (_network s) (_walletAddress s)
    (_tandapayContractAddress s) q (_nextIncomingPage s)
    (_nextOutgoingPage s) (_pageSize s) (_pagesLoaded s)
    (_inorderTransactionHashes s) (_allTransactions s)
    (_allSignedTransactions s) (_getOrderedTransactionsCache s) (_lock s).

Definition set_nextIncomingPage (c : JsString) (s : TM) : TM :=
  mkTransactionManager Cache (_network s) (_walletAddress s)
    (_tandapayContractAddress s) (_transactionQueue s) c
    (_nextOutgoingPage s) (_pageSize s) (_pagesLoaded s)
    (_inorderTransactionHashes s) (_allTransactions s)
    (_allSignedTransactions s) (_getOrderedTransactionsCache s) (_lock s).

Definition set_nextOutgoingPage (c : JsString) (s : TM) : TM :=
  mkTransactionManager Cache (_network s) (_walletAddress s)
    (_tandapayContractAddress s) (_transactionQueue s) (_nextIncomingPage s)
    c (_pageSize s) (_pagesLoaded s)
    (_inorderTransactionHashes s) (_allTransactions s)
    (_allSignedTransactions s) (_getOrderedTransactionsCache s) (_lock s).

Definition set_pagesLoaded (n : Z) (s : TM) : TM :=
  mkTransactionManager Cache (_network s) (_walletAddress s)
    (_tandapayContractAddress s) (_transactionQueue s) (_nextIncomingPage s)
    (_nextOutgoingPage s) (_pageSize s) n
    (_inorderTransactionHashes s) (_allTransactions s)
    (_allSignedTransactions s) (_getOrderedTransactionsCache s) (_lock s).

Definition set_allSignedTransactions
    (m : gmap JsString SignedTransaction) (s : TM) : TM :=
  mkTransactionManager Cache (_network s) (_walletAddress s)
    (_tandapayContractAddress s) (_transactionQueue s) (_nextIncomingPage s)
    (_nextOutgoingPage s) (_pageSize s) (_pagesLoaded s)
    (_inorderTransactionHashes s) (_allTransactions s)
    m (_getOrderedTransactionsCache s) (_lock s).

(** The three fields that [getOrderedTransactions] and
    [_dropGetOrderedTransactionsCache] write. *)
Definition set_ordering {Cache' : Type}
    (all : gmap JsString (list Transfer)) (inorder : list JsString)
    (cache : option Cache') (s : TM) : TransactionManager Cache' :=
  mkTransactionManager Cache' (_network s) (_walletAddress s)
    (_tandapayContractAddress s) (_transactionQueue s) (_nextIncomingPage s)
    (_nextOutgoingPage s) (_pageSize s) (_pagesLoaded s)
    inorder all (_allSignedTransactions s) cache (_lock s).

(** The constructor's parameter object; an omitted [pageSize] is [None]. *)
Record ConstructorParams := mkConstructorParams {
  param_network : string;
  param_walletAddress : string;
  param_tandapayContractAddress : JsString;
  param_pageSize : option Z
}.

(** [new TransactionManager(params)]. [isAddress] is
    [ethers.utils.isAddress]. *)
Definition constructor (isAddress : string → bool) (params : ConstructorParams)
  : Completion TM :=
  let pageSize := default 10 (param_pageSize params) in
  if String.eqb (param_network params) "" || String.eqb (param_walletAddress params) ""
  then Throw (mkError "Invalid parameters provided to TransactionManager constructor")
  else if negb (isAddress (param_walletAddress params))
  then Throw (mkError "Invalid wallet address provided")
  else Return
    {| _network := param_network params;
       _walletAddress := param_walletAddress params;
       _tandapayContractAddress :=
         or_undefined (param_tandapayContractAddress params);
       _transactionQueue := pq_new;
       _nextIncomingPage := JsUndefined;
       _nextOutgoingPage := JsUndefined;
       _pageSize := pageSize * 2;
       _pagesLoaded := 0;
       _inorderTransactionHashes := [];
       _allTransactions := ∅;
       _allSignedTransactions := ∅;
       _getOrderedTransactionsCache := None;
       _lock := false |}.

(** [_getDefaultParams()] *)
Definition _getDefaultParams (s : TM) : AssetTransfersParams :=
  {| fromBlock := "0x0";
     toBlock := "latest";
     categories := ["external"; "erc20"]%string;
     withMetadata := true;
     excludeZeroValue := false;
     order := "desc";
     maxCount := _pageSize s;
     toAddress := None;
     fromAddress := None;
     pageKey := None |}.

(** The parameter objects of the two page fetches of [loadMore]. *)
Definition incomingParams (s : TM) : AssetTransfersParams :=
  let d := _getDefaultParams s in
  mkAssetTransfersParams (fromBlock d) (toBlock d) (categories d)
    (withMetadata d) (excludeZeroValue d) (order d) (maxCount d)
    (Some (_walletAddress s)) (fromAddress d)
    (or_undefined (_nextIncomingPage s)).

Definition outgoingParams (s : TM) : AssetTransfersParams :=
  let d := _getDefaultParams s in
  mkAssetTransfersParams (fromBlock d) (toBlock d) (categories d)
    (withMetadata d) (excludeZeroValue d) (order d) (maxCount d)
    (toAddress d) (Some (_walletAddress s))
    (or_undefined (_nextOutgoingPage s)).

(** [isAtLastPage()] *)
Definition isAtLastPage (s : TM) : bool :=
  bool_decide (_nextIncomingPage s = JsNull)
  && bool_decide (_nextOutgoingPage s = JsNull).

(** [_dropGetOrderedTransactionsCache()] *)
Definition _dropGetOrderedTransactionsCache (s : TM) : TM :=
  set_ordering ∅ [] None s.

(** [this._transactionQueue.enqueue(tx)] *)
Definition enqueue (tx : Transfer) : M TM unit := λ s,
  let '(r, q) := pq_enqueue tx (_transactionQueue s) in
  (r, set_transactionQueue q s, []).

(** The body of [details.forEach] in [_populateSignedTransactions]; a
    [null] entry of the array is [None]. *)
Definition storeDetail (detail : option SignedTransaction) : M TM unit :=
  match detail with
  | Some d =>
      if truthy (signed_hash d)
      then modify (λ s, set_allSignedTransactions
                          (<[signed_hash d := d]> (_allSignedTransactions s)) s)
      else ret ()
  | None => ret ()
  end.

(** [_populateSignedTransactions(inputHashes)] *)
Definition _populateSignedTransactions (R : Remote) (inputHashes : list string)
  : M TM unit :=
  let hashes := filter (λ h : string, h ≠ ""%string) inputHashes in
  if bool_decide (length hashes = 0%nat) then ret ()
  else
    let! signed := gets _allSignedTransactions in
    let needsDetails :=
      filter (λ h : string, signed !! JsStr h = None) hashes in
    let! network := gets _network in
    let! promise := call (CallGetBatchTransactionsByHash network needsDetails)
      (getBatchTransactionsByHashForNetwork R network needsDetails) in
    let! details := await promise in
    forEach storeDetail details.

(** The argument of [_populateSignedTransactions] in [loadMore]. *)
Definition hashesOf (allTransfers : list Transfer) : list string :=
  (λ tx, nullish_or_empty (hash tx)) <$>
    filter (λ tx, hash tx ≠ JsNull ∧ hash tx ≠ JsUndefined
                  ∧ hash tx ≠ JsStr "") allTransfers.

(** The page fetch of one feed: skipped when the cursor is [null]. *)
Definition fetchPage (R : Remote) (cursor : JsString)
    (params : AssetTransfersParams)
  : M TM (Completion AssetTransfersResponse) :=
  if bool_decide (cursor ≠ JsNull)
  then
    let! network := gets _network in
    call (CallGetAssetTransfers network params)
      (getAssetTransfersForNetwork R network params)
  else ret (Return (mkAssetTransfersResponse [] JsNull)).

(** [loadMore()] *)
Definition loadMore (R : Remote) : M TM unit :=
  let! locked := gets _lock in
  if locked then ret ()
  else
    do! modify (set_lock true) in
    let! network := gets _network in
    let! availablePromise := call (CallIsAlchemyAvailable network)
      (isAlchemyAvailableForNetwork R network) in
    let! alchemyAvailable := await availablePromise in
    if negb alchemyAvailable
    then modify (set_lock false)
    else
      let! fetched := try_catch
        (let! s := gets id in
         let! incomingPromise := fetchPage R (_nextIncomingPage s) (incomingParams s) in
         let! outgoingPromise := fetchPage R (_nextOutgoingPage s) (outgoingParams s) in
         let! responses := await_all incomingPromise outgoingPromise in
         let '(incomingResponse, outgoingResponse) := responses in
         do! modify (set_nextIncomingPage (resp_pageKey incomingResponse)) in
         do! modify (set_nextOutgoingPage (resp_pageKey outgoingResponse)) in
         ret (resp_transfers incomingResponse, resp_transfers outgoingResponse))
        (λ error,
         do! modify (set_lock false) in
         throw (mkError ("Failed to fetch transactions: " +:+ message error))) in
      let '(incoming, outgoing) := fetched in
      do! forEach enqueue incoming in
      do! forEach enqueue outgoing in
      let allTransfers := incoming ++ outgoing in
      do! _populateSignedTransactions R (hashesOf allTransfers) in
      do! modify (λ s, set_pagesLoaded (_pagesLoaded s + 1) s) in
      do! modify _dropGetOrderedTransactionsCache in
      modify (set_lock false).

(** One turn of the loop over [toArray()] in [getOrderedTransactions]: the
    accumulator is [_allTransactions] and [_inorderTransactionHashes]. *)
Definition groupTransfer
    (acc : gmap JsString (list Transfer) * list JsString) (tx : Transfer)
  : gmap JsString (list Transfer) * list JsString :=
  let '(all, inorder) := acc in
  match all !! hash tx with
  | None => (<[hash tx := [tx]]> all, inorder ++ [hash tx])
  | Some group => (<[hash tx := group ++ [tx]]> all, inorder)
  end.

Definition groupTransfers (transactionsArray : list Transfer)
    (acc : gmap JsString (list Transfer) * list JsString)
  : gmap JsString (list Transfer) * list JsString :=
  foldl groupTransfer acc transactionsArray.

(** [maxSafeIndex], from the cursors, [_pagesLoaded], [_pageSize] and the
    ordered hashes at hand. *)
Definition maxSafeIndex (s : TM) (inorder : list JsString) : Z :=
  if isAtLastPage s then Z.of_nat (length inorder)
  else Z.min (_pagesLoaded s * (_pageSize s `div` 2))
             (Z.max (Z.of_nat (length inorder) - 1) 0).

(** One turn of the loop that builds [res]: [None] is [continue]. An index
    past the end of the array reads [undefined]. *)
Definition fullTransactionAt (s : TM)
    (all : gmap JsString (list Transfer)) (inorder : list JsString) (i : nat)
  : option FullTransaction :=
  let hash := default JsUndefined (inorder !! i) in
  let transactionData := all !! hash in
  let signedTransaction := _allSignedTransactions s !! hash in
  match transactionData with
  | None | Some [] => None
  | Some transactionData =>
      Some (toFullTransaction
        {| args_walletAddress := _walletAddress s;
           args_tandapayContractAddress := _tandapayContractAddress s;
           transfers := transactionData;
           signedTransaction := signedTransaction;
           args_network := if String.eqb (_network s) "custom"
                           then "sepolia"%string else _network s |})
  end.

(** [res] after the loop [for (let i = 0; i < maxSafeIndex; i += 1)]. *)
Definition buildResult (s : TM)
    (all : gmap JsString (list Transfer)) (inorder : list JsString)
    (maxSafeIndex : Z) : list FullTransaction :=
  omap (fullTransactionAt s all inorder) (seq 0 (Z.to_nat maxSafeIndex)).

End Generic.

(** [getOrderedTransactions()], on values: the result and the state after
    the call. [ [...a] ] is [a]. *)
Definition getOrderedTransactions (s : TransactionManager (list FullTransaction))
  : list FullTransaction * TransactionManager (list FullTransaction) :=
  match _getOrderedTransactionsCache s with
  | Some cache => (cache, s)
  | None =>
      let transactionsArray := pq_toArray (_transactionQueue s) in
      let '(all, inorder) :=
        groupTransfers transactionsArray
          (_allTransactions s, _inorderTransactionHashes s) in
      let res := buildResult s all inorder (maxSafeIndex s inorder) in
      (res, set_ordering all inorder (Some res) s)
  end.

End Manager.

Arguments TransactionManager {PQ} Cache.

(* ===================================================================== *)
(** ** A priority queue: a list kept in comparator order *)
(* ===================================================================== *)

Module ListQueue.

(** Insertion walks the list and compares the new transfer with what it
    passes; an exception of the comparator aborts the insertion. *)
Fixpoint insert (x : Transfer) (q : list Transfer) : Completion (list Transfer) :=
  match q with
  | [] => Return [x]
  | y :: q' =>
      match _transactionSortKey x y with
      | Throw e => Throw e
      | Return c =>
          if c <? 0 then Return (x :: y :: q')
          else match insert x q' with
               | Return r => Return (y :: r)
               | Throw e => Throw e
               end
      end
  end.

Definition enqueue (x : Transfer) (q : list Transfer)
  : Completion unit * list Transfer :=
  match insert x q with
  | Return q' => (Return (), q')
  | Throw e => (Throw e, q)
  end.

End ListQueue.

(** The queue interface, implemented by a sorted list. *)
Definition list_queue : PriorityQueueImpl := {|
  PriorityQueue := list Transfer;
  pq_new := [];
  pq_enqueue := ListQueue.enqueue;
  pq_toArray := λ q, q;
  pq_wf := StronglySorted precedes
|}.

(* ===================================================================== *)
(** ** Arrays and objects with identity *)
(* ===================================================================== *)

(** [getOrderedTransactions] hands out arrays of Full Transaction objects
    and keeps one as its cache. To see what a caller can reach through a
    returned array, arrays and objects live in a heap: an array is a
    reference to a list of object references, a Full Transaction object is a
    reference to its content. *)
Module Aliasing.

(** References are indices into the heap. *)
Abbreviation ref := nat.

Section Manager.
Context `{PQ : PriorityQueueImpl} `{FT : FullTransactionFormatter}.

Record Heap := mkHeap {
  arrays : list (list ref);
  objects : list FullTransaction
}.

(** A new array with the given elements: [[...elems]], or [[]]. *)
Definition alloc_array (elems : list ref) (h : Heap) : ref * Heap :=
  (length (arrays h), mkHeap (arrays h ++ [elems]) (objects h)).

(** A new object. *)
Definition alloc_object (v : FullTransaction) (h : Heap) : ref * Heap :=
  (length (objects h), mkHeap (arrays h) (objects h ++ [v])).

(** The elements of an array. *)
Definition read_array (h : Heap) (a : ref) : list ref :=
  default [] (arrays h !! a).

(** [a.push(o)] *)
Definition push (a : ref) (o : ref) (h : Heap) : Heap :=
  mkHeap (<[a := read_array h a ++ [o]]> (arrays h)) (objects h).

(** Any change a caller makes to the array [a] itself (assigning an index,
    [push], [pop], [splice], [length = 0], ...): its elements become
    [elems]. *)
Definition write_array (a : ref) (elems : list ref) (h : Heap) : Heap :=
  mkHeap (<[a := elems]> (arrays h)) (objects h).

(** Any change a caller makes to the object [o] (assigning a property): its
    content becomes [v]. *)
Definition write_object (o : ref) (v : FullTransaction) (h : Heap) : Heap :=
  mkHeap (arrays h) (<[o := v]> (objects h)).

(** What one sees when reading the array [a] through: the content of each
    element. *)
Definition view (h : Heap) (a : ref) : list (option FullTransaction) :=
  (λ o, objects h !! o) <$> read_array h a.

(** One turn of the loop that builds [res], in the heap:
    [toFullTransaction] makes a new object, [res.push] appends it. *)
Definition pushFullTransaction (s : TransactionManager ref)
    (all : gmap JsString (list Transfer)) (inorder : list JsString)
    (res : ref) (h : Heap) (i : nat) : Heap :=
  match fullTransactionAt s all inorder i with
  | None => h
  | Some fullTransaction =>
      let '(o, h1) := alloc_object fullTransaction h in
      push res o h1
  end.

(** [getOrderedTransactions()] with arrays and objects in the heap: the
    returned array, the state and the heap after the call. *)
Definition getOrderedTransactions (s : TransactionManager ref) (h : Heap)
  : ref * TransactionManager ref * Heap :=
  match _getOrderedTransactionsCache s with
  | Some cache =>
      let '(copy, h1) := alloc_array (read_array h cache) h in
      (copy, s, h1)
  | None =>
      let transactionsArray := pq_toArray (_transactionQueue s) in
      let '(all, inorder) :=
        groupTransfers transactionsArray
          (_allTransactions s, _inorderTransactionHashes s) in
      let maxSafeIndex := maxSafeIndex s inorder in
      let '(res, h1) := alloc_array [] h in
      let h2 :=
        foldl (pushFullTransaction s all inorder res) h1
          (seq 0 (Z.to_nat maxSafeIndex)) in
      let '(cache, h3) := alloc_array (read_array h2 res) h2 in
      (res, set_ordering all inorder (Some cache) s, h3)
  end.

(** The manager as the value-level model sees it: the cache array read
    through. *)
Definition abstract (h : Heap) (s : TransactionManager ref)
  : option (TransactionManager (list FullTransaction)) :=
  match _getOrderedTransactionsCache s with
  | None =>
      Some (set_ordering (_allTransactions s) (_inorderTransactionHashes s)
              None s)
  | Some cache =>
      contents ← mapM (λ o, objects h !! o) (read_array h cache);
      Some (set_ordering (_allTransactions s) (_inorderTransactionHashes s)
              (Some contents) s)
  end.

(** The cache, when there is one, is an array of the heap. *)
Definition cache_allocated (h : Heap) (s : TransactionManager ref) : Prop :=
  ∀ cache, _getOrderedTransactionsCache s = Some cache →
    (cache < length (arrays h))%nat.

End Manager.

End Aliasing.

(* ===================================================================== *)
(** ** Reachable states and the vocabulary of the properties *)
(* ===================================================================== *)

(** The transfers of [l] with hash [h], in the order of [l]. *)
Definition groupOf (h : JsString) (l : list Transfer) : list Transfer :=
  filter (λ tx, hash tx = h) l.

(** A Full Transaction stands before another in timestamp order, seen on
    the argument objects they are made from: the leading (most recent)
    transfer of the first precedes every transfer of the other. *)
Definition args_precedes (f g : ToFullTransactionParams) : Prop :=
  ∃ a, head (transfers f) = Some a ∧ Forall (precedes a) (transfers g).

(** A hash that [loadMore] does not enrich: [undefined], [null] or the
    empty string. *)
Definition missing_hash (h : JsString) : Prop :=
  h = JsUndefined ∨ h = JsNull ∨ h = JsStr "".

Global Instance missing_hash_dec h : Decision (missing_hash h).
Proof. unfold missing_hash. apply _. Defined.

Section Reachability.
Context `{PQ : PriorityQueueImpl} `{FT : FullTransactionFormatter}.

(** The states of a manager that is used from outside: constructed, then
    any number of [loadMore()] calls that resolved and of
    [getOrderedTransactions()] calls, one after the other. *)
Inductive reachable : TransactionManager (list FullTransaction) → Prop :=
  | reachable_new isAddress params s :
      constructor isAddress params = Return s →
      reachable s
  | reachable_loadMore R s s' calls :
      reachable s →
      loadMore R s = (Return (), s', calls) →
      reachable s'
  | reachable_getOrderedTransactions s :
      reachable s →
      reachable (getOrderedTransactions s).2.

(** What holds between two calls: the queue is well formed, the lock is
    free, and the three ordering fields are either all dropped or what
    [getOrderedTransactions] computes from the queue. *)
Definition coherent (s : TransactionManager (list FullTransaction)) : Prop :=
  pq_wf (_transactionQueue s)
  ∧ _lock s = false
  ∧ match _getOrderedTransactionsCache s with
    | None => _allTransactions s = ∅ ∧ _inorderTransactionHashes s = []
    | Some cache =>
        (_allTransactions s, _inorderTransactionHashes s)
          = groupTransfers (pq_toArray (_transactionQueue s)) (∅, [])
        ∧ cache = buildResult s (_allTransactions s)
                    (_inorderTransactionHashes s)
                    (maxSafeIndex s (_inorderTransactionHashes s))
    end.

End Reachability.

(** *** Grouping *)

(** The order that grouping gives to two hashes, for a relation [R] between
    transfers: the leading transfer of the first is related to every
    transfer of the second. *)
Definition leads (R : relation Transfer) (l : list Transfer) (h1 h2 : JsString)
  : Prop :=
  ∃ a, head (groupOf h1 l) = Some a ∧ Forall (R a) (groupOf h2 l).

(** What the loop over [toArray()] leaves in [_allTransactions] and
    [_inorderTransactionHashes] when it starts from dropped caches. *)
Record grouped (R : relation Transfer) (l : list Transfer)
    (all : gmap JsString (list Transfer)) (inorder : list JsString) : Prop := {
  grouped_lookup : ∀ h,
    all !! h = if decide (groupOf h l = []) then None else Some (groupOf h l);
  grouped_NoDup : NoDup inorder;
  grouped_elem_of : ∀ h, h ∈ inorder ↔ groupOf h l ≠ [];
  grouped_sorted : StronglySorted (leads R l) inorder
}.

(** *** The phases of [loadMore] *)

Section Phases.
Context `{PQ : PriorityQueueImpl} `{FT : FullTransactionFormatter}
        {Cache : Type}.

(** How the page fetch of a feed settles, and the call it makes. *)
Definition pagePromise (R : Remote) (network : string) (cursor : JsString)
    (params : AssetTransfersParams) : Completion AssetTransfersResponse :=
  if bool_decide (cursor ≠ JsNull)
  then getAssetTransfersForNetwork R network params
  else Return (mkAssetTransfersResponse [] JsNull).

Definition pageCalls (network : string) (cursor : JsString)
    (params : AssetTransfersParams) : list RemoteCall :=
  if bool_decide (cursor ≠ JsNull)
  then [CallGetAssetTransfers network params] else [].

(** The part of [loadMore] after the [try] block. *)
Definition mergeFetched (R : Remote) (incoming outgoing : list Transfer)
  : M (TransactionManager Cache) unit :=
  do! forEach enqueue incoming in
  do! forEach enqueue outgoing in
  let allTransfers := incoming ++ outgoing in
  do! _populateSignedTransactions R (hashesOf allTransfers) in
  do! modify (λ s, set_pagesLoaded (_pagesLoaded s + 1) s) in
  do! modify _dropGetOrderedTransactionsCache in
  modify (set_lock false).

(** The error that the [catch] block throws. *)
Definition fetchError (cause : Error) : Error :=
  mkError ("Failed to fetch transactions: " +:+ message cause).

(** [forEach enqueue] on the queue alone. *)
Fixpoint enqueueAll (l : list Transfer) (q : PriorityQueue)
  : Completion unit * PriorityQueue :=
  match l with
  | [] => (Return (), q)
  | tx :: l' =>
      match pq_enqueue tx q with
      | (Return _, q1) => enqueueAll l' q1
      | (Throw e, q1) => (Throw e, q1)
      end
  end.

(** [details.forEach(...)] on the map alone. *)
Definition storeDetails (details : list (option SignedTransaction))
    (m : gmap JsString SignedTransaction) : gmap JsString SignedTransaction :=
  foldl (λ m detail,
           match detail with
           | Some d => if truthy (signed_hash d) then <[signed_hash d := d]> m else m
           | None => m
           end) m details.

(** The argument object that [getOrderedTransactions] makes for the hash
    [h] when the queue lists [l]. *)
Definition paramsOf (s : TransactionManager Cache)
    (l : list Transfer) (h : JsString) : ToFullTransactionParams :=
  {| args_walletAddress := _walletAddress s;
     args_tandapayContractAddress := _tandapayContractAddress s;
     transfers := groupOf h l;
     signedTransaction := _allSignedTransactions s !! h;
     args_network := if String.eqb (_network s) "custom"
                     then "sepolia"%string else _network s |}.

(** The Full Transaction of the hash [h] when the queue lists [l]. *)
Definition fullTransactionOf (s : TransactionManager Cache)
    (l : list Transfer) (h : JsString) : FullTransaction :=
  toFullTransaction (paramsOf s l h).

(** The argument objects behind the result of [getOrderedTransactions], read
    off the state after the call: one for each hash of the ordered hash list
    up to [maxSafeIndex]. *)
Definition resultParams (s : TransactionManager Cache)
  : list ToFullTransactionParams :=
  paramsOf s (pq_toArray (_transactionQueue s))
    <$> take (Z.to_nat (maxSafeIndex s (_inorderTransactionHashes s)))
          (_inorderTransactionHashes s).

End Phases.

(** *** What [loadMore] asks of the remote side *)

(** The parameter objects of the page fetches among some calls. *)
Definition assetTransferCalls (calls : list RemoteCall)
  : list AssetTransfersParams :=
  omap (λ c, match c with
             | CallGetAssetTransfers _ params => Some params
             | _ => None
             end) calls.

(** The page fetches of the incoming feed ([toAddress] is set) and of the
    outgoing feed ([fromAddress] is set). *)
Definition incomingFetches (calls : list RemoteCall) : list AssetTransfersParams :=
  filter (λ p, toAddress p ≠ None) (assetTransferCalls calls).

Definition outgoingFetches (calls : list RemoteCall) : list AssetTransfersParams :=
  filter (λ p, fromAddress p ≠ None) (assetTransferCalls calls).

(** The hash lists of the batch signed-details fetches among some calls. *)
Definition batchCalls (calls : list RemoteCall) : list (list string) :=
  omap (λ c, match c with
             | CallGetBatchTransactionsByHash _ hashes => Some hashes
             | _ => None
             end) calls.

(** The transfers of the pages that the page fetches among some calls
    resolved to. *)
Definition fetchedTransfers (R : Remote) (calls : list RemoteCall)
  : list Transfer :=
  flat_map (λ c, match c with
                 | CallGetAssetTransfers network params =>
                     match getAssetTransfersForNetwork R network params with
                     | Return response => resp_transfers response
                     | Throw _ => []
                     end
                 | _ => []
                 end) calls.

(** The details that a batch answer holds for the hash [h]: its entries
    that are objects with that hash, the hash being truthy. *)
Definition detailsFor (h : JsString) (details : list (option SignedTransaction))
  : list SignedTransaction :=
  filter (λ d, signed_hash d = h ∧ truthy (signed_hash d) = true)
    (omap id details).

Section RemoteVocabulary.
Context `{PQ : PriorityQueueImpl} `{FT : FullTransactionFormatter}
        {Cache : Type}.

(** The page fetch of a feed is made and rejects with [e]. *)
Definition incomingRejects (R : Remote) (s : TransactionManager Cache)
    (e : Error) : Prop :=
  _nextIncomingPage s ≠ JsNull
  ∧ getAssetTransfersForNetwork R (_network s) (incomingParams s) = Throw e.

Definition outgoingRejects (R : Remote) (s : TransactionManager Cache)
    (e : Error) : Prop :=
  _nextOutgoingPage s ≠ JsNull
  ∧ getAssetTransfersForNetwork R (_network s) (outgoingParams s) = Throw e.

End RemoteVocabulary.

(* ===================================================================== *)
(** ** The transaction list *)
(* ===================================================================== *)

(** The component [TransactionList]: the effect that processes the
    transfers, the two handlers of the details modal, and what the component
    renders from its properties and its hook state. Of the rendered tree the
    model keeps which screen is shown, the texts, the colours and what the
    buttons act on; layout, styles and keys are left out.
    [convertTransferToEtherscanFormat] is imported: an oracle that resolves
    or rejects for each transfer. *)
Module TransactionList.

(** A transfer or a converted transaction. For the component both are
    [mixed]: it reads these properties of them and hands them on. *)
Record Transaction := mkTransaction {
  hash : JsString;
  direction : JsString;
  formattedValue : JsString;
  timeStamp : JsString;
  isTandaPayTransaction : bool;
  tandaPaySummary : JsString;
  (** [metadata?.blockTimestamp] *)
  blockTimestamp : JsString
}.

Global Instance Transaction_eq_dec : EqDecision Transaction.
Proof. solve_decision. Defined.

(** [TransactionState]; of the [error] only [userMessage] is read. *)
Inductive TransactionState :=
  | StatusIdle
  | StatusLoading
  | StatusSuccess (transfers : list Transaction) (hasMore : bool)
  | StatusError (userMessage : JsString).

(** The properties that the component computes with; [loadMoreStatus] is
    [loadMoreState.status]. The callbacks are named by the buttons below. *)
Record Props := mkProps {
  walletAddress : string;
  apiKeyConfigured : bool;
  transactionState : TransactionState;
  loadMoreStatus : string
}.

(** The four [useState] cells; [selectedTransaction] is [null] at first. *)
Record State := mkState {
  selectedTransaction : option Transaction;
  modalVisible : bool;
  processedTransactions : list Transaction;
  isProcessingTransactions : bool
}.

Definition initialState : State := mkState None false [] false.

Definition setSelectedTransaction (v : option Transaction) (st : State) : State :=
  mkState v (modalVisible st) (processedTransactions st)
    (isProcessingTransactions st).

Definition setModalVisible (v : bool) (st : State) : State :=
  mkState (selectedTransaction st) v (processedTransactions st)
    (isProcessingTransactions st).

Definition setProcessedTransactions (v : list Transaction) (st : State) : State :=
  mkState (selectedTransaction st) (modalVisible st) v
    (isProcessingTransactions st).

Definition setIsProcessingTransactions (v : bool) (st : State) : State :=
  mkState (selectedTransaction st) (modalVisible st)
    (processedTransactions st) v.

(** [Promise.all(promises)]: all the values, or the rejection that comes
    first (the model takes the first in the array). *)
Fixpoint promise_all {A} (promises : list (Completion A)) : Completion (list A) :=
  match promises with
  | [] => Return []
  | Throw e :: _ => Throw e
  | Return a :: promises' =>
      match promise_all promises' with
      | Return values => Return (a :: values)
      | Throw e => Throw e
      end
  end.

Section Effects.
Variable convertTransferToEtherscanFormat : Transaction → Completion Transaction.

(** The [async] function mapped over the transfers: a transfer whose
    conversion rejects is returned as it is. *)
Definition processTransfer (transfer : Transaction) : Completion Transaction :=
  match convertTransferToEtherscanFormat transfer with
  | Return converted => Return converted
  | Throw _ => Return transfer
  end.

(** [processTransactions()], once its promise has settled. *)
Definition processTransactions (transfers : list Transaction) (st : State)
  : State :=
  setIsProcessingTransactions false
    match promise_all (processTransfer <$> transfers) with
    | Return processed => setProcessedTransactions processed st
    | Throw _ => setProcessedTransactions transfers st
    end.

(** The effect that runs when the transaction state changes, in two steps:
    the hook state when the effect function returns (the processing, when
    there is any to do, is under way), and the hook state once that
    processing has settled. *)
Definition effectStarted (props : Props) (st : State) : State :=
  match transactionState props with
  | StatusSuccess transfers _ =>
      if (0 <? length transfers)%nat
      then setIsProcessingTransactions true st
      else setIsProcessingTransactions false (setProcessedTransactions [] st)
  | _ => setIsProcessingTransactions false (setProcessedTransactions [] st)
  end.

Definition effectSettled (props : Props) (st : State) : State :=
  match transactionState props with
  | StatusSuccess transfers _ =>
      if (0 <? length transfers)%nat
      then processTransactions transfers (setIsProcessingTransactions true st)
      else setIsProcessingTransactions false (setProcessedTransactions [] st)
  | _ => setIsProcessingTransactions false (setProcessedTransactions [] st)
  end.

(** [showTransactionDetails(transfer)], once settled. *)
Definition showTransactionDetails (transfer : Transaction) (st : State) : State :=
  match convertTransferToEtherscanFormat transfer with
  | Return etherscanTransaction =>
      setModalVisible true
        (setSelectedTransaction (Some etherscanTransaction) st)
  | Throw _ =>
      setModalVisible true (setSelectedTransaction (Some transfer) st)
  end.

(** What stands in the processed list for a transfer: its conversion, or
    the transfer itself when the conversion rejects. *)
Definition processed (transfer : Transaction) : Transaction :=
  match convertTransferToEtherscanFormat transfer with
  | Return converted => converted
  | Throw _ => transfer
  end.

End Effects.

(** [hideTransactionDetails()] *)
Definition hideTransactionDetails (st : State) : State :=
  setSelectedTransaction None (setModalVisible false st).

(** [TandaPayColors.warning], [.success] and [.error]. *)
Inductive TandaPayColors := warning | success | error.

(** One entry of the list: the three texts, the colour of the title, and
    the transaction that the [View] button shows. *)
Record Row := mkRow {
  displayColor : TandaPayColors;
  displayTitle : string;
  displayAmount : JsString;
  (** the argument of [formatTimestamp] *)
  displayTime : JsString;
  onView : Transaction
}.

(** The basic version shown of a transfer while the transfers are being
    processed. *)
Definition basicTransaction (transfer : Transaction) : Transaction :=
  {| hash := JsStr (default "" (or_undefined (hash transfer)));
     direction := JsStr (default "OUT" (or_undefined (direction transfer)));
     formattedValue := JsStr "0 ETH";
     timeStamp := JsStr (default "0" (or_undefined (blockTimestamp transfer)));
     isTandaPayTransaction := false;
     tandaPaySummary := JsNull;
     blockTimestamp := JsUndefined |}.

(** The body of the [map] over the listed transactions; [source] is what
    the [View] button passes on. *)
Definition row (etherscanTransaction source : Transaction) : Row :=
  if isTandaPayTransaction etherscanTransaction
  then
    {| displayColor := warning;
       displayTitle := "Sent TandaPay Action";
       displayAmount :=
         if truthy (tandaPaySummary etherscanTransaction)
         then tandaPaySummary etherscanTransaction
         else JsStr "Contract Call";
       displayTime := timeStamp etherscanTransaction;
       onView := source |}
  else
    {| displayColor :=
         if bool_decide (direction etherscanTransaction = JsStr "IN")
         then success else error;
       displayTitle :=
         if bool_decide (direction etherscanTransaction = JsStr "IN")
         then "Received" else "Sent";
       displayAmount := formattedValue etherscanTransaction;
       displayTime := timeStamp etherscanTransaction;
       onView := source |}.

(** What is shown in place of the [Load More] button. *)
Inductive LoadMoreControl :=
  | LoadMoreSpinner
  | LoadMoreButton (disabled : bool).

(** What the component renders. *)
Inductive Screen :=
  | ApiKeyRequired
  | NoWalletConnected
  | FailedToLoad (text : string)
  | LoadingTransactions
  | NoTransactionsFound
  | Transactions (rows : list Row) (loadMore : option LoadMoreControl)
      (modal : option (bool * Transaction))
  | DefaultLoading.

(** The component function, from the properties and the hook state. *)
Definition TransactionList (props : Props) (st : State) : Screen :=
  if negb (apiKeyConfigured props) then ApiKeyRequired
  else if String.eqb (walletAddress props) ""
          || (String.length (walletAddress props) =? 0)%nat
  then NoWalletConnected
  else
    match transactionState props with
    | StatusError userMessage =>
        FailedToLoad
          (default "Unable to fetch transaction history."
             (or_undefined userMessage))
    | StatusLoading => LoadingTransactions
    | StatusSuccess transfers hasMore =>
        if (length transfers =? 0)%nat then NoTransactionsFound
        else
          Transactions
            (if isProcessingTransactions st
             then (λ transfer, row (basicTransaction transfer) transfer)
                    <$> transfers
             else (λ transaction, row transaction transaction)
                    <$> processedTransactions st)
            (if hasMore
             then Some (if String.eqb (loadMoreStatus props) "loading"
                        then LoadMoreSpinner
                        else LoadMoreButton
                               (String.eqb (loadMoreStatus props) "complete"))
             else None)
            ((λ selected, (modalVisible st, selected))
               <$> selectedTransaction st)
    | StatusIdle => DefaultLoading
    end.

End TransactionList.

(* ===================================================================== *)
(** ** The authentication screen *)
(* ===================================================================== *)

(** [activeAuthentications] and the dispatch of [AuthScreen.handleAuth]. *)
Module AuthScreen.

(** The icons of [common/Icons] that the screen uses. *)
Inductive SpecificIconType :=
  | IconApple
  | IconPrivate
  | IconGoogle
  | IconGitHub
  | IconWindows
  | IconTerminal.

Global Instance SpecificIconType_eq_dec : EqDecision SpecificIconType.
Proof. solve_decision. Defined.

(** ['dev' | 'password' | {| url: string |}] *)
Inductive Action :=
  | ActionDev
  | ActionPassword
  | ActionUrl (url : string).

Global Instance Action_eq_dec : EqDecision Action.
Proof. solve_decision. Defined.

Record AuthenticationMethodDetails := mkAuthenticationMethodDetails {
  name : string;
  displayName : string;
  Icon : SpecificIconType;
  action : Action
}.

Global Instance AuthenticationMethodDetails_eq_dec :
  EqDecision AuthenticationMethodDetails.
Proof. solve_decision. Defined.

(** Methods that do not show up in [external_authentication_methods]. *)
Definition availableDirectMethods : list AuthenticationMethodDetails :=
  [ {| name := "dev"; displayName := "dev account"; Icon := IconTerminal;
       action := ActionDev |};
    {| name := "password"; displayName := "password"; Icon := IconPrivate;
       action := ActionPassword |};
    {| name := "ldap"; displayName := "password"; Icon := IconPrivate;
       action := ActionPassword |};
    {| name := "remoteuser"; displayName := "SSO"; Icon := IconPrivate;
       action := ActionUrl "accounts/login/sso/" |} ].

(** [new Map([...])]: the entries are set one after the other. *)
Definition externalMethodIcons : gmap string SpecificIconType :=
  foldl (λ m entry, <[entry.1 := entry.2]> m) ∅
    [("google", IconGoogle); ("github", IconGitHub);
     ("azuread", IconWindows); ("apple", IconApple)]%string.

(** An entry of [external_authentication_methods] in the server settings:
    the properties that the screen reads. *)
Record ExternalAuthenticationMethod := mkExternalAuthenticationMethod {
  method_name : string;
  display_name : string;
  login_url : string
}.

(** [authentication_methods] in the server settings: an object that holds
    a boolean for some method names; a name that is absent reads
    [undefined]. *)
Definition AuthenticationMethods := gmap string bool.

(** What [activeAuthentications] pushes for an external method. *)
Definition externalDetails (method : ExternalAuthenticationMethod)
  : AuthenticationMethodDetails :=
  {| name := method_name method;
     displayName := display_name method;
     Icon := default IconPrivate (externalMethodIcons !! method_name method);
     action := ActionUrl (login_url method) |}.

(** [activeAuthentications(authenticationMethods,
    externalAuthenticationMethods)]: the two [forEach] loops over [result]. *)
Definition activeAuthentications (authenticationMethods : AuthenticationMethods)
    (externalAuthenticationMethods : list ExternalAuthenticationMethod)
  : list AuthenticationMethodDetails :=
  let result :=
    foldl (λ result auth,
             if negb (bool_decide (authenticationMethods !! name auth = Some true))
             then result
             else if String.eqb (name auth) "ldap"
                     && bool_decide (authenticationMethods !! "password"%string
                                     = Some true)
             then result
             else result ++ [auth])
      [] availableDirectMethods in
  foldl (λ result method,
           if existsb (λ d, String.eqb (name d) (method_name method)) result
           then result
           else result ++ [externalDetails method])
    result externalAuthenticationMethods.

(** The second loop of [activeAuthentications], one turn. *)
Definition pushExternal (result : list AuthenticationMethodDetails)
    (method : ExternalAuthenticationMethod) : list AuthenticationMethodDetails :=
  if existsb (λ d, String.eqb (name d) (method_name method)) result
  then result
  else result ++ [externalDetails method].

(** The direct methods in the result: what the first loop leaves. *)
Definition directMethods (authenticationMethods : AuthenticationMethods)
  : list AuthenticationMethodDetails :=
  activeAuthentications authenticationMethods [].

(** What [canUseNativeAppleFlow] asks of the device and of the server:
    [Platform.OS], [AppleAuthentication.isAvailableAsync()] and
    [isAppOwnDomain(serverSettings.realm_uri)]. *)
Record Environment := mkEnvironment {
  OS : string;
  isAvailableAsync : bool;
  isAppOwnDomain : bool
}.

(** [canUseNativeAppleFlow()] *)
Definition canUseNativeAppleFlow (env : Environment) : bool :=
  if negb (String.eqb (OS env) "ios" && isAvailableAsync env) then false
  else isAppOwnDomain env.

(** The method of the screen that [handleAuth] calls. *)
Inductive Handler :=
  | handleDevAuth
  | handlePassword
  | handleNativeAppleAuth
  | beginWebAuth (url : string).

(** [handleAuth(method)] *)
Definition handleAuth (env : Environment) (method : AuthenticationMethodDetails)
  : Handler :=
  match action method with
  | ActionDev => handleDevAuth
  | ActionPassword => handlePassword
  | ActionUrl url =>
      if String.eqb (name method) "apple" && canUseNativeAppleFlow env
      then handleNativeAppleAuth
      else beginWebAuth url
  end.

End AuthScreen.

(* ===================================================================== *)
(** ** The community overview card *)
(* ===================================================================== *)

(** The text of the [Contract:] row of [CommunityOverviewCard]. Strings
    are sequences of code units below 256. *)
Module CommunityOverviewCard.

(** The white space and line terminators that [trim()] removes, among the
    code units below 256: tab, line feed, vertical tab, form feed, carriage
    return, space and no-break space. *)
Definition isWhiteSpace (c : Ascii.ascii) : bool :=
  let n := Ascii.nat_of_ascii c in
  ((9 <=? n) && (n <=? 13) || (n =? 32) || (n =? 160))%nat.

Fixpoint trimStart (s : string) : string :=
  match s with
  | String c s' => if isWhiteSpace c then trimStart s' else s
  | EmptyString => EmptyString
  end.

(** [s.trim()] *)
Definition trim (s : string) : string :=
  String.rev (trimStart (String.rev (trimStart s))).

(** Nothing but such characters, or nothing at all. *)
Fixpoint whiteOnly (s : string) : bool :=
  match s with
  | String c s' => isWhiteSpace c && whiteOnly s'
  | EmptyString => true
  end.

(** [s.slice(0, n)] *)
Definition slice_to (n : nat) (s : string) : string := String.substring 0 n s.

(** [s.slice(-n)] *)
Definition slice_last (n : nat) (s : string) : string :=
  String.substring (String.length s - n) n s.

(** The expression under [Contract:]. *)
Definition contractText (contractAddress : JsString) : string :=
  match contractAddress with
  | JsStr contractAddress =>
      if negb (String.eqb (trim contractAddress) "")
      then slice_to 6 contractAddress +:+ "..." +:+ slice_last 4 contractAddress
      else "Not configured"
  | _ => "Not configured"
  end.

End CommunityOverviewCard.

(* ===================================================================== *)
(** ** A worked scenario *)
(* ===================================================================== *)

(** A wallet on Sepolia with a two-leg transaction (an external transfer
    and its ERC-20 log), one plain transfer and one transfer without a
    hash, served by a remote side with the list queue. *)
Module Scenario.

(** A formatter: what a list row shows of a transaction. *)
Record Summary := mkSummary {
  summary_hash : option JsString;
  summary_legs : nat;
  summary_total : Z;
  summary_signed : bool;
  summary_network : string
}.

Definition summarize (args : ToFullTransactionParams) : Summary :=
  {| summary_hash := args_hash args;
     summary_legs := length (transfers args);
     summary_total := foldr (λ tx acc, value tx + acc) 0 (transfers args);
     summary_signed := bool_decide (is_Some (signedTransaction args));
     summary_network := args_network args |}.

Definition summary_formatter : FullTransactionFormatter :=
  {| FullTransaction := Summary; toFullTransaction := summarize |}.

#[local] Existing Instance list_queue.
#[local] Existing Instance summary_formatter.

Definition wallet : string := "0x52908400098527886E0F7030069857D2E4169EE7".
Definition peer : string := "0x8617E340B3D01FA5F11F306F4090FD50E238070D".

(** A stand-in for [ethers.utils.isAddress]: 42 characters. *)
Definition isAddress (a : string) : bool := Nat.eqb (String.length a) 42.

Definition params : ConstructorParams :=
  mkConstructorParams "sepolia" wallet JsUndefined None.

Definition swap_in : Transfer :=
  mkTransfer (JsStr "0xa1") (TsDate (Some 1700000300000)) "external" peer wallet 5.
Definition swap_log : Transfer :=
  mkTransfer (JsStr "0xa1") (TsDate (Some 1700000300000)) "erc20" wallet peer 70.
Definition payment : Transfer :=
  mkTransfer (JsStr "0xb2") (TsDate (Some 1700000200000)) "external" peer wallet 9.
Definition unhashed : Transfer :=
  mkTransfer JsUndefined (TsDate (Some 1700000100000)) "external" wallet peer 1.

Definition details (h : string) : SignedTransaction :=
  mkSignedTransaction (JsStr h) 7 21000 "0x".

Definition is_incoming (p : AssetTransfersParams) : bool :=
  bool_decide (toAddress p ≠ None).

(** The incoming feed has a second page, the outgoing feed is exhausted
    after its first. *)
Definition remote : Remote :=
  {| isAlchemyAvailableForNetwork := λ _, Return true;
     getAssetTransfersForNetwork := λ _ p,
       if is_incoming p
       then Return (mkAssetTransfersResponse [swap_in; payment] (JsStr "page2"))
       else Return (mkAssetTransfersResponse [swap_log; unhashed] JsNull);
     getBatchTransactionsByHashForNetwork := λ _ hashes,
       Return (Some ∘ details <$> hashes) |}.

(** Both feeds are exhausted after their first page. *)
Definition remote_last : Remote :=
  {| isAlchemyAvailableForNetwork := λ _, Return true;
     getAssetTransfersForNetwork := λ _ p,
       if is_incoming p
       then Return (mkAssetTransfersResponse [swap_in; payment] JsNull)
       else Return (mkAssetTransfersResponse [swap_log; unhashed] JsNull);
     getBatchTransactionsByHashForNetwork := λ _ hashes,
       Return (Some ∘ details <$> hashes) |}.

(** The outgoing page fetch rejects. *)
Definition remote_outgoing_down : Remote :=
  {| isAlchemyAvailableForNetwork := λ _, Return true;
     getAssetTransfersForNetwork := λ _ p,
       if is_incoming p
       then Return (mkAssetTransfersResponse [swap_in; payment] (JsStr "page2"))
       else Throw (mkError "timeout");
     getBatchTransactionsByHashForNetwork := λ _ hashes,
       Return (Some ∘ details <$> hashes) |}.

(** The batch signed-details fetch rejects. *)
Definition remote_batch_down : Remote :=
  {| isAlchemyAvailableForNetwork := λ _, Return true;
     getAssetTransfersForNetwork := getAssetTransfersForNetwork remote;
     getBatchTransactionsByHashForNetwork := λ _ _,
       Throw (mkError "rate limited") |}.

(** The incoming feed answers with the empty string as page key. *)
Definition remote_empty_key : Remote :=
  {| isAlchemyAvailableForNetwork := λ _, Return true;
     getAssetTransfersForNetwork := λ _ p,
       if is_incoming p
       then Return (mkAssetTransfersResponse [swap_in; payment] (JsStr ""))
       else Return (mkAssetTransfersResponse [swap_log; unhashed] JsNull);
     getBatchTransactionsByHashForNetwork := λ _ hashes,
       Return (Some ∘ details <$> hashes) |}.

(** No Alchemy for the network. *)
Definition remote_unavailable : Remote :=
  {| isAlchemyAvailableForNetwork := λ _, Return false;
     getAssetTransfersForNetwork := getAssetTransfersForNetwork remote;
     getBatchTransactionsByHashForNetwork :=
       getBatchTransactionsByHashForNetwork remote |}.

(** A transfer without [metadata.blockTimestamp] on the incoming page. *)
Definition undated : Transfer :=
  mkTransfer (JsStr "0xd4") TsMissing "external" peer wallet 2.

Definition remote_undated : Remote :=
  {| isAlchemyAvailableForNetwork := λ _, Return true;
     getAssetTransfersForNetwork := λ _ p,
       if is_incoming p
       then Return (mkAssetTransfersResponse [swap_in; undated] JsNull)
       else Return (mkAssetTransfersResponse [swap_log; unhashed] JsNull);
     getBatchTransactionsByHashForNetwork :=
       getBatchTransactionsByHashForNetwork remote |}.

(** The manager as constructed. *)
Definition manager0 {Cache} : TransactionManager Cache :=
  {| _network := "sepolia";
     _walletAddress := wallet;
     _tandapayContractAddress := None;
     _transactionQueue := [];
     _nextIncomingPage := JsUndefined;
     _nextOutgoingPage := JsUndefined;
     _pageSize := 20;
     _pagesLoaded := 0;
     _inorderTransactionHashes := [];
     _allTransactions := ∅;
     _allSignedTransactions := ∅;
     _getOrderedTransactionsCache := None;
     _lock := false |}.

(** After one [loadMore()] against [remote], [remote_last] and
    [remote_empty_key]. *)
Definition manager1 {Cache} : TransactionManager Cache :=
  (loadMore remote manager0).1.2.

Definition manager_last {Cache} : TransactionManager Cache :=
  (loadMore remote_last manager0).1.2.

Definition manager_empty_key {Cache} : TransactionManager Cache :=
  (loadMore remote_empty_key manager0).1.2.

(** A manager whose [loadMore()] is in flight. *)
Definition manager_locked {Cache} : TransactionManager Cache :=
  set_lock true manager0.

Definition heap0 : Aliasing.Heap := Aliasing.mkHeap [] [].

(** The three Full Transactions of the last scenario, in the heap. *)
Definition first_call := Aliasing.getOrderedTransactions manager_last heap0.

(** What a caller may write into the first element of a returned array. *)
Definition tampered : Summary :=
  mkSummary (Some (JsStr "0xa1")) 2 1000000 true "sepolia".

(** The availability check itself rejects. *)
Definition remote_check_down : Remote :=
  {| isAlchemyAvailableForNetwork := λ _, Throw (mkError "no route");
     getAssetTransfersForNetwork := getAssetTransfersForNetwork remote;
     getBatchTransactionsByHashForNetwork :=
       getBatchTransactionsByHashForNetwork remote |}.

(** The batch answer holds details twice for [0xa1], a [null] entry and
    details without hash. *)
Definition remote_repeats : Remote :=
  {| isAlchemyAvailableForNetwork := λ _, Return true;
     getAssetTransfersForNetwork := getAssetTransfersForNetwork remote;
     getBatchTransactionsByHashForNetwork := λ _ _,
       Return [Some (mkSignedTransaction (JsStr "0xa1") 1 21000 "0x");
               None;
               Some (mkSignedTransaction JsUndefined 2 21000 "0x");
               Some (mkSignedTransaction (JsStr "0xa1") 3 21000 "0x")] |}.

End Scenario.

(** A server and a list to look at. *)
Module Screens.
Import TransactionList AuthScreen.

(** A server with password and LDAP logins and two external methods. *)
Definition server_methods : AuthenticationMethods :=
  {[ "password"%string := true; "ldap"%string := true; "dev"%string := false ]}.

Definition server_external : list ExternalAuthenticationMethod :=
  [ mkExternalAuthenticationMethod "google" "Google" "/accounts/login/social/google";
    mkExternalAuthenticationMethod "apple" "Apple" "/accounts/login/social/apple" ].

Definition apple : AuthenticationMethodDetails :=
  externalDetails (mkExternalAuthenticationMethod "apple" "Apple"
                     "/accounts/login/social/apple").

Definition android : Environment := mkEnvironment "android" false true.

(** Two transfers, the second of which the converter rejects. *)
Definition received : Transaction :=
  mkTransaction (JsStr "0xa1") (JsStr "IN") JsUndefined JsUndefined false
    JsUndefined (JsStr "2023-11-14T22:18:20.000Z").

Definition sent : Transaction :=
  mkTransaction (JsStr "0xb2") JsUndefined JsUndefined JsUndefined false
    JsUndefined (JsStr "2023-11-14T22:16:40.000Z").

Definition converter (transfer : Transaction) : Completion Transaction :=
  if bool_decide (TransactionList.hash transfer = JsStr "0xa1")
  then Return (mkTransaction (JsStr "0xa1") (JsStr "IN") (JsStr "5 ETH")
                 (JsStr "1700000300") false JsNull JsUndefined)
  else Throw (mkError "decoding failed").

Definition list_props : Props :=
  mkProps Scenario.wallet true (StatusSuccess [received; sent] true) "idle".

End Screens.

(* ===================================================================== *)
(** * Properties *)
(* ===================================================================== *)

(** ** The comparator *)

Lemma precedes_timestamp a b :
  precedes a b ↔
  ∃ ta tb, timestamp a = Some ta ∧ timestamp b = Some tb ∧ tb <= ta.
Proof.
  unfold precedes, _transactionSortKey, timestamp.
  destruct (blockTimestamp a) as [|[ta|]], (blockTimestamp b) as [|[tb|]];
    try (split; [intros (c & ? & ?) | intros (? & ? & ? & ? & ?)]; congruence).
  split.
  - intros (c & Hc & Hle). exists ta, tb. split_and!; try done.
    destruct (Z.gtb_spec ta tb); [lia|].
    destruct (Z.ltb_spec ta tb); simplify_eq; lia.
  - intros (? & ? & ? & ? & Hle); simplify_eq.
    destruct (Z.gtb_spec x x0); [eexists; split; [done | lia] |].
    destruct (Z.ltb_spec x x0); [lia |]. eexists; split; [done | lia].
Qed.

Lemma precedes_trans a b c : precedes a b → precedes b c → precedes a c.
Proof.
  rewrite !precedes_timestamp.
  intros (ta & tb & ? & ? & ?) (tb' & tc & ? & ? & ?).
  exists ta, tc. split_and!; try done. simplify_eq. lia.
Qed.

Lemma sortKey_nonneg_precedes x y c :
  _transactionSortKey x y = Return c → ¬ c < 0 → precedes y x.
Proof.
  intros Hc Hneg. apply precedes_timestamp.
  unfold _transactionSortKey, timestamp in *.
  destruct (blockTimestamp x) as [|[tx|]], (blockTimestamp y) as [|[ty|]];
    try done.
  exists ty, tx. split_and!; try done.
  destruct (Z.gtb_spec tx ty); [simplify_eq; lia | lia].
Qed.

Lemma sortKey_neg_precedes x y c :
  _transactionSortKey x y = Return c → c < 0 → precedes x y.
Proof. intros Hc Hneg. exists c. split; [done | lia]. Qed.

(** ** The list queue implements the queue interface *)

Module ListQueueFacts.
Import ListQueue.

Lemma insert_perm x q q' : insert x q = Return q' → q' ≡ₚ x :: q.
Proof.
  revert q'. induction q as [|y q IH]; intros q' Hq'; simpl in *.
  - by simplify_eq.
  - destruct (_transactionSortKey x y) as [c|]; [|done].
    destruct (c <? 0); [by simplify_eq |].
    destruct (insert x q) as [r|]; [|done]. simplify_eq.
    rewrite (IH r eq_refl). apply Permutation_swap.
Qed.

Lemma insert_sorted x q q' :
  StronglySorted precedes q → insert x q = Return q' →
  StronglySorted precedes q'.
Proof.
  revert q'. induction q as [|y q IH]; intros q' Hs Hq'; simpl in *.
  - simplify_eq. repeat constructor.
  - destruct (_transactionSortKey x y) as [c|] eqn:Hc; [|done].
    apply StronglySorted_inv in Hs as [Hs Hy].
    destruct (Z.ltb_spec c 0).
    + simplify_eq. constructor; [by constructor |].
      pose proof (sortKey_neg_precedes _ _ _ Hc ltac:(done)) as Hxy.
      constructor; [done |].
      eapply Forall_impl; [exact Hy |]. intros z. by apply precedes_trans.
    + destruct (insert x q) as [r|] eqn:Hr; [|done]. simplify_eq.
      constructor; [by apply IH |].
      apply insert_perm in Hr. rewrite Hr. constructor; [|done].
      eapply sortKey_nonneg_precedes; [done | lia].
Qed.

Lemma enqueue_wf x q q' :
  StronglySorted precedes q → enqueue x q = (Return (), q') →
  StronglySorted precedes q'.
Proof.
  intros Hq. unfold enqueue.
  destruct (insert x q) eqn:Hi; intros; simplify_eq.
  by eapply insert_sorted.
Qed.

Lemma enqueue_toArray x q q' :
  StronglySorted precedes q → enqueue x q = (Return (), q') → q' ≡ₚ x :: q.
Proof.
  intros Hq. unfold enqueue.
  destruct (insert x q) eqn:Hi; intros; simplify_eq.
  by eapply insert_perm.
Qed.

End ListQueueFacts.

(** The sorted list meets what the class relies on. *)
Lemma list_queue_spec : @PriorityQueueSpec list_queue.
Proof.
  split.
  - constructor.
  - reflexivity.
  - exact ListQueueFacts.enqueue_wf.
  - exact ListQueueFacts.enqueue_toArray.
  - by intros q Hq.
Qed.

(** ** Grouping the queue content by hash *)

Section Grouping.

Lemma groupOf_snoc h l tx :
  groupOf h (l ++ [tx]) = groupOf h l ++ (if decide (hash tx = h) then [tx] else []).
Proof.
  unfold groupOf. by rewrite filter_app.
Qed.

Lemma groupOf_hash h l tx : tx ∈ groupOf h l → hash tx = h.
Proof. unfold groupOf. rewrite list_elem_of_filter. by intros []. Qed.

Lemma groupOf_elem h l tx : tx ∈ groupOf h l → tx ∈ l.
Proof. unfold groupOf. rewrite list_elem_of_filter. by intros []. Qed.

Lemma groupOf_nonempty h l : groupOf h l ≠ [] ↔ h ∈ hash <$> l.
Proof.
  rewrite list_elem_of_fmap. split.
  - destruct (groupOf h l) as [|tx g] eqn:Hg; [done | intros _].
    assert (tx ∈ groupOf h l) as Hin by (rewrite Hg; left).
    exists tx. split; [symmetry; by eapply groupOf_hash | by eapply groupOf_elem].
  - intros (tx & -> & Hin) Hnil.
    assert (tx ∈ groupOf (hash tx) l) as Hin'
      by (unfold groupOf; by rewrite list_elem_of_filter).
    rewrite Hnil in Hin'. by apply not_elem_of_nil in Hin'.
Qed.

Lemma head_app_nonempty {A} (l k : list A) : l ≠ [] → head (l ++ k) = head l.
Proof. by destruct l. Qed.

Lemma leads_snoc R l tx h1 h2 :
  StronglySorted R (l ++ [tx]) → leads R l h1 h2 → leads R (l ++ [tx]) h1 h2.
Proof.
  intros Hs (a & Ha & Hall). exists a. rewrite !groupOf_snoc. split.
  - rewrite head_app_nonempty; [done |]. by destruct (groupOf h1 l).
  - apply Forall_app. split; [done |]. case_decide; [|done].
    constructor; [|done].
    eapply (StronglySorted_app_1_elem_of R l [tx]); [done | | left].
    eapply groupOf_elem, head_Some_elem_of, Ha.
Qed.

Lemma leads_new R l tx h1 :
  StronglySorted R (l ++ [tx]) → groupOf h1 l ≠ [] → groupOf (hash tx) l = [] →
  leads R (l ++ [tx]) h1 (hash tx).
Proof.
  intros Hs Hne Hnil. destruct (groupOf h1 l) as [|a g] eqn:Hg; [done |].
  exists a. rewrite !groupOf_snoc, Hg, Hnil. split; [done |].
  rewrite decide_True by done. constructor; [|done].
  eapply (StronglySorted_app_1_elem_of R l [tx]); [done | | left].
  eapply groupOf_elem. rewrite Hg. left.
Qed.

Lemma groupTransfers_grouped R l :
  StronglySorted R l →
  grouped R l (groupTransfers l (∅, [])).1 (groupTransfers l (∅, [])).2.
Proof.
  unfold groupTransfers. induction l as [|tx l IH] using rev_ind; intros Hs.
  - simpl. split; try done.
    + constructor.
    + intros h. split; [by intros ?%not_elem_of_nil | done].
    + constructor.
  - rewrite foldl_snoc.
    specialize (IH (StronglySorted_app_1_l _ _ _ Hs)).
    destruct (foldl groupTransfer (∅, []) l) as [all inorder]; simpl in IH.
    destruct IH as [Hlook Hnd Hin Hsort]. unfold groupTransfer.
    pose proof (Hlook (hash tx)) as Htx.
    assert (Hmono : StronglySorted (leads R (l ++ [tx])) inorder).
    { clear -Hsort Hs. induction Hsort as [|h hs ? IH Hall]; constructor; [done |].
      eapply Forall_impl; [exact Hall |]. intros h2. by apply leads_snoc. }
    destruct (all !! hash tx) as [group|] eqn:Hall; simpl;
      case_decide as Hnil; simplify_eq.
    + split; try done.
      * intros h. rewrite groupOf_snoc. destruct (decide (hash tx = h)) as [->|Hne].
        -- rewrite lookup_insert_eq. rewrite decide_False; [done |].
           by destruct (groupOf h l).
        -- rewrite lookup_insert_ne, app_nil_r by done. apply Hlook.
      * intros h. rewrite Hin, groupOf_snoc. case_decide as Hh; subst.
        -- split; [intros _ | done]. by destruct (groupOf (hash tx) l).
        -- by rewrite app_nil_r.
    + split.
      * intros h. rewrite groupOf_snoc. destruct (decide (hash tx = h)) as [<-|Hne].
        -- by rewrite lookup_insert_eq, Hnil.
        -- rewrite lookup_insert_ne, app_nil_r by done. apply Hlook.
      * apply NoDup_app. split_and!; [done | | apply NoDup_singleton].
        intros h Hh ->%list_elem_of_singleton. by apply Hin in Hh.
      * intros h. rewrite elem_of_app, Hin, list_elem_of_singleton, groupOf_snoc.
        case_decide as Hh; subst.
        -- split; [intros _ | by right]. by rewrite Hnil.
        -- rewrite app_nil_r. split; [intros [|]; [done | congruence] | by left].
      * apply StronglySorted_app_2; [| done | repeat constructor].
        intros h1 h2 Hh1 ->%list_elem_of_singleton.
        apply leads_new; [done | by apply Hin | done].
Qed.

End Grouping.

(** ** [loadMore], step by step *)

Section LoadMoreFacts.
Context `{PQ : PriorityQueueImpl} {PQS : PriorityQueueSpec}
        `{FT : FullTransactionFormatter} {Cache : Type}.
Implicit Types s : TransactionManager Cache.

Lemma set_lock_restore s : _lock s = false → set_lock false (set_lock true s) = s.
Proof. destruct s; simpl; by intros ->. Qed.

Lemma set_lock_id s : set_lock (_lock s) s = s.
Proof. by destruct s. Qed.

Lemma set_allSignedTransactions_id s :
  set_allSignedTransactions (_allSignedTransactions s) s = s.
Proof. by destruct s. Qed.

Lemma set_ordering_id s :
  set_ordering (_allTransactions s) (_inorderTransactionHashes s)
    (_getOrderedTransactionsCache s) s = s.
Proof. by destruct s. Qed.

Lemma set_transactionQueue_id s :
  set_transactionQueue (_transactionQueue s) s = s.
Proof. by destruct s. Qed.

(** Running the primitive steps. *)
Lemma bind_ret {S A B} (a : A) (k : A → M S B) st : bind (ret a) k st = k a st.
Proof. unfold bind, ret. by destruct (k a st) as [[]]. Qed.

Lemma bind_throw {S A B} e (k : A → M S B) st :
  bind (throw e) k st = (Throw e, st, []).
Proof. done. Qed.

Lemma bind_gets {S A B} (f : S → A) (k : A → M S B) st :
  bind (gets f) k st = k (f st) st.
Proof. unfold bind, gets. by destruct (k (f st) st) as [[]]. Qed.

Lemma bind_modify {S B} (f : S → S) (k : unit → M S B) st :
  bind (modify f) k st = k () (f st).
Proof. unfold bind, modify. by destruct (k () (f st)) as [[]]. Qed.

Lemma bind_call {S A B} c (p : Completion A) (k : Completion A → M S B) st :
  bind (call c p) k st = let '(r, st', calls) := k p st in (r, st', c :: calls).
Proof. done. Qed.

Lemma bind_await_Return {S A B} (a : A) (k : A → M S B) st :
  bind (await (Return a)) k st = k a st.
Proof. unfold bind, await. by destruct (k a st) as [[]]. Qed.

Lemma bind_await_Throw {S A B} e (k : A → M S B) st :
  bind (await (Throw e)) k st = (Throw e, st, []).
Proof. done. Qed.

Lemma fetchPage_eq R cursor params s :
  fetchPage R cursor params s
  = (Return (pagePromise R (_network s) cursor params), s,
     pageCalls (_network s) cursor params).
Proof. unfold fetchPage, pagePromise, pageCalls. by case_bool_decide. Qed.

Lemma bind_fetchPage {B} R cursor params
    (k : Completion AssetTransfersResponse → M (TransactionManager Cache) B) s :
  bind (fetchPage R cursor params) k s
  = let '(r, s', calls) := k (pagePromise R (_network s) cursor params) s in
    (r, s', pageCalls (_network s) cursor params ++ calls).
Proof. unfold bind at 1. by rewrite fetchPage_eq. Qed.

Lemma loadMore_unfold R s :
  loadMore R s =
  if _lock s then (Return (), s, [])
  else
    let s1 := set_lock true s in
    let network := _network s in
    match isAlchemyAvailableForNetwork R network with
    | Throw e => (Throw e, s1, [CallIsAlchemyAvailable network])
    | Return false =>
        (Return (), set_lock false s1, [CallIsAlchemyAvailable network])
    | Return true =>
        let fetchCalls :=
          [CallIsAlchemyAvailable network]
          ++ pageCalls network (_nextIncomingPage s) (incomingParams s)
          ++ pageCalls network (_nextOutgoingPage s) (outgoingParams s) in
        match pagePromise R network (_nextIncomingPage s) (incomingParams s),
              pagePromise R network (_nextOutgoingPage s) (outgoingParams s)
        with
        | Return incomingResponse, Return outgoingResponse =>
            let s2 :=
              set_nextOutgoingPage (resp_pageKey outgoingResponse)
                (set_nextIncomingPage (resp_pageKey incomingResponse) s1) in
            let '(r, s3, calls) :=
              mergeFetched R (resp_transfers incomingResponse)
                (resp_transfers outgoingResponse) s2 in
            (r, s3, fetchCalls ++ calls)
        | Throw e, _ => (Throw (fetchError e), set_lock false s1, fetchCalls)
        | Return _, Throw e =>
            (Throw (fetchError e), set_lock false s1, fetchCalls)
        end
    end.
Proof.
  unfold loadMore. rewrite bind_gets.
  destruct (_lock s) eqn:Hlock; [done |].
  rewrite bind_modify, bind_gets, bind_call.
  change (_network (set_lock true s)) with (_network s).
  destruct (isAlchemyAvailableForNetwork R (_network s)) as [[|]|e];
    [| by rewrite bind_await_Return | by rewrite bind_await_Throw].
  rewrite bind_await_Return.
  cbv beta iota delta [negb]. unfold bind at 1. unfold try_catch at 1.
  rewrite bind_gets, !bind_fetchPage.
  change (_network (set_lock true s)) with (_network s).
  change (_nextIncomingPage (id (set_lock true s))) with (_nextIncomingPage s).
  change (_nextOutgoingPage (id (set_lock true s))) with (_nextOutgoingPage s).
  change (incomingParams (id (set_lock true s))) with (incomingParams s).
  change (outgoingParams (id (set_lock true s))) with (outgoingParams s).
  unfold await_all.
  destruct (pagePromise R (_network s) (_nextIncomingPage s) (incomingParams s))
    as [incomingResponse|e1];
    destruct (pagePromise R (_network s) (_nextOutgoingPage s) (outgoingParams s))
    as [outgoingResponse|e2];
    rewrite ?bind_ret, ?bind_throw, ?bind_modify;
    try (cbn; by rewrite ?app_nil_r, <-?app_assoc).
  unfold ret at 1. cbv beta iota. unfold mergeFetched.
  match goal with
  | |- context [bind ?m ?k ?st] => destruct (bind m k st) as [[r s3] calls]
  end.
  cbn. by rewrite app_nil_r.
Qed.

End LoadMoreFacts.

(** ** The merge phase of [loadMore] *)

Section MergeFacts.
Context `{PQ : PriorityQueueImpl} {PQS : PriorityQueueSpec}
        `{FT : FullTransactionFormatter} {Cache : Type}.
Implicit Types s : TransactionManager Cache.

Lemma forEach_enqueue_eq l s :
  forEach enqueue l s
  = ((enqueueAll l (_transactionQueue s)).1,
     set_transactionQueue (enqueueAll l (_transactionQueue s)).2 s, []).
Proof.
  revert s. induction l as [|tx l IH]; intros s; simpl.
  - by rewrite set_transactionQueue_id.
  - unfold bind. unfold enqueue at 1.
    destruct (pq_enqueue tx (_transactionQueue s)) as [[[]|e] q1]; [|done].
    by rewrite IH.
Qed.

Lemma enqueueAll_Return l q q' :
  pq_wf q → enqueueAll l q = (Return (), q') →
  pq_wf q' ∧ pq_toArray q' ≡ₚ l ++ pq_toArray q.
Proof.
  revert q. induction l as [|tx l IH]; intros q Hq Hall; simpl in *.
  - by simplify_eq.
  - destruct (pq_enqueue tx q) as [[[]|e] q1] eqn:Htx; [|done].
    destruct (IH q1) as [Hwf Hperm]; [by eapply pq_enqueue_wf | done |].
    split; [done |]. rewrite Hperm, (pq_enqueue_toArray tx q q1) by done.
    by rewrite Permutation_middle.
Qed.

Lemma forEach_storeDetail_eq details s :
  forEach storeDetail details s
  = (Return (),
     set_allSignedTransactions (storeDetails details (_allSignedTransactions s)) s,
     []).
Proof.
  revert s. induction details as [|detail details IH]; intros s; simpl.
  - by rewrite set_allSignedTransactions_id.
  - unfold bind. unfold storeDetail at 1.
    destruct detail as [d|]; [destruct (truthy (signed_hash d))|];
      unfold modify, ret; by rewrite IH.
Qed.

Lemma storeDetails_mono details m h :
  is_Some (m !! h) → is_Some (storeDetails details m !! h).
Proof.
  revert m. induction details as [|detail details IH]; intros m Hm; [done |].
  simpl. apply IH. destruct detail as [d|]; [|done].
  destruct (truthy (signed_hash d)); [|done].
  destruct (decide (signed_hash d = h)) as [->|].
  - by rewrite lookup_insert_eq.
  - by rewrite lookup_insert_ne.
Qed.

Lemma populate_eq R inputHashes s :
  _populateSignedTransactions R inputHashes s =
  let hashes := filter (λ h : string, h ≠ ""%string) inputHashes in
  if bool_decide (length hashes = 0%nat) then (Return (), s, [])
  else
    let needsDetails :=
      filter (λ h : string, _allSignedTransactions s !! JsStr h = None) hashes in
    let batchCall := CallGetBatchTransactionsByHash (_network s) needsDetails in
    match getBatchTransactionsByHashForNetwork R (_network s) needsDetails with
    | Return details =>
        (Return (),
         set_allSignedTransactions
           (storeDetails details (_allSignedTransactions s)) s,
         [batchCall])
    | Throw e => (Throw e, s, [batchCall])
    end.
Proof.
  unfold _populateSignedTransactions. cbv zeta. case_bool_decide; [done |].
  rewrite !bind_gets, bind_call.
  destruct (getBatchTransactionsByHashForNetwork _ _ _) as [details|e].
  - by rewrite bind_await_Return, forEach_storeDetail_eq.
  - by rewrite bind_await_Throw.
Qed.

Lemma mergeFetched_eq R incoming outgoing s :
  mergeFetched R incoming outgoing s =
  match enqueueAll incoming (_transactionQueue s) with
  | (Throw e, q1) => (Throw e, set_transactionQueue q1 s, [])
  | (Return _, q1) =>
      match enqueueAll outgoing q1 with
      | (Throw e, q2) => (Throw e, set_transactionQueue q2 s, [])
      | (Return _, q2) =>
          match _populateSignedTransactions R (hashesOf (incoming ++ outgoing))
                  (set_transactionQueue q2 s)
          with
          | (Throw e, s4, calls) => (Throw e, s4, calls)
          | (Return _, s4, calls) =>
              (Return (),
               set_lock false
                 (_dropGetOrderedTransactionsCache
                    (set_pagesLoaded (_pagesLoaded s4 + 1) s4)),
               calls)
          end
      end
  end.
Proof.
  unfold mergeFetched. unfold bind at 1. rewrite forEach_enqueue_eq.
  destruct (enqueueAll incoming (_transactionQueue s)) as [[[]|e] q1]; [|done].
  cbn [fst snd]. unfold bind at 1. rewrite forEach_enqueue_eq.
  change (_transactionQueue (set_transactionQueue q1 s)) with q1.
  destruct (enqueueAll outgoing q1) as [[[]|e] q2]; [|done].
  cbn [fst snd].
  change (set_transactionQueue q2 (set_transactionQueue q1 s))
    with (set_transactionQueue q2 s).
  unfold bind at 1.
  destruct (_populateSignedTransactions _ _ _) as [[[[]|e] s4] calls];
    [|by rewrite app_nil_l].
  rewrite !bind_modify. unfold modify. cbn. by rewrite app_nil_r.
Qed.

End MergeFacts.

(** ** Every outcome of [loadMore] *)

(** Splits a hypothesis [H : loadMore R s = (r, s', calls)] into the exits
    of [loadMore]: already locked; availability check rejected; remote
    unavailable; a page fetch rejected; an enqueue threw (incoming, then
    outgoing); nothing to enrich; the batch fetch resolved; the batch fetch
    rejected. *)
Ltac loadMore_exits H :=
  rewrite loadMore_unfold in H; cbv zeta in H;
  destruct (_lock _) eqn:Hlock in H;
  [ | destruct (isAlchemyAvailableForNetwork _ _) as [[|]|?] eqn:Havailable in H;
      [ destruct (pagePromise _ _ (_nextIncomingPage _) _)
          as [incomingResponse|?] eqn:Hincoming in H;
        [ destruct (pagePromise _ _ (_nextOutgoingPage _) _)
            as [outgoingResponse|?] eqn:Houtgoing in H;
          [ rewrite mergeFetched_eq in H;
            match type of H with
            | context [enqueueAll ?l ?q] =>
                destruct (enqueueAll l q) as [[[]|?] q1] eqn:Henq1 in H
            end;
            [ match type of H with
              | context [enqueueAll ?l ?q] =>
                  destruct (enqueueAll l q) as [[[]|?] q2] eqn:Henq2 in H
              end;
              [ rewrite populate_eq in H; cbv zeta in H;
                destruct (bool_decide (length _ = 0%nat)) eqn:Hnone in H;
                [ | destruct (getBatchTransactionsByHashForNetwork _ _ _)
                      as [details|?] eqn:Hbatch in H ]
              | ]
            | ]
          | ]
        | ]
      | | ] ].

Section Coherence.
Context `{PQ : PriorityQueueImpl} {PQS : PriorityQueueSpec}
        `{FT : FullTransactionFormatter}.
Implicit Types s : TransactionManager (list FullTransaction).

Lemma constructor_coherent isAddress params s :
  constructor isAddress params = Return s → coherent s.
Proof.
  unfold constructor. repeat case_match; try done. intros [= <-].
  split_and!; simpl; try done. apply pq_new_wf.
Qed.

Lemma loadMore_coherent R s s' calls :
  coherent s → loadMore R s = (Return (), s', calls) → coherent s'.
Proof.
  intros (Hwf & Hfree & Hcache) H. loadMore_exits H; simplify_eq;
    try congruence.
  - destruct (enqueueAll_Return _ _ _ Hwf Henq1) as [Hwf1 _].
    destruct (enqueueAll_Return _ _ _ Hwf1 Henq2) as [Hwf2 _].
    by split_and!.
  - destruct (enqueueAll_Return _ _ _ Hwf Henq1) as [Hwf1 _].
    destruct (enqueueAll_Return _ _ _ Hwf1 Henq2) as [Hwf2 _].
    by split_and!.
  - by rewrite set_lock_restore.
Qed.

Lemma getOrderedTransactions_coherent s :
  coherent s → coherent (getOrderedTransactions s).2.
Proof.
  intros (Hwf & Hfree & Hcache). unfold getOrderedTransactions.
  destruct (_getOrderedTransactionsCache s) as [cache|] eqn:Hc.
  { unfold coherent; simpl. by rewrite Hc. }
  destruct Hcache as [-> ->].
  destruct (groupTransfers _ _) as [all inorder] eqn:Hg.
  split_and!; simpl; [done | done |]. split; [done | reflexivity].
Qed.

Lemma reachable_coherent s : reachable s → coherent s.
Proof.
  induction 1 as [isAddress params s Hnew|R s s' calls _ IH Hload|s _ IH].
  - by eapply constructor_coherent.
  - by eapply loadMore_coherent.
  - by apply getOrderedTransactions_coherent.
Qed.

End Coherence.

(** ** The result of [getOrderedTransactions] *)

Section OrderedResult.
Context `{PQ : PriorityQueueImpl} {PQS : PriorityQueueSpec}
        `{FT : FullTransactionFormatter}.
Implicit Types s : TransactionManager (list FullTransaction).

Lemma fullTransactionAt_grouped {Cache} (s : TransactionManager Cache)
    R l all inorder i h :
  grouped R l all inorder → inorder !! i = Some h →
  fullTransactionAt s all inorder i = Some (fullTransactionOf s l h).
Proof.
  intros [Hlook _ Hin _] Hi. unfold fullTransactionAt. rewrite Hi. simpl.
  assert (groupOf h l ≠ []) as Hne
    by (apply Hin; by eapply list_elem_of_lookup_2).
  rewrite Hlook. destruct (decide _) as [?|_]; [done |].
  unfold fullTransactionOf, paramsOf. by destruct (groupOf h l).
Qed.

Lemma buildResult_grouped {Cache} (s : TransactionManager Cache)
    R l all inorder (n : Z) :
  grouped R l all inorder → (Z.to_nat n ≤ length inorder)%nat →
  buildResult s all inorder n
  = fullTransactionOf s l <$> take (Z.to_nat n) inorder.
Proof.
  intros Hg. unfold buildResult. induction (Z.to_nat n) as [|k IH]; intros Hk.
  - done.
  - destruct (lookup_lt_is_Some_2 inorder k ltac:(lia)) as [h Hh].
    rewrite seq_S, omap_app, IH by lia. simpl.
    rewrite (fullTransactionAt_grouped s R l all inorder k h) by done.
    by rewrite (take_S_r _ _ h), fmap_app by done.
Qed.

Lemma maxSafeIndex_le {Cache} (s : TransactionManager Cache) inorder :
  (Z.to_nat (maxSafeIndex s inorder) ≤ length inorder)%nat.
Proof. unfold maxSafeIndex. destruct (isAtLastPage s); lia. Qed.

Lemma maxSafeIndex_reserve {Cache} (s : TransactionManager Cache) inorder :
  isAtLastPage s = false → inorder ≠ [] →
  (Z.to_nat (maxSafeIndex s inorder) < length inorder)%nat.
Proof.
  intros Hlast Hne. unfold maxSafeIndex. rewrite Hlast.
  destruct inorder; [done |]. simpl. lia.
Qed.

(** [getOrderedTransactions] between two calls, whether it answers from
    the cache or not. *)
Lemma getOrderedTransactions_coherent_eq s :
  coherent s →
  let l := pq_toArray (_transactionQueue s) in
  let inorder := (groupTransfers l (∅, [])).2 in
  getOrderedTransactions s
  = (fullTransactionOf s l <$> take (Z.to_nat (maxSafeIndex s inorder)) inorder,
     set_ordering (groupTransfers l (∅, [])).1 inorder
       (Some (fullTransactionOf s l
                <$> take (Z.to_nat (maxSafeIndex s inorder)) inorder)) s).
Proof.
  intros (Hwf & Hfree & Hcache) l inorder.
  pose proof (groupTransfers_grouped precedes l (pq_toArray_sorted _ Hwf)) as Hg.
  pose proof (buildResult_grouped s precedes l _ _ (maxSafeIndex s inorder) Hg
                (maxSafeIndex_le s _)) as Hres.
  unfold getOrderedTransactions.
  destruct (_getOrderedTransactionsCache s) as [cache|] eqn:Hc.
  - destruct Hcache as [Hgroup Hcache]. fold l in Hgroup.
    subst inorder. rewrite <-Hgroup in *. simpl in *.
    by rewrite <-Hres, <-Hcache, <-Hc, set_ordering_id.
  - destruct Hcache as [-> ->]. fold l. subst inorder.
    destruct (groupTransfers l (∅, [])) as [all inorder]. simpl in *.
    by rewrite Hres.
Qed.

End OrderedResult.

Section OrderedClaims.
Context `{PQ : PriorityQueueImpl} {PQS : PriorityQueueSpec}
        `{FT : FullTransactionFormatter}.
Implicit Types s : TransactionManager (list FullTransaction).

Lemma args_hash_paramsOf {Cache} (s : TransactionManager Cache) l h :
  groupOf h l ≠ [] → args_hash (paramsOf s l h) = Some h.
Proof.
  intros Hne. unfold args_hash, paramsOf. simpl.
  destruct (groupOf h l) as [|tx g] eqn:Hg; [done |]. simpl. f_equal.
  eapply groupOf_hash. rewrite Hg. left.
Qed.

Lemma elem_of_take_list {A} (x : A) n l : x ∈ take n l → x ∈ l.
Proof. intros Hx. rewrite <-(take_drop n l). apply elem_of_app. by left. Qed.

Lemma NoDup_take_list {A} n (l : list A) : NoDup l → NoDup (take n l).
Proof. rewrite <-(take_drop n l) at 1. by intros (? & _)%NoDup_app. Qed.

Lemma args_hash_result {Cache} (s : TransactionManager Cache) R l all inorder n :
  grouped R l all inorder →
  args_hash <$> (paramsOf s l <$> take n inorder) = Some <$> take n inorder.
Proof.
  intros Hg. rewrite <-list_fmap_compose. apply Forall_fmap_ext_1.
  apply Forall_forall. intros h Hh. simpl. apply args_hash_paramsOf.
  eapply (grouped_elem_of _ _ _ _ Hg), elem_of_take_list, Hh.
Qed.

Lemma last_not_in_take {A} (l : list A) n x :
  NoDup l → last l = Some x → (n < length l)%nat → x ∉ take n l.
Proof.
  intros Hnd Hlast Hn Hin.
  rewrite <-(take_drop n l) in Hnd, Hlast.
  apply NoDup_app in Hnd as (_ & Hdisj & _). apply (Hdisj x Hin).
  apply last_app_Some in Hlast as [Hlast|[Hnone _]].
  - by eapply last_Some_elem_of.
  - apply last_None in Hnone. apply (f_equal length) in Hnone.
    rewrite length_drop in Hnone. simpl in Hnone. lia.
Qed.

(** The ordering fields after [getOrderedTransactions] are the grouping of
    the queue content; nothing else changes. *)
Lemma getOrderedTransactions_state s :
  coherent s →
  let s' := (getOrderedTransactions s).2 in
  grouped precedes (pq_toArray (_transactionQueue s))
    (_allTransactions s') (_inorderTransactionHashes s')
  ∧ _transactionQueue s' = _transactionQueue s
  ∧ _nextIncomingPage s' = _nextIncomingPage s
  ∧ _nextOutgoingPage s' = _nextOutgoingPage s
  ∧ _pagesLoaded s' = _pagesLoaded s
  ∧ _pageSize s' = _pageSize s
  ∧ _allSignedTransactions s' = _allSignedTransactions s
  ∧ _lock s' = _lock s.
Proof.
  intros Hs. rewrite (getOrderedTransactions_coherent_eq s Hs). simpl.
  split_and!; try done.
  apply groupTransfers_grouped, pq_toArray_sorted, Hs.
Qed.

(** The result is made from [resultParams]. *)
Lemma getOrderedTransactions_params s :
  coherent s →
  let res := (getOrderedTransactions s).1 in
  let s' := (getOrderedTransactions s).2 in
  let hashOrder := _inorderTransactionHashes s' in
  res = toFullTransaction <$> resultParams s'
  ∧ args_hash <$> resultParams s'
    = Some <$> take (Z.to_nat (maxSafeIndex s' hashOrder)) hashOrder
  ∧ StronglySorted args_precedes (resultParams s')
  ∧ NoDup (args_hash <$> resultParams s')
  ∧ grouped precedes (pq_toArray (_transactionQueue s'))
      (_allTransactions s') hashOrder.
Proof.
  intros Hs.
  pose proof (getOrderedTransactions_state s Hs) as (Hg & Hq & _).
  cbv zeta. unfold resultParams. rewrite Hq. revert Hg.
  rewrite (getOrderedTransactions_coherent_eq s Hs). cbn [fst snd].
  set (l := pq_toArray (_transactionQueue s)).
  set (inorder := (groupTransfers l (∅, [])).2).
  cbn [set_ordering _inorderTransactionHashes _allTransactions].
  intros Hg.
  change (maxSafeIndex (set_ordering _ _ _ s) inorder)
    with (maxSafeIndex s inorder).
  set (k := Z.to_nat (maxSafeIndex s inorder)).
  change (paramsOf (set_ordering _ _ _ s) l) with (paramsOf s l).
  split_and!.
  - unfold fullTransactionOf. by rewrite <-list_fmap_compose.
  - by eapply args_hash_result.
  - apply (StronglySorted_fmap _ (leads precedes l)).
    + intros h1 h2 (a & Ha & Hall). by exists a.
    + apply (StronglySorted_app_1_l _ _ (drop k inorder)).
      rewrite take_drop. apply Hg.
  - erewrite args_hash_result by done.
    apply NoDup_fmap_2; [apply _ |]. apply NoDup_take_list, Hg.
  - done.
Qed.

(** C1. In every state reachable by [loadMore()] calls that resolved,
    [getOrderedTransactions()] returns the Full Transactions of exactly the
    first [safeIndex] hashes of the ordered hash list, where [safeIndex] is
    the length of that list when [isAtLastPage()], and otherwise the minimum
    of [_pagesLoaded * floor(_pageSize / 2)] and [max(length - 1, 0)]; before
    the last page the most recently seen hash (the last of the list) is
    therefore not among them. *)
Theorem getOrderedTransactions_safe_prefix s :
  reachable s →
  let res := (getOrderedTransactions s).1 in
  let s' := (getOrderedTransactions s).2 in
  let hashOrder := _inorderTransactionHashes s' in
  let safeIndex :=
    if isAtLastPage s' then Z.of_nat (length hashOrder)
    else Z.min (_pagesLoaded s' * (_pageSize s' `div` 2))
               (Z.max (Z.of_nat (length hashOrder) - 1) 0) in
  let args :=
    paramsOf s' (pq_toArray (_transactionQueue s'))
      <$> take (Z.to_nat safeIndex) hashOrder in
  res = toFullTransaction <$> args
  ∧ args_hash <$> args = Some <$> take (Z.to_nat safeIndex) hashOrder
  ∧ (isAtLastPage s' = false →
     ∀ h, last hashOrder = Some h → Some h ∉ args_hash <$> args).
Proof.
  intros Hs%reachable_coherent.
  pose proof (getOrderedTransactions_params s Hs)
    as (Hres & Hhash & _ & _ & Hg).
  cbv zeta in *.
  set (s' := (getOrderedTransactions s).2) in *.
  set (hashOrder := _inorderTransactionHashes s') in *.
  split_and!; [exact Hres | exact Hhash |].
  intros Hlast h Hh.
  change (Some h ∉ args_hash <$> resultParams s'). rewrite Hhash.
  intros Hin%list_elem_of_fmap_inj_2; [|apply _]. revert Hin.
  apply last_not_in_take; [apply Hg | done |].
  apply (maxSafeIndex_reserve s'); [done |]. by destruct hashOrder.
Qed.

(** C2. In every state reachable by [loadMore()] calls that resolved, the
    sequence returned by [getOrderedTransactions()] is in descending order of
    block timestamp: of two Full Transactions, the comparator puts the
    leading transfer of the earlier one before (or level with) every transfer
    of the later one. *)
Theorem getOrderedTransactions_sorted s :
  reachable s →
  let res := (getOrderedTransactions s).1 in
  let s' := (getOrderedTransactions s).2 in
  res = toFullTransaction <$> resultParams s'
  ∧ StronglySorted args_precedes (resultParams s').
Proof.
  intros Hs%reachable_coherent.
  pose proof (getOrderedTransactions_params s Hs) as (Hres & _ & Hsorted & _).
  split; [exact Hres | exact Hsorted].
Qed.

(** C3. In every state reachable by [loadMore()] calls that resolved, each
    hash appears at most once among the Full Transactions returned by
    [getOrderedTransactions()]: every returned Full Transaction is made from
    a non-empty group of transfers that all carry one hash, and no two of
    them are made for the same hash. *)
Theorem getOrderedTransactions_hash_once s :
  reachable s →
  let res := (getOrderedTransactions s).1 in
  let s' := (getOrderedTransactions s).2 in
  res = toFullTransaction <$> resultParams s'
  ∧ NoDup (args_hash <$> resultParams s')
  ∧ ∀ a, a ∈ resultParams s' →
      ∃ h, args_hash a = Some h ∧ Forall (λ tx, hash tx = h) (transfers a).
Proof.
  intros Hs%reachable_coherent.
  pose proof (getOrderedTransactions_params s Hs)
    as (Hres & _ & _ & Hnd & Hg).
  split_and!; [exact Hres | exact Hnd |].
  intros a (h & -> & Hh)%list_elem_of_fmap. exists h. split.
  - apply args_hash_paramsOf.
    eapply (grouped_elem_of _ _ _ _ Hg), elem_of_take_list, Hh.
  - apply Forall_forall. intros tx. apply groupOf_hash.
Qed.

End OrderedClaims.

Section LoadMoreClaims.
Context `{PQ : PriorityQueueImpl} {PQS : PriorityQueueSpec}
        `{FT : FullTransactionFormatter} {Cache : Type}.
Implicit Types s : TransactionManager Cache.

Lemma pagePromise_Throw R s cursor params e :
  pagePromise R (_network s) cursor params = Throw e ↔
  cursor ≠ JsNull ∧ getAssetTransfersForNetwork R (_network s) params = Throw e.
Proof.
  unfold pagePromise. case_bool_decide as Hc; split; try done.
  - by intros [].
  - intros [? _]. by destruct Hc.
Qed.

(** A rejected page fetch: the exact outcome. *)
Lemma loadMore_fetch_failure R s :
  _lock s = false →
  isAlchemyAvailableForNetwork R (_network s) = Return true →
  (∃ e, incomingRejects R s e) ∨ (∃ e, outgoingRejects R s e) →
  ∃ cause,
    loadMore R s
    = (Throw (fetchError cause), s,
       [CallIsAlchemyAvailable (_network s)]
       ++ pageCalls (_network s) (_nextIncomingPage s) (incomingParams s)
       ++ pageCalls (_network s) (_nextOutgoingPage s) (outgoingParams s))
    ∧ (incomingRejects R s cause ∨ outgoingRejects R s cause).
Proof.
  intros Hlock Hav Hrej. rewrite loadMore_unfold, Hlock. cbv zeta.
  rewrite Hav, (set_lock_restore s Hlock).
  destruct (pagePromise R (_network s) (_nextIncomingPage s) (incomingParams s))
    as [incomingResponse|e1] eqn:Hin.
  - destruct (pagePromise R (_network s) (_nextOutgoingPage s) (outgoingParams s))
      as [outgoingResponse|e2] eqn:Hout.
    + exfalso. destruct Hrej as [[e He]|[e He]].
      * apply pagePromise_Throw in He. congruence.
      * apply pagePromise_Throw in He. congruence.
    + exists e2. split; [done |]. right. by apply pagePromise_Throw.
  - exists e1. split; [done |]. left. by apply pagePromise_Throw.
Qed.

Lemma batchCalls_app calls1 calls2 :
  batchCalls (calls1 ++ calls2) = batchCalls calls1 ++ batchCalls calls2.
Proof. apply omap_app. Qed.

Lemma batchCalls_page network cursor params :
  batchCalls (pageCalls network cursor params) = [].
Proof. unfold pageCalls. by case_bool_decide. Qed.

Lemma batchCalls_pageCalls network c1 p1 c2 p2 :
  batchCalls ([CallIsAlchemyAvailable network]
              ++ pageCalls network c1 p1 ++ pageCalls network c2 p2) = [].
Proof. unfold pageCalls. by repeat case_bool_decide. Qed.

(** C4. With the manager unlocked and the remote source available, if the
    page fetch of either feed rejects, [loadMore()] rejects with the error
    "Failed to fetch transactions: <message of the cause>", the cause being
    the rejection of one of the two page fetches, and leaves the manager
    exactly as it was: cursors, queue, [_pagesLoaded], the ordering caches,
    the signed details, and the lock (free again). *)
Theorem loadMore_fetch_failure_unchanged R s :
  _lock s = false →
  isAlchemyAvailableForNetwork R (_network s) = Return true →
  (∃ e, incomingRejects R s e) ∨ (∃ e, outgoingRejects R s e) →
  ∃ cause calls,
    loadMore R s
    = (Throw (mkError ("Failed to fetch transactions: " +:+ message cause)),
       s, calls)
    ∧ (incomingRejects R s cause ∨ outgoingRejects R s cause)
    ∧ batchCalls calls = [].
Proof.
  intros Hlock Hav Hrej.
  destruct (loadMore_fetch_failure R s Hlock Hav Hrej) as (cause & Heq & Hc).
  exists cause. eexists. split_and!; [exact Heq | done |].
  apply batchCalls_pageCalls.
Qed.

(** The calls of a [loadMore] that got past the availability check: the
    check, the page fetches, then at most the batch fetch. *)
Lemma loadMore_calls R s r s' calls :
  _lock s = false →
  isAlchemyAvailableForNetwork R (_network s) = Return true →
  loadMore R s = (r, s', calls) →
  ∃ tail,
    calls = [CallIsAlchemyAvailable (_network s)]
            ++ pageCalls (_network s) (_nextIncomingPage s) (incomingParams s)
            ++ pageCalls (_network s) (_nextOutgoingPage s) (outgoingParams s)
            ++ tail
    ∧ assetTransferCalls tail = [].
Proof.
  intros Hfree Hav H. loadMore_exits H; simplify_eq; try congruence.
  all: lazymatch goal with
       | |- ∃ tail, (_ ++ _ ++ _) ++ ?t = _ ∧ _ =>
           exists t; split; [by rewrite <-!app_assoc | done]
       | |- _ => exists []; split; [by rewrite !app_nil_r | done]
       end.
Qed.

Lemma incomingFetches_calls network c1 c2 (p1 p2 : AssetTransfersParams) tail :
  toAddress p1 ≠ None → toAddress p2 = None → assetTransferCalls tail = [] →
  incomingFetches ([CallIsAlchemyAvailable network] ++ pageCalls network c1 p1
                   ++ pageCalls network c2 p2 ++ tail)
  = if bool_decide (c1 ≠ JsNull) then [p1] else [].
Proof.
  intros Hp1 Hp2 Htail. unfold incomingFetches, assetTransferCalls in *.
  rewrite !omap_app, Htail, app_nil_r. unfold pageCalls.
  repeat case_bool_decide; simpl; rewrite ?filter_cons, ?filter_nil;
    repeat case_decide; done.
Qed.

Lemma outgoingFetches_calls network c1 c2 (p1 p2 : AssetTransfersParams) tail :
  fromAddress p1 = None → fromAddress p2 ≠ None → assetTransferCalls tail = [] →
  outgoingFetches ([CallIsAlchemyAvailable network] ++ pageCalls network c1 p1
                   ++ pageCalls network c2 p2 ++ tail)
  = if bool_decide (c2 ≠ JsNull) then [p2] else [].
Proof.
  intros Hp1 Hp2 Htail. unfold outgoingFetches, assetTransferCalls in *.
  rewrite !omap_app, Htail, app_nil_r. unfold pageCalls.
  repeat case_bool_decide; simpl; rewrite ?filter_cons, ?filter_nil;
    repeat case_decide; done.
Qed.

Lemma pagePromise_null R network params response :
  pagePromise R network JsNull params = Return response →
  resp_pageKey response = JsNull ∧ resp_transfers response = [].
Proof. unfold pagePromise. rewrite bool_decide_false by naive_solver. by intros [= <-]. Qed.

(** An exhausted cursor stays exhausted, whatever the outcome. *)
Lemma loadMore_incoming_exhausted R s r s' calls :
  _nextIncomingPage s = JsNull → loadMore R s = (r, s', calls) →
  _nextIncomingPage s' = JsNull.
Proof.
  intros Hnull H.
  loadMore_exits H; simplify_eq; simpl; try done;
    rewrite Hnull in Hincoming; by apply pagePromise_null in Hincoming as [-> _].
Qed.

Lemma loadMore_outgoing_exhausted R s r s' calls :
  _nextOutgoingPage s = JsNull → loadMore R s = (r, s', calls) →
  _nextOutgoingPage s' = JsNull.
Proof.
  intros Hnull H.
  loadMore_exits H; simplify_eq; simpl; try done;
    rewrite Hnull in Houtgoing; by apply pagePromise_null in Houtgoing as [-> _].
Qed.

(** C5 (amended). A [loadMore()] call that finds the lock taken returns at
    once and changes nothing, so the lock stays taken. A call that finds the
    lock free leaves it free when it resolves (normal success, or the early
    return for an unavailable remote) and when a page fetch rejects. *)
Theorem loadMore_lock_released R s r s' calls :
  loadMore R s = (r, s', calls) →
  (_lock s = true → r = Return () ∧ s' = s ∧ calls = [])
  ∧ (_lock s = false → r = Return () → _lock s' = false)
  ∧ (_lock s = false →
     isAlchemyAvailableForNetwork R (_network s) = Return true →
     (∃ e, incomingRejects R s e) ∨ (∃ e, outgoingRejects R s e) →
     _lock s' = false).
Proof.
  intros H. split_and!.
  - intros Hlocked. rewrite loadMore_unfold, Hlocked in H. by simplify_eq.
  - intros Hfree ->. loadMore_exits H; simplify_eq; try done.
  - intros Hfree Hav Hrej.
    destruct (loadMore_fetch_failure R s Hfree Hav Hrej) as (cause & Heq & _).
    rewrite Heq in H. by simplify_eq.
Qed.

(** When the lock is free afterwards: a call that finds the lock free
    leaves it free exactly when it resolves or leaves the manager as it was
    (a page fetch rejected). On the other exits (the availability check
    rejects, an enqueue throws, the batch fetch rejects) the lock stays
    taken. *)
Lemma loadMore_lock_free_iff R s r s' calls :
  loadMore R s = (r, s', calls) → _lock s = false →
  _lock s' = false ↔ r = Return () ∨ s' = s.
Proof.
  intros H Hfree.
  assert (∀ t : TransactionManager Cache, _lock t = true → t ≠ s) as Hne
    by (intros t Ht ->; congruence).
  loadMore_exits H; simplify_eq; try congruence; simpl;
    try (split; [by left | done]);
    try (split; [done | intros [?|Heq]; [done | by apply Hne in Heq]]).
  all: rewrite set_lock_restore by done; split; [by right | done].
Qed.

(** C6 (amended). In a [loadMore()] call that finds the lock free and the
    remote available, for each feed on its own: with the cursor [null] no
    page fetch is made for the feed and the cursor stays [null]; with the
    cursor [undefined] one page fetch is made, without page key (first page);
    with a non-empty token as cursor one page fetch is made with exactly that
    token as page key; with the empty string as cursor one page fetch is
    made, without page key. *)
Theorem loadMore_page_fetches R s r s' calls :
  _lock s = false →
  isAlchemyAvailableForNetwork R (_network s) = Return true →
  loadMore R s = (r, s', calls) →
  ((_nextIncomingPage s = JsNull →
      incomingFetches calls = [] ∧ _nextIncomingPage s' = JsNull)
   ∧ (_nextIncomingPage s = JsUndefined →
      incomingFetches calls = [incomingParams s]
      ∧ pageKey (incomingParams s) = None)
   ∧ (∀ token, _nextIncomingPage s = JsStr token → token ≠ ""%string →
      incomingFetches calls = [incomingParams s]
      ∧ pageKey (incomingParams s) = Some token)
   ∧ (_nextIncomingPage s = JsStr "" →
      incomingFetches calls = [incomingParams s]
      ∧ pageKey (incomingParams s) = None))
  ∧ ((_nextOutgoingPage s = JsNull →
      outgoingFetches calls = [] ∧ _nextOutgoingPage s' = JsNull)
   ∧ (_nextOutgoingPage s = JsUndefined →
      outgoingFetches calls = [outgoingParams s]
      ∧ pageKey (outgoingParams s) = None)
   ∧ (∀ token, _nextOutgoingPage s = JsStr token → token ≠ ""%string →
      outgoingFetches calls = [outgoingParams s]
      ∧ pageKey (outgoingParams s) = Some token)
   ∧ (_nextOutgoingPage s = JsStr "" →
      outgoingFetches calls = [outgoingParams s]
      ∧ pageKey (outgoingParams s) = None)).
Proof.
  intros Hfree Hav H.
  destruct (loadMore_calls R s r s' calls Hfree Hav H) as (tail & -> & Htail).
  rewrite incomingFetches_calls, outgoingFetches_calls by done.
  assert (∀ token, token ≠ ""%string → or_undefined (JsStr token) = Some token)
    as Htoken.
  { intros token Hne. simpl. by destruct (String.eqb_spec token ""). }
  split; split_and!.
  - intros Hc. rewrite Hc. split; [done |].
    by eapply loadMore_incoming_exhausted.
  - intros Hc. simpl. by rewrite Hc.
  - intros token Hc Hne. simpl. rewrite Hc. split; [done |]. by apply Htoken.
  - intros Hc. simpl. by rewrite Hc.
  - intros Hc. rewrite Hc. split; [done |].
    by eapply loadMore_outgoing_exhausted.
  - intros Hc. simpl. by rewrite Hc.
  - intros token Hc Hne. simpl. rewrite Hc. split; [done |]. by apply Htoken.
  - intros Hc. simpl. by rewrite Hc.
Qed.

(** The two filters and the map of [loadMore] and
    [_populateSignedTransactions], on the transfers. *)
Lemma hashes_to_enrich (all : list Transfer) :
  filter (λ h : string, h ≠ ""%string) (hashesOf all)
  = (λ tx, nullish_or_empty (hash tx))
      <$> filter (λ tx, ¬ missing_hash (hash tx)) all.
Proof.
  unfold hashesOf, missing_hash. induction all as [|tx all IH]; [done |].
  rewrite !filter_cons.
  destruct (decide (hash tx ≠ JsNull ∧ hash tx ≠ JsUndefined ∧ hash tx ≠ JsStr ""))
    as [Hp|Hp];
    destruct (decide (¬ (hash tx = JsUndefined ∨ hash tx = JsNull ∨ hash tx = JsStr "")))
    as [Hq|Hq].
  - rewrite !fmap_cons, filter_cons.
    destruct (decide (nullish_or_empty (hash tx) ≠ ""%string)) as [_|Hne].
    + by rewrite IH.
    + destruct Hne.
      destruct (hash tx) as [| |h]; simpl;
        [intuition congruence.. | intros ->; intuition congruence].
  - destruct Hq. intuition congruence.
  - destruct Hp. intuition congruence.
  - exact IH.
Qed.

Lemma hashes_needing_details (m : gmap JsString SignedTransaction)
    (l : list Transfer) :
  Forall (λ tx, ¬ missing_hash (hash tx)) l →
  filter (λ h : string, m !! JsStr h = None)
    ((λ tx, nullish_or_empty (hash tx)) <$> l)
  = (λ tx, nullish_or_empty (hash tx)) <$> filter (λ tx, m !! hash tx = None) l.
Proof.
  induction 1 as [|tx l Htx _ IH]; [done |].
  assert (JsStr (nullish_or_empty (hash tx)) = hash tx) as Heq.
  { unfold missing_hash in Htx. destruct (hash tx); simpl; intuition congruence. }
  rewrite fmap_cons, !filter_cons, Heq.
  case_decide; by rewrite ?fmap_cons, IH.
Qed.

Lemma fetchedTransfers_app R calls1 calls2 :
  fetchedTransfers R (calls1 ++ calls2)
  = fetchedTransfers R calls1 ++ fetchedTransfers R calls2.
Proof. unfold fetchedTransfers. apply flat_map_app. Qed.

Lemma fetchedTransfers_pageCalls R network cursor params response :
  pagePromise R network cursor params = Return response →
  fetchedTransfers R (pageCalls network cursor params) = resp_transfers response.
Proof.
  unfold pagePromise, pageCalls. case_bool_decide; simpl.
  - intros ->. by rewrite app_nil_r.
  - by intros [= <-].
Qed.

(** C8 (amended). When [loadMore()] resolves, the hash list passed to the
    batch signed-details fetch holds, for every freshly fetched transfer
    whose hash is neither missing nor empty nor already in the signed-details
    cache, the hash of that transfer, in fetch order and once per transfer (a
    hash shared by several fresh transfers occurs as often as they are); no
    batch fetch is made when no fresh transfer has a non-empty hash. *)
Theorem loadMore_batch_hashes R s s' calls :
  loadMore R s = (Return (), s', calls) →
  let fresh := fetchedTransfers R calls in
  let enriched := filter (λ tx, ¬ missing_hash (hash tx)) fresh in
  batchCalls calls =
    if decide (enriched = []) then []
    else [(λ tx, nullish_or_empty (hash tx))
            <$> filter (λ tx, _allSignedTransactions s !! hash tx = None)
                  enriched].
Proof.
  intros H. loadMore_exits H; simplify_eq; try done; cbv zeta;
    rewrite !fetchedTransfers_app,
      (fetchedTransfers_pageCalls _ _ _ _ _ Hincoming),
      (fetchedTransfers_pageCalls _ _ _ _ _ Houtgoing);
    change (fetchedTransfers R [CallIsAlchemyAvailable (_network s)])
      with (@nil Transfer);
    rewrite hashes_to_enrich, length_fmap in Hnone;
    unfold batchCalls; rewrite omap_app;
    fold (batchCalls
      ([CallIsAlchemyAvailable (_network s)] ++
       pageCalls (_network s) (_nextIncomingPage s) (incomingParams s) ++
       pageCalls (_network s) (_nextOutgoingPage s) (outgoingParams s)));
    rewrite batchCalls_pageCalls, !app_nil_l.
  - (* nothing to enrich *)
    apply bool_decide_eq_true, nil_length_inv in Hnone.
    change (fetchedTransfers R []) with (@nil Transfer).
    by rewrite app_nil_r, Hnone, decide_True.
  - (* the batch fetch resolved *)
    apply bool_decide_eq_false in Hnone.
    change (fetchedTransfers R [_]) with (@nil Transfer).
    rewrite app_nil_r, decide_False by (intros Hnil; by rewrite Hnil in Hnone).
    simpl. f_equal. rewrite hashes_to_enrich.
    apply hashes_needing_details, Forall_forall.
    intros tx. rewrite list_elem_of_filter. by intros [].
Qed.

End LoadMoreClaims.

(** ** The signed details, and the transfers without a hash *)

Section DurableClaims.
Context `{PQ : PriorityQueueImpl} {PQS : PriorityQueueSpec}
        `{FT : FullTransactionFormatter}.
Implicit Types s : TransactionManager (list FullTransaction).

Lemma loadMore_signed_mono {Cache} R (s s' : TransactionManager Cache) r calls h :
  loadMore R s = (r, s', calls) →
  is_Some (_allSignedTransactions s !! h) →
  is_Some (_allSignedTransactions s' !! h).
Proof.
  intros H Hh. loadMore_exits H; simplify_eq; simpl; try done.
  by apply storeDetails_mono.
Qed.

(** C9. No operation removes an entry of the signed-details map: a hash
    that has details before [loadMore()] has details after it, whatever the
    outcome; [_dropGetOrderedTransactionsCache()], which clears the grouped
    transfers, the ordered hashes and the ordered cache, leaves the map as it
    is, and so does [getOrderedTransactions()]. *)
Theorem signed_details_durable R s h :
  is_Some (_allSignedTransactions s !! h) →
  is_Some (_allSignedTransactions (loadMore R s).1.2 !! h)
  ∧ _allSignedTransactions (_dropGetOrderedTransactionsCache s)
    = _allSignedTransactions s
  ∧ _allTransactions (_dropGetOrderedTransactionsCache s) = ∅
  ∧ _inorderTransactionHashes (_dropGetOrderedTransactionsCache s) = []
  ∧ _getOrderedTransactionsCache (_dropGetOrderedTransactionsCache s) = None
  ∧ _allSignedTransactions (getOrderedTransactions s).2
    = _allSignedTransactions s.
Proof.
  intros Hh. split_and!; try done.
  - destruct (loadMore R s) as [[r s'] calls] eqn:H. simpl.
    by eapply loadMore_signed_mono.
  - unfold getOrderedTransactions.
    destruct (_getOrderedTransactionsCache s); [done |].
    by destruct (groupTransfers _ _).
Qed.

Lemma batchCalls_no_empty_hash {Cache} R (s s' : TransactionManager Cache)
    r calls hashes :
  loadMore R s = (r, s', calls) → hashes ∈ batchCalls calls →
  ""%string ∉ hashes.
Proof.
  intros H.
  loadMore_exits H; simplify_eq;
    rewrite ?batchCalls_app, ?batchCalls_page; simpl;
    try (by intros ?%not_elem_of_nil).
  all: intros ->%list_elem_of_singleton;
    rewrite !list_elem_of_filter; by intros (_ & ? & _).
Qed.

Lemma loadMore_enqueues {Cache} R (s s' : TransactionManager Cache) calls tx :
  pq_wf (_transactionQueue s) →
  loadMore R s = (Return (), s', calls) →
  tx ∈ fetchedTransfers R calls → tx ∈ pq_toArray (_transactionQueue s').
Proof.
  intros Hwf H.
  loadMore_exits H; simplify_eq; try (by intros ?%not_elem_of_nil).
  all: rewrite !fetchedTransfers_app,
      (fetchedTransfers_pageCalls _ _ _ _ _ Hincoming),
      (fetchedTransfers_pageCalls _ _ _ _ _ Houtgoing);
    change (fetchedTransfers R [_]) with (@nil Transfer);
    change (fetchedTransfers R []) with (@nil Transfer);
    rewrite app_nil_l, app_nil_r; simpl;
    destruct (enqueueAll_Return _ _ _ Hwf Henq1) as [Hwf1 Hperm1];
    destruct (enqueueAll_Return _ _ _ Hwf1 Henq2) as [Hwf2 Hperm2];
    rewrite Hperm2, Hperm1, !elem_of_app; tauto.
Qed.

Lemma NoDup_filter_eq_length {A} `{EqDecision A} (l : list A) (x : A) :
  NoDup l →
  length (filter (λ y, y = x) l) = if decide (x ∈ l) then 1%nat else 0%nat.
Proof.
  induction 1 as [|y l Hy Hnd IH]; [done |].
  rewrite filter_cons. destruct (decide (y = x)) as [->|Hne]; simpl.
  - rewrite IH, decide_False, decide_True by (done || left). done.
  - rewrite IH. destruct (decide (x ∈ l)) as [Hx|Hx].
    + by rewrite decide_True by (by right).
    + rewrite decide_False; [done |]. by intros [->|?]%elem_of_cons.
Qed.

Lemma NoDup_fmap_filter_length {A B} `{EqDecision B} (f : A → B) (l : list A) y :
  NoDup (f <$> l) → (length (filter (λ x, f x = y) l) ≤ 1)%nat.
Proof.
  induction l as [|x l IH]; [simpl; lia |].
  rewrite fmap_cons, NoDup_cons. intros [Hx Hnd]. rewrite filter_cons.
  destruct (decide (f x = y)) as [<-|]; [|by apply IH].
  destruct (filter (λ x0, f x0 = f x) l) as [|z zs] eqn:Hf; [simpl; lia |].
  exfalso. assert (z ∈ filter (λ x0, f x0 = f x) l) as Hz by (rewrite Hf; left).
  apply list_elem_of_filter in Hz as [Hfz Hz].
  apply Hx. rewrite <-Hfz. apply list_elem_of_fmap. by exists z.
Qed.

(** C10. For a hash value that is missing ([undefined] or [null]) or the
    empty string: a [loadMore()] call never passes it to the batch
    signed-details fetch; when [loadMore()] resolves, every freshly fetched
    transfer with that hash is in the queue; and [getOrderedTransactions()]
    gathers all the queued transfers with that hash in one group under that
    value as key, which takes one slot of the ordered hash list (none when
    there is no such transfer) and yields at most one Full Transaction. *)
Theorem missing_hash_single_group h :
  missing_hash h →
  (∀ R s r s' calls hashes,
     loadMore R s = (r, s', calls) → hashes ∈ batchCalls calls →
     nullish_or_empty h ∉ hashes)
  ∧ (∀ R s s' calls tx,
       reachable s → loadMore R s = (Return (), s', calls) →
       tx ∈ fetchedTransfers R calls → hash tx = h →
       tx ∈ pq_toArray (_transactionQueue s'))
  ∧ (∀ s, reachable s →
       let res := (getOrderedTransactions s).1 in
       let s' := (getOrderedTransactions s).2 in
       let members := groupOf h (pq_toArray (_transactionQueue s')) in
       _allTransactions s' !! h
         = (if decide (members = []) then None else Some members)
       ∧ length (filter (λ k, k = h) (_inorderTransactionHashes s'))
         = (if decide (members = []) then 0%nat else 1%nat)
       ∧ res = toFullTransaction <$> resultParams s'
       ∧ (length (filter (λ a, args_hash a = Some h) (resultParams s')) ≤ 1)%nat).
Proof.
  intros Hmissing. split_and!.
  - intros R s r s' calls hashes H Hin.
    assert (nullish_or_empty h = ""%string) as ->
      by (by destruct Hmissing as [->|[->| ->]]).
    by eapply batchCalls_no_empty_hash.
  - intros R s s' calls tx Hs%reachable_coherent H Htx _.
    eapply loadMore_enqueues; [apply Hs | done | done].
  - intros s Hs%reachable_coherent.
    pose proof (getOrderedTransactions_params s Hs)
      as (Hres & _ & _ & Hnd & Hg).
    cbv zeta. split_and!.
    + apply Hg.
    + rewrite NoDup_filter_eq_length by apply Hg.
      destruct (decide (groupOf h _ = [])) as [Hnil|Hne].
      * rewrite decide_False; [done |]. intros Hin. by apply Hg in Hin.
      * rewrite decide_True; [done |]. by apply Hg.
    + exact Hres.
    + by apply NoDup_fmap_filter_length.
Qed.

End DurableClaims.

(** ** Returned arrays, the cache array and their elements *)

Section AliasingFacts.
Context `{PQ : PriorityQueueImpl} {PQS : PriorityQueueSpec}
        `{FT : FullTransactionFormatter}.
Implicit Types (s : TransactionManager Aliasing.ref) (h : Aliasing.Heap).

Lemma read_array_alloc h elems a :
  Aliasing.read_array (Aliasing.alloc_array elems h).2 a
  = if decide (a = length (Aliasing.arrays h)) then elems
    else Aliasing.read_array h a.
Proof.
  unfold Aliasing.read_array, Aliasing.alloc_array. simpl.
  case_decide as Ha.
  - subst. by rewrite lookup_app_r, Nat.sub_diag by lia.
  - destruct (decide (a < length (Aliasing.arrays h))%nat).
    + by rewrite lookup_app_l.
    + rewrite !lookup_ge_None_2; [done | lia |].
      rewrite length_app. simpl. lia.
Qed.

Lemma read_array_write h a elems b :
  (a < length (Aliasing.arrays h))%nat →
  Aliasing.read_array (Aliasing.write_array a elems h) b
  = if decide (b = a) then elems else Aliasing.read_array h b.
Proof.
  intros Ha. unfold Aliasing.read_array, Aliasing.write_array. simpl.
  case_decide; subst.
  - by rewrite list_lookup_insert_eq.
  - by rewrite list_lookup_insert_ne.
Qed.

(** The loop that builds [res] appends the new objects to the heap and
    their references to [res]; it touches no other array. *)
Lemma pushFullTransaction_loop s all inorder res h n :
  (res < length (Aliasing.arrays h))%nat →
  let values := omap (fullTransactionAt s all inorder) (seq 0 n) in
  let h' := foldl (Aliasing.pushFullTransaction s all inorder res) h (seq 0 n) in
  Aliasing.objects h' = Aliasing.objects h ++ values
  ∧ Aliasing.arrays h'
    = <[res := Aliasing.read_array h res
               ++ seq (length (Aliasing.objects h)) (length values)]>
        (Aliasing.arrays h).
Proof.
  intros Hres. induction n as [|n IH]; cbv zeta.
  - simpl. rewrite !app_nil_r. split; [done |].
    unfold Aliasing.read_array.
    destruct (lookup_lt_is_Some_2 (Aliasing.arrays h) res Hres) as [elems Helems].
    rewrite Helems. simpl. by rewrite list_insert_id.
  - destruct IH as [Hobjs Harrs].
    rewrite seq_S, foldl_snoc, omap_app. simpl.
    set (h' := foldl _ h (seq 0 n)) in *.
    set (values := omap _ (seq 0 n)) in *.
    unfold Aliasing.pushFullTransaction.
    destruct (fullTransactionAt s all inorder n) as [ft|]; simpl.
    + rewrite Hobjs, Harrs, <-app_assoc. split; [done |].
      rewrite list_insert_insert_eq. f_equal.
      unfold Aliasing.read_array at 1. simpl.
      rewrite list_lookup_insert_eq by done. simpl.
      rewrite <-app_assoc. f_equal.
      rewrite !length_app. simpl. by rewrite seq_app.
    + by rewrite !app_nil_r.
Qed.

Lemma length_arrays_alloc h elems :
  length (Aliasing.arrays (Aliasing.alloc_array elems h).2)
  = S (length (Aliasing.arrays h)).
Proof. simpl. rewrite length_app. simpl. lia. Qed.

(** One call of [getOrderedTransactions] in the heap: the returned array is
    new; the cache array is another array with the same elements; the arrays
    and objects that existed are as they were. *)
Lemma getOrderedTransactions_heap s h :
  Aliasing.cache_allocated h s →
  let r := (Aliasing.getOrderedTransactions s h).1.1 in
  let s1 := (Aliasing.getOrderedTransactions s h).1.2 in
  let h1 := (Aliasing.getOrderedTransactions s h).2 in
  r = length (Aliasing.arrays h)
  ∧ (length (Aliasing.arrays h) < length (Aliasing.arrays h1))%nat
  ∧ (∃ cache, _getOrderedTransactionsCache s1 = Some cache
       ∧ cache ≠ r ∧ (cache < length (Aliasing.arrays h1))%nat
       ∧ Aliasing.read_array h1 cache = Aliasing.read_array h1 r)
  ∧ (∀ a, (a < length (Aliasing.arrays h))%nat →
       Aliasing.read_array h1 a = Aliasing.read_array h a)
  ∧ (∀ o, (o < length (Aliasing.objects h))%nat →
       Aliasing.objects h1 !! o = Aliasing.objects h !! o)
  ∧ (is_Some (_getOrderedTransactionsCache s) →
       s1 = s ∧ Aliasing.objects h1 = Aliasing.objects h).
Proof.
  intros Halloc. unfold Aliasing.getOrderedTransactions.
  destruct (_getOrderedTransactionsCache s) as [cache|] eqn:Hc.
  - specialize (Halloc cache Hc). cbv zeta.
    cbn [fst snd Aliasing.alloc_array Aliasing.arrays Aliasing.objects].
    split_and!; try done.
    + rewrite length_app. simpl. lia.
    + exists cache. rewrite Hc. split_and!; [done | lia | |].
      * rewrite length_app. simpl. lia.
      * pose proof (read_array_alloc h (Aliasing.read_array h cache)) as Hr.
        simpl in Hr. rewrite !Hr. rewrite decide_False, decide_True by lia. done.
    + intros a Ha.
      pose proof (read_array_alloc h (Aliasing.read_array h cache) a) as Hr.
      simpl in Hr. rewrite Hr. by rewrite decide_False by lia.
  - destruct (groupTransfers _ _) as [all inorder]. cbv zeta.
    set (res := length (Aliasing.arrays h)).
    set (h1 := (Aliasing.alloc_array [] h).2).
    change (Aliasing.alloc_array [] h) with (res, h1). cbv iota beta.
    assert (res < length (Aliasing.arrays h1))%nat as Hres
      by (subst h1; rewrite length_arrays_alloc; lia).
    destruct (pushFullTransaction_loop s all inorder res h1
                (Z.to_nat (maxSafeIndex s inorder)) Hres) as [Hobjs Harrs].
    set (h2 := foldl _ h1 _) in *.
    set (values := omap _ _) in *.
    assert (length (Aliasing.arrays h2) = S res) as Hlen2.
    { rewrite Harrs, length_insert. subst h1. by rewrite length_arrays_alloc. }
    cbn [fst snd Aliasing.alloc_array Aliasing.arrays Aliasing.objects].
    split_and!.
    + done.
    + rewrite length_app, Hlen2. simpl. lia.
    + exists (length (Aliasing.arrays h2)). split_and!; [done | lia | |].
      * rewrite length_app. simpl. lia.
      * pose proof (read_array_alloc h2 (Aliasing.read_array h2 res)) as Hr.
        simpl in Hr. rewrite !Hr.
        rewrite decide_True by done. by rewrite decide_False by lia.
    + intros a Ha.
      pose proof (read_array_alloc h2 (Aliasing.read_array h2 res) a) as Hr.
      simpl in Hr. rewrite Hr, decide_False by lia.
      unfold Aliasing.read_array at 1. rewrite Harrs.
      rewrite list_lookup_insert_ne by (subst res; lia).
      pose proof (read_array_alloc h [] a) as Hr1. fold h1 in Hr1.
      unfold Aliasing.read_array at 1 in Hr1. rewrite Hr1.
      by rewrite decide_False by (subst res; lia).
    + intros o Ho. simpl. rewrite Hobjs. subst h1. simpl.
      by rewrite lookup_app_l.
    + by intros [? ?].
Qed.

(** With a cache, [getOrderedTransactions] copies the cache array. *)
Lemma getOrderedTransactions_cached s h cache :
  _getOrderedTransactionsCache s = Some cache →
  Aliasing.getOrderedTransactions s h
  = (length (Aliasing.arrays h), s,
     (Aliasing.alloc_array (Aliasing.read_array h cache) h).2).
Proof. intros Hc. unfold Aliasing.getOrderedTransactions. by rewrite Hc. Qed.

(** C7 (amended). Two calls of [getOrderedTransactions()] with no
    [loadMore()] in between, the caller changing the first returned array at
    will in the meantime (assigning indices, pushing, popping, truncating):
    the second call returns an array that reads, element for element, as the
    first one did when it was returned; the two returned arrays and the
    cache array are three different arrays; the caller's change leaves the
    cache array as it was, and the manager's fields are the same after the
    second call; changing the second returned array does not change the
    first. (The Full Transaction objects themselves are the same objects in
    all three arrays.) *)
Theorem getOrderedTransactions_snapshot s h elems :
  Aliasing.cache_allocated h s →
  let first := Aliasing.getOrderedTransactions s h in
  let r1 := first.1.1 in
  let s1 := first.1.2 in
  let h1 := first.2 in
  let h1' := Aliasing.write_array r1 elems h1 in
  let second := Aliasing.getOrderedTransactions s1 h1' in
  let r2 := second.1.1 in
  let s2 := second.1.2 in
  let h2 := second.2 in
  Aliasing.view h2 r2 = Aliasing.view h1 r1
  ∧ r2 ≠ r1
  ∧ _getOrderedTransactionsCache s1 ≠ Some r1
  ∧ _getOrderedTransactionsCache s2 ≠ Some r2
  ∧ s2 = s1
  ∧ (∀ cache, _getOrderedTransactionsCache s1 = Some cache →
       Aliasing.read_array h1' cache = Aliasing.read_array h1 cache
       ∧ Aliasing.view h1' cache = Aliasing.view h1 cache)
  ∧ Aliasing.read_array h2 r1 = elems
  ∧ (∀ elems', Aliasing.read_array (Aliasing.write_array r2 elems' h2) r1 = elems).
Proof.
  intros Halloc.
  pose proof (getOrderedTransactions_heap s h Halloc)
    as (Hr1 & Hlen & (cache & Hc & Hne & Hclt & Hshare) & _).
  cbv zeta.
  set (r1 := (Aliasing.getOrderedTransactions s h).1.1) in *.
  set (s1 := (Aliasing.getOrderedTransactions s h).1.2) in *.
  set (h1 := (Aliasing.getOrderedTransactions s h).2) in *.
  assert (r1 < length (Aliasing.arrays h1))%nat as Hr1lt by lia.
  set (h1' := Aliasing.write_array r1 elems h1).
  assert (length (Aliasing.arrays h1') = length (Aliasing.arrays h1)) as Hlen'
    by (subst h1'; simpl; apply length_insert).
  assert (Aliasing.read_array h1' cache = Aliasing.read_array h1 cache) as Hcache.
  { subst h1'. rewrite read_array_write by done. by rewrite decide_False. }
  rewrite (getOrderedTransactions_cached s1 h1' cache Hc).
  cbn [fst snd]. rewrite Hlen'.
  set (h2 := (Aliasing.alloc_array _ h1').2).
  assert (∀ a, Aliasing.read_array h2 a
               = if decide (a = length (Aliasing.arrays h1))
                 then Aliasing.read_array h1 cache
                 else Aliasing.read_array h1' a) as Hread2.
  { intros a. subst h2. by rewrite read_array_alloc, Hlen', Hcache. }
  assert (Aliasing.read_array h2 r1 = elems) as Hfirst.
  { rewrite Hread2, decide_False by lia. subst h1'.
    rewrite read_array_write by done. by rewrite decide_True. }
  split_and!.
  - unfold Aliasing.view. rewrite Hread2, decide_True by done.
    by rewrite Hshare.
  - lia.
  - rewrite Hc. intros [= ->]. done.
  - rewrite Hc. intros [= ->]. lia.
  - done.
  - intros cache' Hc'. rewrite Hc in Hc'. injection Hc' as <-.
    split; [done |]. unfold Aliasing.view. by rewrite Hcache.
  - done.
  - intros elems'. rewrite read_array_write.
    + by rewrite decide_False by lia.
    + subst h2. rewrite length_arrays_alloc, Hlen'. lia.
Qed.

(** *** The heap model and the value model agree *)

Lemma mapM_Some_fmap {A B} (f : A → option B) (l : list A) (k : list B) :
  mapM f l = Some k ↔ f <$> l = Some <$> k.
Proof.
  rewrite mapM_Some. split.
  - induction 1 as [|x y l k Hxy _ IH]; [done |].
    by rewrite !fmap_cons, Hxy, IH.
  - revert k. induction l as [|x l IH]; intros [|y k] Heq; try done.
    rewrite !fmap_cons in Heq. injection Heq as Hxy Heq.
    constructor; [done | by apply IH].
Qed.

Lemma lookup_appended {A} (l values : list A) :
  (λ o, (l ++ values) !! o) <$> seq (length l) (length values) = Some <$> values.
Proof.
  apply list_eq. intros i. rewrite !list_lookup_fmap.
  destruct (decide (i < length values)%nat) as [Hi|Hi].
  - rewrite lookup_seq_lt by done. simpl.
    rewrite lookup_app_r by lia.
    replace (length l + i - length l)%nat with i by lia.
    by destruct (lookup_lt_is_Some_2 values i Hi) as [v ->].
  - rewrite lookup_seq_ge, lookup_ge_None_2 by lia. done.
Qed.

(** The value-level [getOrderedTransactions] is what the heap-level one
    does, read through: the returned array reads as the value-level result,
    and the manager after the call reads as the value-level manager after the
    call. *)
Lemma getOrderedTransactions_refines s h sv :
  Aliasing.cache_allocated h s →
  Aliasing.abstract h s = Some sv →
  let r := (Aliasing.getOrderedTransactions s h).1.1 in
  let s1 := (Aliasing.getOrderedTransactions s h).1.2 in
  let h1 := (Aliasing.getOrderedTransactions s h).2 in
  Aliasing.view h1 r = Some <$> (getOrderedTransactions sv).1
  ∧ Aliasing.abstract h1 s1 = Some (getOrderedTransactions sv).2.
Proof.
  intros Halloc Habs. unfold Aliasing.abstract in Habs.
  destruct (_getOrderedTransactionsCache s) as [cache|] eqn:Hc.
  - destruct (mapM _ _) as [contents|] eqn:Hm; [|done].
    injection Habs as <-. cbv zeta.
    rewrite (getOrderedTransactions_cached s h cache Hc). cbn [fst snd].
    apply mapM_Some_fmap in Hm.
    unfold getOrderedTransactions. cbn [_getOrderedTransactionsCache set_ordering fst snd].
    assert (∀ a, (a ≤ length (Aliasing.arrays h))%nat →
              Aliasing.view (Aliasing.alloc_array (Aliasing.read_array h cache) h).2 a
              = if decide (a = length (Aliasing.arrays h))
                then Some <$> contents
                else (λ o, Aliasing.objects h !! o) <$> Aliasing.read_array h a)
      as Hview.
    { intros a Ha. unfold Aliasing.view. rewrite read_array_alloc.
      case_decide; [exact Hm | done]. }
    split.
    + by rewrite Hview, decide_True.
    + unfold Aliasing.abstract. rewrite Hc.
      specialize (Halloc cache Hc).
      rewrite read_array_alloc, decide_False by lia.
      apply mapM_Some_fmap in Hm. cbn [Aliasing.alloc_array snd Aliasing.objects].
      rewrite Hm. done.
  - injection Habs as <-. cbv zeta.
    unfold Aliasing.getOrderedTransactions, getOrderedTransactions. rewrite Hc.
    cbn [_getOrderedTransactionsCache set_ordering _transactionQueue
         _allTransactions _inorderTransactionHashes].
    destruct (groupTransfers _ _) as [all inorder]. cbv zeta.
    set (res := length (Aliasing.arrays h)).
    set (h1 := (Aliasing.alloc_array [] h).2).
    change (Aliasing.alloc_array [] h) with (res, h1). cbv iota beta.
    assert (res < length (Aliasing.arrays h1))%nat as Hres
      by (subst h1; rewrite length_arrays_alloc; lia).
    destruct (pushFullTransaction_loop s all inorder res h1
                (Z.to_nat (maxSafeIndex s inorder)) Hres) as [Hobjs Harrs].
    set (h2 := foldl _ h1 _) in *.
    fold (buildResult s all inorder (maxSafeIndex s inorder)) in Hobjs, Harrs.
    set (values := buildResult s all inorder (maxSafeIndex s inorder)) in *.
    assert (Aliasing.read_array h2 res
            = seq (length (Aliasing.objects h)) (length values)) as Hread.
    { unfold Aliasing.read_array at 1. rewrite Harrs.
      rewrite list_lookup_insert_eq by done. simpl.
      pose proof (read_array_alloc h [] res) as Hr. fold h1 in Hr.
      rewrite Hr. by rewrite decide_True. }
    assert (Aliasing.objects h2 = Aliasing.objects h ++ values) as Hobjs'
      by (by rewrite Hobjs).
    assert (length (Aliasing.arrays h2) = S res) as Hlen2.
    { rewrite Harrs, length_insert. subst h1. by rewrite length_arrays_alloc. }
    set (h3 := (Aliasing.alloc_array (Aliasing.read_array h2 res) h2).2).
    change (Aliasing.alloc_array (Aliasing.read_array h2 res) h2)
      with (length (Aliasing.arrays h2), h3).
    cbn [fst snd].
    change (buildResult (set_ordering (_allTransactions s)
              (_inorderTransactionHashes s) None s) all inorder
              (maxSafeIndex (set_ordering (_allTransactions s)
                 (_inorderTransactionHashes s) None s) inorder)) with values.
    assert (Aliasing.objects h3 = Aliasing.objects h ++ values) as Hobjs3
      by (by subst h3).
    split.
    + unfold Aliasing.view. subst h3.
      rewrite read_array_alloc, decide_False by lia.
      rewrite Hobjs3, Hread. apply lookup_appended.
    + unfold Aliasing.abstract.
      cbn [_getOrderedTransactionsCache set_ordering].
      subst h3. rewrite read_array_alloc, decide_True by done.
      rewrite Hobjs3, Hread.
      rewrite (proj2 (mapM_Some_fmap _ _ values) (lookup_appended _ values)).
      done.
Qed.

End AliasingFacts.


(* ===================================================================== *)
(** * Further properties of the manager *)
(* ===================================================================== *)

(** ** The comparator as an order *)

(** X2. Swapping the two transfers negates the comparator: when it returns
    for [(tx1, tx2)] it returns the opposite number for [(tx2, tx1)], the
    number being -1, 0 or 1, and 0 exactly when the two timestamps are the
    same instant; it throws for [(tx1, tx2)] exactly when it throws for
    [(tx2, tx1)]. *)
Theorem transactionSortKey_swap tx1 tx2 :
  match _transactionSortKey tx1 tx2, _transactionSortKey tx2 tx1 with
  | Return c, Return c' =>
      c' = - c ∧ (c = -1 ∨ c = 0 ∨ c = 1)
      ∧ (c = 0 ↔ timestamp tx1 = timestamp tx2)
  | Throw _, Throw _ => True
  | _, _ => False
  end.
Proof.
  unfold _transactionSortKey, timestamp.
  destruct (blockTimestamp tx1) as [|[t1|]], (blockTimestamp tx2) as [|[t2|]];
    try done.
  destruct (Z.gtb_spec t1 t2), (Z.ltb_spec t1 t2),
    (Z.gtb_spec t2 t1), (Z.ltb_spec t2 t1); try lia.
  - split_and!; [done | by left |]. split; [done | intros [=]; lia].
  - split_and!; [done | right; by right |]. split; [done | intros [=]; lia].
  - split_and!; [done | right; by left |]. split; [intros _; f_equal; lia | done].
Qed.

(** X3. On the transfers whose timestamp is a valid date, "the comparator
    returns and does not put the second first" is a total preorder:
    reflexive, transitive, and any two such transfers are comparable one way
    or the other. It relates no transfer whose timestamp is missing or
    invalid. *)
Theorem precedes_total_preorder :
  (∀ a, is_Some (timestamp a) → precedes a a)
  ∧ (∀ a b c, precedes a b → precedes b c → precedes a c)
  ∧ (∀ a b, is_Some (timestamp a) → is_Some (timestamp b) →
       precedes a b ∨ precedes b a)
  ∧ (∀ a b, precedes a b → is_Some (timestamp a) ∧ is_Some (timestamp b)).
Proof.
  split_and!.
  - intros a [t Ht]. apply precedes_timestamp. exists t, t. by split_and!.
  - apply precedes_trans.
  - intros a b [ta Ha] [tb Hb]. rewrite !precedes_timestamp.
    destruct (Z.le_ge_cases ta tb).
    + right. exists tb, ta. by split_and!.
    + left. exists ta, tb. by split_and!.
  - intros a b (ta & tb & Ha & Hb & _)%precedes_timestamp.
    rewrite Ha, Hb. by split.
Qed.

(** ** Calling again, and what a call leaves alone *)

Section ManagerFacts.
Context `{PQ : PriorityQueueImpl} {PQS : PriorityQueueSpec}
        `{FT : FullTransactionFormatter}.
Implicit Types s : TransactionManager (list FullTransaction).


(** X11. The configuration of a manager is fixed at construction:
    [loadMore()], however it ends, and [getOrderedTransactions()] leave the
    network, the wallet address, the contract address and [_pageSize] as
    they are. *)
Theorem configuration_immutable R s :
  let s1 := (loadMore R s).1.2 in
  let s2 := (getOrderedTransactions s).2 in
  (_network s1 = _network s
   ∧ _walletAddress s1 = _walletAddress s
   ∧ _tandapayContractAddress s1 = _tandapayContractAddress s
   ∧ _pageSize s1 = _pageSize s)
  ∧ (_network s2 = _network s
     ∧ _walletAddress s2 = _walletAddress s
     ∧ _tandapayContractAddress s2 = _tandapayContractAddress s
     ∧ _pageSize s2 = _pageSize s).
Proof.
  cbv zeta. split.
  - destruct (loadMore R s) as [[r s'] calls] eqn:H. cbn [fst snd].
    loadMore_exits H; by simplify_eq.
  - unfold getOrderedTransactions.
    destruct (_getOrderedTransactionsCache s); [done |].
    by destruct (groupTransfers _ _).
Qed.

(** X1. A manager is only ever constructed for a non-empty network and a
    non-empty wallet address that [isAddress] accepts. As constructed it
    returns no transaction, is not at the last page, and its first
    [loadMore()], when the remote source is available, asks for the first
    page (no page key) of the incoming and of the outgoing feed of its
    wallet, with [maxCount] twice the requested page size (20 when none was
    requested). *)
Theorem constructor_fresh isAddress params s R :
  constructor isAddress params = Return s →
  let pageRequest toAddress fromAddress :=
    {| fromBlock := "0x0"; toBlock := "latest";
       categories := ["external"; "erc20"]%string;
       withMetadata := true; excludeZeroValue := false; order := "desc";
       maxCount := 2 * default 10 (param_pageSize params);
       toAddress := toAddress; fromAddress := fromAddress;
       pageKey := None |} in
  (param_network params ≠ ""%string
   ∧ param_walletAddress params ≠ ""%string
   ∧ isAddress (param_walletAddress params) = true)
  ∧ (getOrderedTransactions s).1 = []
  ∧ isAtLastPage s = false
  ∧ (isAlchemyAvailableForNetwork R (param_network params) = Return true →
     assetTransferCalls (loadMore R s).2
     = [pageRequest (Some (param_walletAddress params)) None;
        pageRequest None (Some (param_walletAddress params))]).
Proof.
  unfold constructor. intros Hnew. cbv zeta.
  destruct (String.eqb (param_network params) "") eqn:Hnet; [done |].
  destruct (String.eqb (param_walletAddress params) "") eqn:Hwallet; [done |].
  destruct (isAddress (param_walletAddress params)) eqn:Haddr; [|done].
  simpl in Hnew. injection Hnew as <-.
  apply String.eqb_neq in Hnet, Hwallet.
  split_and!; try done.
  - unfold getOrderedTransactions. simpl. rewrite pq_new_toArray. done.
  - intros Hav.
    destruct (loadMore R _) as [[r s'] calls] eqn:Hload. cbn [snd].
    apply loadMore_calls in Hload as (tail & -> & Htail); [|done..].
    unfold assetTransferCalls in *. rewrite !omap_app, Htail. simpl.
    unfold incomingParams, outgoingParams. simpl.
    by rewrite (Z.mul_comm (default 10 (param_pageSize params)) 2).
Qed.

End ManagerFacts.

(** ** The exits of [loadMore] *)

Section LoadMoreExits.
Context `{PQ : PriorityQueueImpl} {PQS : PriorityQueueSpec}
        `{FT : FullTransactionFormatter} {Cache : Type}.
Implicit Types s : TransactionManager Cache.

(** X5. When the remote source reports that it is not available for the
    network, a [loadMore()] that finds the lock free resolves after that one
    call and leaves the manager exactly as it was. *)
Theorem loadMore_remote_unavailable R s :
  _lock s = false →
  isAlchemyAvailableForNetwork R (_network s) = Return false →
  loadMore R s = (Return (), s, [CallIsAlchemyAvailable (_network s)]).
Proof.
  intros Hfree Hav. rewrite loadMore_unfold, Hfree. cbv zeta.
  by rewrite Hav, set_lock_restore.
Qed.

(** X6. When the availability check itself rejects, a [loadMore()] that
    finds the lock free rejects with that very error (it is not wrapped),
    having made that one call and changed nothing but the lock, which stays
    taken: every later [loadMore()] on that manager returns at once, without
    a call and without a change. *)
Theorem loadMore_availability_rejects R s e :
  _lock s = false →
  isAlchemyAvailableForNetwork R (_network s) = Throw e →
  loadMore R s
  = (Throw e, set_lock true s, [CallIsAlchemyAvailable (_network s)])
  ∧ ∀ R', loadMore R' (set_lock true s) = (Return (), set_lock true s, []).
Proof.
  intros Hfree Hav. split.
  - rewrite loadMore_unfold, Hfree. cbv zeta. by rewrite Hav.
  - intros R'. by rewrite loadMore_unfold.
Qed.

(** X7. A [loadMore()] that rejects has not counted a page, has not
    dropped the ordering caches and has not changed the signed details. It
    leaves the lock free exactly when it leaves the manager as it was, and
    then the error wraps the rejection of a page fetch. *)
Theorem loadMore_rejected R s e s' calls :
  loadMore R s = (Throw e, s', calls) →
  _pagesLoaded s' = _pagesLoaded s
  ∧ _getOrderedTransactionsCache s' = _getOrderedTransactionsCache s
  ∧ _allTransactions s' = _allTransactions s
  ∧ _inorderTransactionHashes s' = _inorderTransactionHashes s
  ∧ _allSignedTransactions s' = _allSignedTransactions s
  ∧ (_lock s' = false ↔ s' = s)
  ∧ (s' = s →
     ∃ cause, e = fetchError cause
              ∧ (incomingRejects R s cause ∨ outgoingRejects R s cause)).
Proof.
  intros H.
  assert (∀ t : TransactionManager Cache,
            _lock s = false → _lock t = true → t ≠ s) as Hne
    by (intros t ? Ht ->; congruence).
  loadMore_exits H; simplify_eq; simpl.
  all: try (split_and!; try done;
            [ split; [done | intros Heq; by eapply Hne in Heq]
            | intros Heq; by eapply Hne in Heq ]).
  - rewrite set_lock_restore by done. split_and!; try done.
    intros _. eexists. split; [done |]. right. by apply pagePromise_Throw.
  - rewrite set_lock_restore by done. split_and!; try done.
    intros _. eexists. split; [done |]. left. by apply pagePromise_Throw.
Qed.

(** X8. A [loadMore()] that finds the lock free and the remote available,
    and resolves: the queue then holds what it held and every fetched
    transfer, as often as it was fetched (a transfer that both feeds return
    is queued twice); [_pagesLoaded] is one more; the ordering caches are
    dropped; the lock is free; each cursor is the page key of its feed's
    answer ([null] for a feed that was not fetched). *)
Theorem loadMore_resolved R s s' calls :
  pq_wf (_transactionQueue s) →
  _lock s = false →
  isAlchemyAvailableForNetwork R (_network s) = Return true →
  loadMore R s = (Return (), s', calls) →
  pq_toArray (_transactionQueue s')
    ≡ₚ fetchedTransfers R calls ++ pq_toArray (_transactionQueue s)
  ∧ _pagesLoaded s' = _pagesLoaded s + 1
  ∧ _getOrderedTransactionsCache s' = None
  ∧ _allTransactions s' = ∅
  ∧ _inorderTransactionHashes s' = []
  ∧ _lock s' = false
  ∧ (∀ response,
       pagePromise R (_network s) (_nextIncomingPage s) (incomingParams s)
       = Return response → _nextIncomingPage s' = resp_pageKey response)
  ∧ (∀ response,
       pagePromise R (_network s) (_nextOutgoingPage s) (outgoingParams s)
       = Return response → _nextOutgoingPage s' = resp_pageKey response).
Proof.
  intros Hwf Hfree Hav H.
  loadMore_exits H; simplify_eq; try congruence.
  all: rewrite !fetchedTransfers_app,
      (fetchedTransfers_pageCalls _ _ _ _ _ Hincoming),
      (fetchedTransfers_pageCalls _ _ _ _ _ Houtgoing);
    change (fetchedTransfers R [_]) with (@nil Transfer);
    change (fetchedTransfers R []) with (@nil Transfer);
    rewrite app_nil_l, app_nil_r; simpl;
    destruct (enqueueAll_Return _ _ _ Hwf Henq1) as [Hwf1 Hperm1];
    destruct (enqueueAll_Return _ _ _ Hwf1 Henq2) as [Hwf2 Hperm2];
    split_and!; try done; try (intros ? ?; congruence).
  all: rewrite Hperm2, Hperm1, !app_assoc; apply Permutation_app_tail,
    Permutation_app_comm.
Qed.

(** X10. One [loadMore()] makes at most four remote calls, whatever
    happens: none when the lock is taken; otherwise the availability check
    first, then at most one page fetch for each feed and at most one batch
    fetch of signed details. *)
Theorem loadMore_call_budget R s :
  let calls := (loadMore R s).2 in
  (length calls ≤ 4)%nat
  ∧ (length (incomingFetches calls) ≤ 1)%nat
  ∧ (length (outgoingFetches calls) ≤ 1)%nat
  ∧ (length (batchCalls calls) ≤ 1)%nat
  ∧ (_lock s = true → calls = [])
  ∧ (_lock s = false → head calls = Some (CallIsAlchemyAvailable (_network s))).
Proof.
  cbv zeta. destruct (loadMore R s) as [[r s'] calls] eqn:H. cbn [snd].
  loadMore_exits H; simplify_eq;
    unfold incomingFetches, outgoingFetches, batchCalls, assetTransferCalls,
      pageCalls;
    repeat case_bool_decide; simpl;
    rewrite ?filter_cons, ?filter_nil; repeat case_decide; simpl;
    (split_and!; try done; try lia; try (intros; congruence)).
Qed.

(** X12. [_populateSignedTransactions]: with no non-empty hash in its
    input it returns without a remote call and without a change; with some
    non-empty hash it makes the batch fetch even when every such hash already
    has its details, the list of hashes asked for being empty then. *)
Theorem populateSignedTransactions_requests R inputHashes s :
  let wanted := filter (λ h : string, h ≠ ""%string) inputHashes in
  (wanted = [] →
   _populateSignedTransactions R inputHashes s = (Return (), s, []))
  ∧ (wanted ≠ [] →
     Forall (λ h, is_Some (_allSignedTransactions s !! JsStr h)) wanted →
     (_populateSignedTransactions R inputHashes s).2
     = [CallGetBatchTransactionsByHash (_network s) []]).
Proof.
  cbv zeta. rewrite populate_eq. cbv zeta. split.
  - intros ->. done.
  - intros Hne Hall. rewrite bool_decide_false.
    2:{ intros Hlen. by apply nil_length_inv in Hlen. }
    assert (∀ l : list string,
              Forall (λ h, is_Some (_allSignedTransactions s !! JsStr h)) l →
              filter (λ h : string, _allSignedTransactions s !! JsStr h = None) l
              = []) as Hnil.
    { induction 1 as [|h l [d Hd] _ IH]; [done |].
      rewrite filter_cons. destruct (decide _); [congruence | done]. }
    rewrite (Hnil _ Hall).
    by destruct (getBatchTransactionsByHashForNetwork _ _ _).
Qed.

Lemma storeDetails_lookup details (m : gmap JsString SignedTransaction) h :
  storeDetails details m !! h
  = match last (detailsFor h details) with
    | Some d => Some d
    | None => m !! h
    end.
Proof.
  unfold detailsFor.
  induction details as [|detail details IH] using rev_ind; [done |].
  unfold storeDetails in *. rewrite foldl_snoc, omap_app, filter_app.
  destruct detail as [d|]; simpl.
  - rewrite filter_cons, filter_nil.
    destruct (truthy (signed_hash d)) eqn:Ht.
    + destruct (decide (signed_hash d = h)) as [Heq|Hne].
      * rewrite decide_True by done. rewrite last_snoc.
        rewrite <-Heq. by rewrite lookup_insert_eq.
      * rewrite decide_False by (by intros []). rewrite app_nil_r.
        by rewrite lookup_insert_ne.
    + rewrite decide_False by (by intros []). by rewrite app_nil_r.
  - by rewrite filter_nil, app_nil_r.
Qed.

(** X13. When the batch fetch resolves, the signed details kept for a
    hash are the last entry of the answer with that hash, whether or not the
    hash was asked for or had details before; without such an entry they are
    what they were. Entries that are [null] or whose hash is missing or
    empty are ignored. *)
Theorem populateSignedTransactions_stores R inputHashes s details :
  let wanted := filter (λ h : string, h ≠ ""%string) inputHashes in
  wanted ≠ [] →
  getBatchTransactionsByHashForNetwork R (_network s)
    (filter (λ h : string, _allSignedTransactions s !! JsStr h = None) wanted)
  = Return details →
  let s' := (_populateSignedTransactions R inputHashes s).1.2 in
  ∀ h, _allSignedTransactions s' !! h
       = match last (detailsFor h details) with
         | Some d => Some d
         | None => _allSignedTransactions s !! h
         end.
Proof.
  cbv zeta. intros Hne Hbatch h. rewrite populate_eq. cbv zeta.
  rewrite bool_decide_false.
  2:{ intros Hlen. by apply nil_length_inv in Hlen. }
  rewrite Hbatch. cbn [fst snd]. apply storeDetails_lookup.
Qed.

End LoadMoreExits.

(** ** Reachable states *)

Section ReachableFacts.
Context `{PQ : PriorityQueueImpl} {PQS : PriorityQueueSpec}
        `{FT : FullTransactionFormatter}.
Implicit Types s : TransactionManager (list FullTransaction).

Lemma isAtLastPage_true {Cache} (s : TransactionManager Cache) :
  isAtLastPage s = true ↔ _nextIncomingPage s = JsNull ∧ _nextOutgoingPage s = JsNull.
Proof.
  unfold isAtLastPage. rewrite andb_true_iff, !bool_decide_eq_true. done.
Qed.

(** X9. At the last page a [loadMore()] (remote available) fetches no
    page and no details: its only call is the availability check. It still
    counts a page and drops the ordering caches, and
    [getOrderedTransactions()] returns afterwards what it returned before. *)
Theorem loadMore_at_last_page R s :
  reachable s → isAtLastPage s = true →
  isAlchemyAvailableForNetwork R (_network s) = Return true →
  let s' := _dropGetOrderedTransactionsCache
              (set_pagesLoaded (_pagesLoaded s + 1) s) in
  loadMore R s = (Return (), s', [CallIsAlchemyAvailable (_network s)])
  ∧ (getOrderedTransactions s').1 = (getOrderedTransactions s).1.
Proof.
  intros Hs%reachable_coherent [Hin Hout]%isAtLastPage_true Hav. cbv zeta.
  assert (loadMore R s
          = (Return (),
             _dropGetOrderedTransactionsCache
               (set_pagesLoaded (_pagesLoaded s + 1) s),
             [CallIsAlchemyAvailable (_network s)])) as Hload.
  { destruct Hs as (_ & Hfree & _).
    rewrite loadMore_unfold, Hfree. cbv zeta. rewrite Hav.
    unfold pagePromise, pageCalls. rewrite Hin, Hout.
    rewrite !bool_decide_false by naive_solver. cbn [resp_transfers resp_pageKey].
    rewrite mergeFetched_eq. cbn [enqueueAll app].
    rewrite populate_eq. cbv zeta.
    change (hashesOf []) with (@nil string). rewrite filter_nil.
    rewrite bool_decide_true by done.
    destruct s; simpl in *; by subst. }
  split; [done |].
  pose proof (loadMore_coherent R s _ _ Hs Hload) as Hs'.
  rewrite (getOrderedTransactions_coherent_eq _ Hs'),
    (getOrderedTransactions_coherent_eq _ Hs).
  cbn [fst]. unfold maxSafeIndex, isAtLastPage. simpl. by rewrite Hin, Hout.
Qed.

(** The signed details are stored under their own hash. *)
Lemma storeDetails_keyed details (m : gmap JsString SignedTransaction) :
  (∀ h d, m !! h = Some d → signed_hash d = h ∧ ¬ missing_hash h) →
  ∀ h d, storeDetails details m !! h = Some d →
         signed_hash d = h ∧ ¬ missing_hash h.
Proof.
  revert m. induction details as [|detail details IH]; intros m Hm; [done |].
  simpl. apply IH. destruct detail as [d'|]; [|done].
  destruct (truthy (signed_hash d')) eqn:Ht; [|done].
  intros h d. destruct (decide (signed_hash d' = h)) as [<-|Hne].
  - rewrite lookup_insert_eq. intros [= <-]. split; [done |].
    unfold missing_hash. destruct (signed_hash d') as [| |k]; simpl in Ht;
      try done.
    intros [?|[?|[= ->]]]; done.
  - rewrite lookup_insert_ne by done. apply Hm.
Qed.

Lemma loadMore_signed_keyed {Cache} R (s s' : TransactionManager Cache) r calls :
  (∀ h d, _allSignedTransactions s !! h = Some d →
          signed_hash d = h ∧ ¬ missing_hash h) →
  loadMore R s = (r, s', calls) →
  ∀ h d, _allSignedTransactions s' !! h = Some d →
         signed_hash d = h ∧ ¬ missing_hash h.
Proof.
  intros Hm H. loadMore_exits H; simplify_eq; simpl; try done.
  by apply storeDetails_keyed.
Qed.

Lemma getOrderedTransactions_signed s :
  _allSignedTransactions (getOrderedTransactions s).2 = _allSignedTransactions s.
Proof.
  unfold getOrderedTransactions.
  destruct (_getOrderedTransactionsCache s); [done |].
  by destruct (groupTransfers _ _).
Qed.

Lemma reachable_signed_keyed s :
  reachable s →
  ∀ h d, _allSignedTransactions s !! h = Some d →
         signed_hash d = h ∧ ¬ missing_hash h.
Proof.
  induction 1 as [isAddress params s Hnew|R s s' calls _ IH Hload|s _ IH].
  - unfold constructor in Hnew. repeat case_match; try done.
    injection Hnew as <-. simpl. intros h d. by rewrite lookup_empty.
  - by eapply loadMore_signed_keyed.
  - by rewrite getOrderedTransactions_signed.
Qed.

(** X14. In every reachable state each entry of the signed-details map
    is stored under its own hash, which is a non-empty string; so the signed
    details that [getOrderedTransactions()] hands to [toFullTransaction]
    with a group of transfers carry the hash of that group. *)
Theorem signed_details_keyed s :
  reachable s →
  (∀ h d, _allSignedTransactions s !! h = Some d →
          signed_hash d = h ∧ ¬ missing_hash h)
  ∧ (∀ a d, a ∈ resultParams (getOrderedTransactions s).2 →
            signedTransaction a = Some d →
            args_hash a = Some (signed_hash d)).
Proof.
  intros Hs. pose proof (reachable_signed_keyed s Hs) as Hkeyed.
  split; [done |].
  pose proof (getOrderedTransactions_params s (reachable_coherent s Hs))
    as (_ & _ & _ & _ & Hg).
  cbv zeta in Hg. intros a d. unfold resultParams.
  intros (h & -> & Hh%elem_of_take_list)%list_elem_of_fmap. simpl.
  rewrite getOrderedTransactions_signed. intros [<- _]%Hkeyed.
  apply args_hash_paramsOf. by apply Hg.
Qed.

Lemma filter_all {A} (P : A → Prop) `{∀ x, Decision (P x)} (l : list A) :
  Forall P l → filter P l = l.
Proof.
  induction 1 as [|x l Hx _ IH]; [done |].
  by rewrite filter_cons, decide_True, IH.
Qed.

Lemma groupOf_split h hs (l : list Transfer) :
  h ∉ hs →
  groupOf h l ++ filter (λ tx, hash tx ∈ hs) l
  ≡ₚ filter (λ tx, hash tx ∈ h :: hs) l.
Proof.
  intros Hh. unfold groupOf. induction l as [|tx l IH]; [done |].
  rewrite !filter_cons.
  destruct (decide (hash tx = h)) as [Heq|Hne].
  - rewrite decide_False by (by rewrite Heq).
    rewrite decide_True by (rewrite Heq; left). simpl. by rewrite IH.
  - destruct (decide (hash tx ∈ hs)) as [Hin|Hnin].
    + rewrite decide_True by (by right).
      by rewrite <-Permutation_middle, IH.
    + rewrite decide_False; [done |]. by intros [?|?]%elem_of_cons.
Qed.

Lemma concat_groups hs (l : list Transfer) :
  NoDup hs →
  concat ((λ h, groupOf h l) <$> hs) ≡ₚ filter (λ tx, hash tx ∈ hs) l.
Proof.
  induction 1 as [|h hs Hh _ IH]; simpl.
  - induction l as [|tx l IHl]; [done |].
    rewrite filter_cons, decide_False; [done |]. apply not_elem_of_nil.
  - by rewrite IH, groupOf_split.
Qed.

(** X15. At the last page nothing is held back: the transfers of the
    returned Full Transactions are, together, the transfers of the queue,
    each in one Full Transaction, and there are as many Full Transactions as
    there are different hashes among the queued transfers. *)
Theorem last_page_complete s :
  reachable s → isAtLastPage s = true →
  let queued := pq_toArray (_transactionQueue s) in
  concat (transfers <$> resultParams (getOrderedTransactions s).2) ≡ₚ queued
  ∧ length (getOrderedTransactions s).1
    = length (remove_dups (hash <$> queued)).
Proof.
  intros Hs%reachable_coherent Hlast. cbv zeta.
  pose proof (getOrderedTransactions_params s Hs) as (Hres & _ & _ & _ & Hg).
  pose proof (getOrderedTransactions_state s Hs)
    as (_ & Hq & Hin & Hout & _).
  cbv zeta in *. rewrite Hres, length_fmap. unfold resultParams.
  set (s' := (getOrderedTransactions s).2) in *.
  assert (maxSafeIndex s' (_inorderTransactionHashes s')
          = Z.of_nat (length (_inorderTransactionHashes s'))) as ->.
  { unfold maxSafeIndex, isAtLastPage in *. by rewrite Hin, Hout, Hlast. }
  rewrite Nat2Z.id, firstn_all, Hq in *.
  set (l := pq_toArray (_transactionQueue s)) in *.
  split.
  - rewrite <-list_fmap_compose.
    change (transfers ∘ paramsOf s' l) with (λ h, groupOf h l).
    rewrite concat_groups by apply Hg.
    rewrite filter_all; [done |]. apply Forall_forall. intros tx Htx.
    apply Hg, groupOf_nonempty, list_elem_of_fmap. by exists tx.
  - rewrite length_fmap. apply Permutation_length, NoDup_Permutation.
    + apply Hg.
    + apply NoDup_remove_dups.
    + intros h. rewrite elem_of_remove_dups, <-groupOf_nonempty. apply Hg.
Qed.

(** A [loadMore()] that resolves either changes nothing or counts a page
    and adds to the queue. *)
Lemma loadMore_Return_cases {Cache} R (s s' : TransactionManager Cache) calls :
  pq_wf (_transactionQueue s) → _lock s = false →
  loadMore R s = (Return (), s', calls) →
  s' = s
  ∨ (_pagesLoaded s' = _pagesLoaded s + 1
     ∧ _pageSize s' = _pageSize s
     ∧ ∃ fetched,
         pq_toArray (_transactionQueue s')
         ≡ₚ fetched ++ pq_toArray (_transactionQueue s)).
Proof.
  intros Hwf Hfree H. loadMore_exits H; simplify_eq; try congruence.
  3: { left. by rewrite set_lock_restore. }
  all: right; simpl;
    destruct (enqueueAll_Return _ _ _ Hwf Henq1) as [Hwf1 Hperm1];
    destruct (enqueueAll_Return _ _ _ Hwf1 Henq2) as [Hwf2 Hperm2];
    split_and!; try done;
    eexists; rewrite Hperm2, Hperm1, app_assoc; done.
Qed.

Lemma reachable_pagesLoaded s : reachable s → 0 ≤ _pagesLoaded s.
Proof.
  induction 1 as [isAddress params s Hnew|R s s' calls Hs IH Hload|s Hs IH].
  - unfold constructor in Hnew. repeat case_match; try done.
    by injection Hnew as <-.
  - apply reachable_coherent in Hs as (Hwf & Hfree & _).
    destruct (loadMore_Return_cases R s s' calls Hwf Hfree Hload)
      as [->|(-> & _)]; lia.
  - by destruct (getOrderedTransactions_state s (reachable_coherent s Hs))
      as (_ & _ & _ & _ & -> & _).
Qed.

(** The ordered hash list has one entry for each hash in the queue. *)
Lemma inorder_length (l : list Transfer) :
  StronglySorted precedes l →
  length (groupTransfers l (∅, [])).2 = length (remove_dups (hash <$> l)).
Proof.
  intros Hg%(groupTransfers_grouped precedes).
  apply Permutation_length, NoDup_Permutation.
  - apply Hg.
  - apply NoDup_remove_dups.
  - intros h. rewrite elem_of_remove_dups, <-groupOf_nonempty. apply Hg.
Qed.

Lemma getOrderedTransactions_length s :
  coherent s →
  length (getOrderedTransactions s).1
  = Z.to_nat (maxSafeIndex s
                (groupTransfers (pq_toArray (_transactionQueue s)) (∅, [])).2).
Proof.
  intros Hs. rewrite (getOrderedTransactions_coherent_eq s Hs). cbn [fst].
  rewrite length_fmap, length_take. pose proof (maxSafeIndex_le s
    (groupTransfers (pq_toArray (_transactionQueue s)) (∅, [])).2). lia.
Qed.

(** X24. Loading more never shortens the list: from a reachable state,
    when [loadMore()] resolves, [getOrderedTransactions()] returns afterwards
    at least as many Full Transactions as it returned before. *)
Theorem loadMore_never_shrinks R s s' calls :
  reachable s → loadMore R s = (Return (), s', calls) →
  (length (getOrderedTransactions s).1
   ≤ length (getOrderedTransactions s').1)%nat.
Proof.
  intros Hreach Hload.
  pose proof (reachable_pagesLoaded s Hreach) as Hpages.
  pose proof (reachable_coherent s Hreach) as Hs.
  pose proof (loadMore_coherent R s s' calls Hs Hload) as Hs'.
  rewrite !getOrderedTransactions_length by done.
  destruct Hs as (Hwf & Hfree & _). destruct Hs' as (Hwf' & _ & _).
  destruct (loadMore_Return_cases R s s' calls Hwf Hfree Hload)
    as [->|(Hp & Hsize & fetched & Hperm)]; [done |].
  assert (length (groupTransfers (pq_toArray (_transactionQueue s)) (∅, [])).2
          ≤ length (groupTransfers (pq_toArray (_transactionQueue s')) (∅, [])).2)%nat
    as Hn.
  { rewrite !inorder_length by (by apply pq_toArray_sorted).
    apply submseteq_length, NoDup_submseteq; [apply NoDup_remove_dups |].
    intros h. rewrite !elem_of_remove_dups, Hperm, fmap_app, elem_of_app.
    by right. }
  assert (isAtLastPage s = true → isAtLastPage s' = true) as Hlast.
  { rewrite !isAtLastPage_true. intros [Hin Hout]. split.
    - by eapply loadMore_incoming_exhausted.
    - by eapply loadMore_outgoing_exhausted. }
  unfold maxSafeIndex. rewrite Hp, Hsize.
  destruct (isAtLastPage s) eqn:Hl.
  - rewrite Hlast by done. lia.
  - destruct (isAtLastPage s'); [lia |].
    destruct (Z.le_gt_cases 0 (_pageSize s `div` 2)); nia.
Qed.

End ReachableFacts.

(* ===================================================================== *)
(** * The transaction list *)
(* ===================================================================== *)

Module TransactionListFacts.
Import TransactionList.

(** X16. What each screen of the list means. The API-key screen shows
    whenever no key is configured, whatever else; the no-wallet screen when
    a key is configured and the wallet address is empty; beyond that the
    transaction state decides: the failure screen for an error, with the
    error's user message when it has a non-empty one and the text
    [Unable to fetch transaction history.] otherwise; the list only for a success with at least one transfer,
    with a [Load More] control exactly when there is more, the button being
    enabled only when the load-more status is neither [loading] nor
    [complete], and with the details modal exactly when a transaction is
    selected. *)
Theorem TransactionList_screen props st :
  match TransactionList props st with
  | ApiKeyRequired => apiKeyConfigured props = false
  | NoWalletConnected =>
      apiKeyConfigured props = true ∧ walletAddress props = ""%string
  | FailedToLoad text =>
      apiKeyConfigured props = true ∧ walletAddress props ≠ ""%string
      ∧ ∃ userMessage,
          transactionState props = StatusError userMessage
          ∧ text ≠ ""%string
          ∧ (truthy userMessage = true → userMessage = JsStr text)
          ∧ (truthy userMessage = false →
             text = "Unable to fetch transaction history."%string)
  | LoadingTransactions =>
      apiKeyConfigured props = true ∧ walletAddress props ≠ ""%string
      ∧ transactionState props = StatusLoading
  | NoTransactionsFound =>
      apiKeyConfigured props = true ∧ walletAddress props ≠ ""%string
      ∧ ∃ hasMore, transactionState props = StatusSuccess [] hasMore
  | Transactions rows loadMore modal =>
      apiKeyConfigured props = true ∧ walletAddress props ≠ ""%string
      ∧ ∃ transfers hasMore,
          transactionState props = StatusSuccess transfers hasMore
          ∧ transfers ≠ []
          ∧ (is_Some loadMore ↔ hasMore = true)
          ∧ (loadMore = Some (LoadMoreButton false) →
             loadMoreStatus props ≠ "loading"%string
             ∧ loadMoreStatus props ≠ "complete"%string)
          ∧ (is_Some modal ↔ is_Some (selectedTransaction st))
  | DefaultLoading =>
      apiKeyConfigured props = true ∧ walletAddress props ≠ ""%string
      ∧ transactionState props = StatusIdle
  end.
Proof.
  unfold TransactionList.
  destruct (apiKeyConfigured props); cbn [negb]; [|done].
  destruct (String.eqb (walletAddress props) "") eqn:Hw; cbn [orb].
  { apply String.eqb_eq in Hw. by split. }
  apply String.eqb_neq in Hw.
  assert ((String.length (walletAddress props) =? 0)%nat = false) as ->.
  { apply Nat.eqb_neq. by destruct (walletAddress props). }
  destruct (transactionState props) as [| |transfers hasMore|userMessage].
  - done.
  - done.
  - destruct transfers as [|t transfers]; cbn [length Nat.eqb].
    + split_and!; try done. by exists hasMore.
    + split_and!; try done. exists (t :: transfers), hasMore.
      split_and!; try done.
      * destruct hasMore;
          [split; [done | by eexists] | split; [by intros [? ?] | done]].
      * destruct hasMore; [|done].
        destruct (String.eqb (loadMoreStatus props) "loading") eqn:Hl; [done |].
        destruct (String.eqb (loadMoreStatus props) "complete") eqn:Hc; [done |].
        intros _. by split; apply String.eqb_neq.
      * by rewrite fmap_is_Some.
  - split_and!; try done. exists userMessage. split_and!; try done.
    + unfold or_undefined. destruct userMessage as [| |m]; simpl; try done.
      destruct (String.eqb m "") eqn:Hm; simpl; [done |].
      by apply String.eqb_neq.
    + unfold or_undefined, truthy. destruct userMessage as [| |m]; try done.
      by destruct (String.eqb m "").
    + unfold or_undefined, truthy. destruct userMessage as [| |m]; try done.
      by destruct (String.eqb m "").
Qed.

(** X17. While the transfers of a success state are being processed, the
    list shows one row for each transfer, in order: the amount reads
    [0 ETH], no row is shown as a TandaPay action, the title is [Received]
    when the transfer carries the direction [IN] and [Sent] otherwise, and
    [View] acts on the transfer itself. *)
Theorem TransactionList_processing props st transfers hasMore :
  apiKeyConfigured props = true →
  walletAddress props ≠ ""%string →
  transactionState props = StatusSuccess transfers hasMore →
  transfers ≠ [] →
  ∃ rows loadMore modal,
    TransactionList props (effectStarted props st)
    = Transactions rows loadMore modal
    ∧ onView <$> rows = transfers
    ∧ Forall (λ r, displayAmount r = JsStr "0 ETH"
                   ∧ displayColor r ≠ warning
                   ∧ (displayTitle r
                      = if bool_decide (direction (onView r) = JsStr "IN")
                        then "Received" else "Sent")%string) rows.
Proof.
  intros Hkey Hwallet Hstate Hne.
  unfold TransactionList, effectStarted. rewrite Hkey, Hstate. cbn [negb].
  assert (String.eqb (walletAddress props) "" = false) as ->
    by (by apply String.eqb_neq).
  assert ((String.length (walletAddress props) =? 0)%nat = false) as ->.
  { apply Nat.eqb_neq. by destruct (walletAddress props). }
  cbn [orb].
  assert ((length transfers =? 0)%nat = false) as ->.
  { apply Nat.eqb_neq. by destruct transfers. }
  assert ((0 <? length transfers)%nat = true) as ->.
  { apply Nat.ltb_lt. destruct transfers; [done | simpl; lia]. }
  cbn [isProcessingTransactions setIsProcessingTransactions].
  do 3 eexists. split; [reflexivity |]. split.
  - rewrite <-list_fmap_compose. by rewrite list_fmap_id.
  - apply Forall_fmap, Forall_forall. intros t _. simpl.
    split_and!; [done | by case_bool_decide |].
    unfold or_undefined. destruct (direction t) as [| |d]; simpl; try done.
    destruct (String.eqb d "") eqn:Hd; simpl.
    + apply String.eqb_eq in Hd as ->. by rewrite !bool_decide_false.
    + done.
Qed.

Section Processing.
Variable convert : Transaction → Completion Transaction.

Lemma promise_all_processTransfer transfers :
  promise_all (processTransfer convert <$> transfers)
  = Return (processed convert <$> transfers).
Proof.
  induction transfers as [|t transfers IH]; [done |].
  rewrite !fmap_cons. cbn [promise_all]. unfold processTransfer at 1, processed at 1.
  destruct (convert t); by rewrite IH.
Qed.

Lemma effectSettled_processed props st transfers hasMore :
  transactionState props = StatusSuccess transfers hasMore →
  let st' := effectSettled convert props st in
  processedTransactions st' = processed convert <$> transfers
  ∧ length (processedTransactions st') = length transfers
  ∧ isProcessingTransactions st' = false
  ∧ selectedTransaction st' = selectedTransaction st
  ∧ modalVisible st' = modalVisible st.
Proof.
  intros Hstate. cbv zeta. unfold effectSettled. rewrite Hstate.
  destruct transfers as [|t transfers]; [done |].
  cbn [length Nat.ltb Nat.leb]. unfold processTransactions.
  rewrite promise_all_processTransfer. cbn. by rewrite length_fmap.
Qed.

(** X18. Once the processing of a success state with at least one
    transfer has settled, the list shows one row for each transfer, in
    order, and [View] acts on the conversion of the transfer, or on the
    transfer as it is when its conversion was rejected: a conversion that
    fails costs neither the other rows nor the row of that transfer. A row
    is shown as a TandaPay action exactly when what it shows is marked so.
    The [Load More] control and the modal are as the properties and the
    selection say. *)
Theorem TransactionList_processed props st transfers hasMore :
  apiKeyConfigured props = true →
  walletAddress props ≠ ""%string →
  transactionState props = StatusSuccess transfers hasMore →
  transfers ≠ [] →
  ∃ rows,
    TransactionList props (effectSettled convert props st)
    = Transactions rows
        (if hasMore
         then Some (if String.eqb (loadMoreStatus props) "loading"
                    then LoadMoreSpinner
                    else LoadMoreButton
                           (String.eqb (loadMoreStatus props) "complete"))
         else None)
        ((λ selected, (modalVisible st, selected)) <$> selectedTransaction st)
    ∧ onView <$> rows = processed convert <$> transfers
    ∧ Forall (λ r, displayColor r = warning
                   ↔ isTandaPayTransaction (onView r) = true) rows.
Proof.
  intros Hkey Hwallet Hstate Hne.
  destruct (effectSettled_processed props st transfers hasMore Hstate)
    as (Hprocessed & _ & Hdone & Hselected & Hmodal).
  unfold TransactionList. rewrite Hkey, Hstate, Hdone, Hprocessed, Hselected, Hmodal.
  cbn [negb].
  assert (String.eqb (walletAddress props) "" = false) as ->
    by (by apply String.eqb_neq).
  assert ((String.length (walletAddress props) =? 0)%nat = false) as ->.
  { apply Nat.eqb_neq. by destruct (walletAddress props). }
  cbn [orb].
  assert ((length transfers =? 0)%nat = false) as ->.
  { apply Nat.eqb_neq. by destruct transfers. }
  eexists. split; [reflexivity |]. split.
  - rewrite <-list_fmap_compose.
    rewrite <-(list_fmap_id (processed convert <$> transfers)) at 2.
    apply list_fmap_ext. intros _ t _. simpl.
    unfold row. by destruct (isTandaPayTransaction t).
  - apply Forall_fmap, Forall_forall. intros t _. simpl. unfold row.
    destruct (isTandaPayTransaction t) eqn:Ht; simpl; [by rewrite Ht |].
    rewrite Ht. split; [|done]. by case_bool_decide.
Qed.

End Processing.

End TransactionListFacts.

(* ===================================================================== *)
(** * The authentication methods *)
(* ===================================================================== *)

Module AuthScreenFacts.
Import AuthScreen.

Lemma activeAuthentications_eq am ext :
  activeAuthentications am ext = foldl pushExternal (directMethods am) ext.
Proof. done. Qed.

Lemma existsb_name result n :
  existsb (λ d, String.eqb (name d) n) result = true ↔ n ∈ name <$> result.
Proof.
  rewrite existsb_exists, list_elem_of_fmap. split.
  - intros (d & Hd%list_elem_of_In & Heq%String.eqb_eq). by exists d.
  - intros (d & -> & Hd). exists d. split; [by apply list_elem_of_In |].
    apply String.eqb_refl.
Qed.

Lemma pushExternal_names result ext n :
  n ∈ name <$> foldl pushExternal result ext
  ↔ n ∈ name <$> result ∨ n ∈ method_name <$> ext.
Proof.
  revert n. induction ext as [|m ext IH] using rev_ind; intros n.
  - simpl. rewrite elem_of_nil. tauto.
  - rewrite foldl_snoc, fmap_app, elem_of_app. simpl.
    rewrite list_elem_of_singleton. unfold pushExternal at 1.
    destruct (existsb _ _) eqn:Hex.
    + apply existsb_name in Hex. rewrite IH in Hex. rewrite IH.
      split; [tauto |]. intros [?|[?| ->]]; tauto.
    + rewrite fmap_app, elem_of_app, IH. simpl.
      rewrite list_elem_of_singleton. tauto.
Qed.

Lemma pushExternal_NoDup result ext :
  NoDup (name <$> result) → NoDup (name <$> foldl pushExternal result ext).
Proof.
  intros Hnd. induction ext as [|m ext IH] using rev_ind; [done |].
  rewrite foldl_snoc. unfold pushExternal at 1.
  destruct (existsb _ _) eqn:Hex; [done |].
  rewrite fmap_app. apply NoDup_app. split_and!; [done | | apply NoDup_singleton].
  intros n Hn ->%list_elem_of_singleton.
  apply existsb_name in Hn. simpl in Hn. congruence.
Qed.

(** The first loop keeps the available methods that pass its two tests. *)
Lemma directMethods_loop (am : AuthenticationMethods)
    (l acc : list AuthenticationMethodDetails) :
  foldl (λ result auth,
           if negb (bool_decide (am !! name auth = Some true))
           then result
           else if String.eqb (name auth) "ldap"
                   && bool_decide (am !! "password"%string = Some true)
           then result
           else result ++ [auth]) acc l
  = acc ++ filter (λ auth, am !! name auth = Some true
                           ∧ ¬ (name auth = "ldap"%string
                                ∧ am !! "password"%string = Some true)) l.
Proof.
  revert acc. induction l as [|auth l IH]; intros acc; cbn [foldl].
  - by rewrite app_nil_r.
  - rewrite filter_cons, IH.
    destruct (decide _) as [[Hon Hdup]|Hno].
    + rewrite bool_decide_true by done. cbn [negb].
      destruct (String.eqb_spec (name auth) "ldap") as [Hldap|_]; cbn [andb].
      * rewrite bool_decide_false by tauto. by rewrite <-app_assoc.
      * by rewrite <-app_assoc.
    + destruct (decide (am !! name auth = Some true)) as [Hon|Hoff].
      * rewrite (bool_decide_true (am !! name auth = Some true)) by done.
        cbn [negb].
        destruct (String.eqb_spec (name auth) "ldap") as [Hldap|Hldap];
          cbn [andb]; [|destruct Hno; tauto].
        destruct (decide (am !! "password"%string = Some true)) as [Hpw|Hpw].
        -- by rewrite (bool_decide_true (am !! "password"%string = Some true)).
        -- destruct Hno. tauto.
      * by rewrite (bool_decide_false (am !! name auth = Some true)).
Qed.

Lemma directMethods_eq (am : AuthenticationMethods) :
  directMethods am
  = filter (λ auth, am !! name auth = Some true
                    ∧ ¬ (name auth = "ldap"%string
                         ∧ am !! "password"%string = Some true))
      availableDirectMethods.
Proof. apply (directMethods_loop am availableDirectMethods []). Qed.

(** X19. No two entries of [activeAuthentications] have the same name,
    whatever the server settings say. *)
Theorem activeAuthentications_NoDup am ext :
  NoDup (name <$> activeAuthentications am ext).
Proof.
  rewrite activeAuthentications_eq. apply pushExternal_NoDup.
  rewrite directMethods_eq.
  eapply sublist_NoDup; [| apply fmap_sublist, sublist_filter].
  apply (bool_decide_unpack _). by vm_compute.
Qed.

Lemma pushExternal_app result ext :
  ∃ externals,
    foldl pushExternal result ext = result ++ externals
    ∧ Forall (λ d, ∃ method, method ∈ ext ∧ d = externalDetails method) externals.
Proof.
  induction ext as [|m ext (externals & Heq & Hall)] using rev_ind.
  - exists []. by rewrite app_nil_r.
  - rewrite foldl_snoc, Heq. unfold pushExternal.
    assert (Forall (λ d, ∃ method, method ∈ ext ++ [m] ∧ d = externalDetails method)
              externals) as Hall'.
    { eapply Forall_impl; [done |]. intros d (method & Hin & ->).
      exists method. split; [|done]. apply elem_of_app. by left. }
    destruct (existsb _ _).
    + by exists externals.
    + exists (externals ++ [externalDetails m]). rewrite app_assoc.
      split; [done |]. apply Forall_app. split; [done |].
      apply Forall_singleton. exists m. split; [|done].
      apply elem_of_app. right. left.
Qed.

Lemma pushExternal_elem_of result ext d :
  d ∈ foldl pushExternal result ext ↔
  d ∈ result
  ∨ ∃ pre method post,
      ext = pre ++ method :: post ∧ d = externalDetails method
      ∧ (method_name method ∉ name <$> result)
      ∧ method_name method ∉ method_name <$> pre.
Proof.
  induction ext as [|m ext IH] using rev_ind.
  - simpl. split; [by left |]. intros [?|(pre & ? & ? & Heq & _)]; [done |].
    by destruct pre.
  - rewrite foldl_snoc. unfold pushExternal at 1.
    destruct (existsb _ _) eqn:Hex.
    + apply existsb_name, pushExternal_names in Hex. rewrite IH. split.
      * intros [?|(pre & method & post & Heq & -> & Hdirect & Hfirst)];
          [by left | right].
        exists pre, method, (post ++ [m]). rewrite Heq, <-app_assoc. done.
      * intros [?|(pre & method & post & Heq & -> & Hdirect & Hfirst)];
          [by left | right].
        destruct post as [|m' post _] using rev_ind.
        { apply app_inj_tail in Heq as [-> ->]. destruct Hex as [?|?]; done. }
        rewrite app_comm_cons, app_assoc in Heq.
        apply app_inj_tail in Heq as [-> ->]. by exists pre, method, post.
    + assert (method_name m ∉ name <$> foldl pushExternal result ext) as Hnew.
      { intros Hin%existsb_name. congruence. }
      rewrite pushExternal_names in Hnew.
      rewrite elem_of_app, list_elem_of_singleton, IH.
      split.
      * intros [[?|(pre & method & post & Heq & -> & Hdirect & Hfirst)]| ->].
        -- by left.
        -- right. exists pre, method, (post ++ [m]).
           rewrite Heq, <-app_assoc. done.
        -- right. exists ext, m, []. split_and!; try done; tauto.
      * intros [?|(pre & method & post & Heq & -> & Hdirect & Hfirst)];
          [by left; left |].
        destruct post as [|m' post _] using rev_ind.
        { apply app_inj_tail in Heq as [-> ->]. by right. }
        rewrite app_comm_cons, app_assoc in Heq.
        apply app_inj_tail in Heq as [-> ->]. left. right.
        by exists pre, method, post.
Qed.

(** X20. The result of [activeAuthentications] is the direct methods
    (what the function returns without external methods) followed by entries
    made from external methods; and an entry is in the result exactly when
    it is a direct method, or is made from an external method whose name is
    no direct method's and no earlier external method's: a direct method
    hides the external methods of its name, and of several external methods
    with one name the first counts. *)
Theorem activeAuthentications_elem_of am ext d :
  let direct := activeAuthentications am [] in
  (∃ externals,
     activeAuthentications am ext = direct ++ externals
     ∧ Forall (λ d, ∃ method, method ∈ ext ∧ d = externalDetails method)
         externals)
  ∧ (d ∈ activeAuthentications am ext ↔
     d ∈ direct
     ∨ ∃ pre method post,
         ext = pre ++ method :: post ∧ d = externalDetails method
         ∧ (method_name method ∉ name <$> direct)
         ∧ method_name method ∉ method_name <$> pre).
Proof.
  cbv zeta. rewrite activeAuthentications_eq.
  split; [apply pushExternal_app | apply pushExternal_elem_of].
Qed.

(** X21. The direct methods are the available ones that the server
    enables, [ldap] being left out when [password] is enabled too; so the
    result has exactly one entry that leads to the password screen when the
    server enables [password] or [ldap], and none otherwise, whatever the
    external methods are. *)
Theorem activeAuthentications_password_once am ext :
  activeAuthentications am []
  = filter (λ auth, am !! name auth = Some true
                    ∧ ¬ (name auth = "ldap"%string
                         ∧ am !! "password"%string = Some true))
      availableDirectMethods
  ∧ length (filter (λ d, action d = ActionPassword)
              (activeAuthentications am ext))
    = (if bool_decide (am !! "password"%string = Some true
                       ∨ am !! "ldap"%string = Some true)
       then 1 else 0)%nat.
Proof.
  split; [apply directMethods_eq |].
  rewrite activeAuthentications_eq.
  destruct (pushExternal_app (directMethods am) ext) as (externals & -> & Hall).
  rewrite filter_app, length_app.
  assert (filter (λ d, action d = ActionPassword) externals = []) as ->.
  { induction Hall as [|d l (method & _ & ->) _ IH]; [done |].
    by rewrite filter_cons, decide_False. }
  rewrite directMethods_eq, list_filter_filter. unfold availableDirectMethods.
  rewrite !filter_cons, filter_nil. cbn [name action].
  destruct (am !! "password"%string) as [[]|], (am !! "ldap"%string) as [[]|];
    reflexivity.
Qed.

(** X22. Where the buttons lead. For an entry of [activeAuthentications],
    [handleAuth] opens the dev-account screen only when the server enables
    [dev], the password screen only when it enables [password] or [ldap],
    the native Apple flow only for an external method named [apple] on iOS
    with Apple authentication available and a server on the app's own
    domain, and otherwise the browser, at the login URL of an external
    method of that name or, for [remoteuser], at the SSO path. *)
Theorem handleAuth_active env am ext method :
  method ∈ activeAuthentications am ext →
  match handleAuth env method with
  | handleDevAuth => am !! "dev"%string = Some true
  | handlePassword =>
      am !! "password"%string = Some true ∨ am !! "ldap"%string = Some true
  | handleNativeAppleAuth =>
      name method = "apple"%string
      ∧ OS env = "ios"%string ∧ isAvailableAsync env = true
      ∧ isAppOwnDomain env = true
      ∧ "apple"%string ∈ method_name <$> ext
  | beginWebAuth url =>
      (url = "accounts/login/sso/"%string
       ∧ am !! "remoteuser"%string = Some true)
      ∨ ∃ external, external ∈ ext ∧ method_name external = name method
                    ∧ login_url external = url
  end.
Proof.
  rewrite activeAuthentications_eq, pushExternal_elem_of.
  intros [Hdirect|(pre & external & post & -> & -> & _)].
  - rewrite directMethods_eq in Hdirect.
    apply list_elem_of_filter in Hdirect as [[Hon Hdup] Hin].
    unfold availableDirectMethods in Hin.
    repeat (apply elem_of_cons in Hin as [->|Hin]); simpl in *;
      try tauto.
    by apply not_elem_of_nil in Hin.
  - unfold handleAuth. cbn [action externalDetails name].
    assert (external ∈ pre ++ external :: post) as Hin
      by (apply elem_of_app; right; left).
    destruct (String.eqb (method_name external) "apple") eqn:Happle; simpl.
    + apply String.eqb_eq in Happle.
      unfold canUseNativeAppleFlow.
      destruct (String.eqb (OS env) "ios") eqn:Hos; simpl.
      * apply String.eqb_eq in Hos.
        destruct (isAvailableAsync env) eqn:Hav; simpl.
        -- destruct (isAppOwnDomain env) eqn:Hown.
           ++ split_and!; try done. apply list_elem_of_fmap. by exists external.
           ++ right. by exists external.
        -- right. by exists external.
      * right. by exists external.
    + right. by exists external.
Qed.

End AuthScreenFacts.

(* ===================================================================== *)
(** * The contract row of the community overview *)
(* ===================================================================== *)

Module CommunityOverviewCardFacts.
Import CommunityOverviewCard.

Lemma length_append (s1 s2 : string) :
  String.length (s1 +:+ s2) = (String.length s1 + String.length s2)%nat.
Proof. induction s1 as [|c s1 IH]; simpl; [done | by rewrite IH]. Qed.

Lemma length_substring (n m : nat) (s : string) :
  String.length (String.substring n m s) = (m `min` (String.length s - n))%nat.
Proof.
  revert n m. induction s as [|c s IH]; intros n m.
  - destruct n, m; simpl; lia.
  - destruct n as [|n].
    + destruct m as [|m]; simpl; [done |]. rewrite IH. lia.
    + simpl. by rewrite IH.
Qed.

(** [trim()] leaves nothing exactly of the strings that hold nothing but
    white space. *)
Lemma trimStart_empty s : trimStart s = ""%string ↔ whiteOnly s = true.
Proof.
  induction s as [|c s IH]; simpl; [done |].
  destruct (isWhiteSpace c); simpl; [done |]. split; discriminate.
Qed.

Lemma whiteOnly_trimStart s : whiteOnly (trimStart s) = whiteOnly s.
Proof.
  induction s as [|c s IH]; simpl; [done |].
  destruct (isWhiteSpace c) eqn:Hc; simpl; [done |]. by rewrite Hc.
Qed.

Lemma whiteOnly_rev_app s1 s2 :
  whiteOnly (String.rev_app s1 s2) = whiteOnly s1 && whiteOnly s2.
Proof.
  revert s2. induction s1 as [|c s1 IH]; intros s2; simpl; [done |].
  rewrite IH. simpl. by destruct (isWhiteSpace c), (whiteOnly s1).
Qed.

Lemma rev_app_empty s1 s2 :
  String.rev_app s1 s2 = ""%string ↔ s1 = ""%string ∧ s2 = ""%string.
Proof.
  revert s2. induction s1 as [|c s1 IH]; intros s2; simpl.
  - split; [done | by intros []].
  - rewrite IH. split; [by intros [] | by intros []].
Qed.

Lemma trim_empty s : trim s = ""%string ↔ whiteOnly s = true.
Proof.
  unfold trim, String.rev. rewrite rev_app_empty.
  rewrite trimStart_empty, whiteOnly_rev_app, whiteOnly_trimStart. simpl.
  rewrite andb_true_r. tauto.
Qed.

(** X23. The contract row reads [Not configured] exactly when there is no
    contract address or it is empty or white space only; otherwise it reads
    the first six characters of the address, three dots and its last four
    characters (fewer when the address is shorter, the two parts then
    overlapping), which is at most 13 characters. *)
Theorem contractText_configured contractAddress :
  let configured :=
    ∃ address, contractAddress = JsStr address ∧ whiteOnly address = false in
  (contractText contractAddress = "Not configured"%string ↔ ¬ configured)
  ∧ (∀ address,
       contractAddress = JsStr address → whiteOnly address = false →
       contractText contractAddress
       = slice_to 6 address +:+ "..." +:+ slice_last 4 address
       ∧ String.length (contractText contractAddress)
         = (6 `min` String.length address + 3
            + 4 `min` String.length address)%nat).
Proof.
  cbv zeta.
  assert (∀ address, whiteOnly address = false →
            contractText (JsStr address)
            = slice_to 6 address +:+ "..." +:+ slice_last 4 address
            ∧ String.length (contractText (JsStr address))
              = (6 `min` String.length address + 3
                 + 4 `min` String.length address)%nat) as Hshape.
  { intros address Hwhite. unfold contractText.
    assert (String.eqb (trim address) "" = false) as ->.
    { apply String.eqb_neq. rewrite trim_empty. congruence. }
    split; [done |]. cbn [negb].
    rewrite !length_append. unfold slice_to, slice_last.
    rewrite !length_substring. change (String.length "...") with 3%nat. lia. }
  split.
  - split.
    + intros Htext (address & -> & Hwhite).
      destruct (Hshape address Hwhite) as [_ Hlen].
      rewrite Htext in Hlen.
      change (String.length "Not configured") with 14%nat in Hlen. lia.
    + intros Hno. unfold contractText.
      destruct contractAddress as [| |address]; try done.
      destruct (String.eqb (trim address) "") eqn:Htrim; [done |].
      destruct Hno. exists address. split; [done |].
      apply String.eqb_neq in Htrim. rewrite trim_empty in Htrim.
      by destruct (whiteOnly address).
  - intros address ->. apply Hshape.
Qed.

End CommunityOverviewCardFacts.

(* ===================================================================== *)
(** * The scenarios *)
(* ===================================================================== *)

Module ScenarioFacts.
Import Scenario.

#[local] Existing Instance list_queue.
#[local] Existing Instance list_queue_spec.
#[local] Existing Instance summary_formatter.

Abbreviation Values := (list Summary).

Lemma manager0_new {Cache} :
  constructor isAddress params = Return (@manager0 Cache).
Proof. reflexivity. Qed.

Lemma manager1_loaded {Cache} :
  loadMore remote manager0
  = (Return (), @manager1 Cache, (loadMore remote (@manager0 Cache)).2).
Proof. vm_compute. reflexivity. Qed.

Lemma manager_last_loaded {Cache} :
  loadMore remote_last manager0
  = (Return (), @manager_last Cache, (loadMore remote_last (@manager0 Cache)).2).
Proof. vm_compute. reflexivity. Qed.

Lemma manager_empty_key_loaded {Cache} :
  loadMore remote_empty_key manager0
  = (Return (), @manager_empty_key Cache,
     (loadMore remote_empty_key (@manager0 Cache)).2).
Proof. vm_compute. reflexivity. Qed.

Lemma manager0_reachable : reachable (@manager0 Values).
Proof. eapply reachable_new, manager0_new. Qed.

Lemma manager1_reachable : reachable (@manager1 Values).
Proof. eapply reachable_loadMore; [apply manager0_reachable | apply manager1_loaded]. Qed.

Lemma manager_last_reachable : reachable (@manager_last Values).
Proof.
  eapply reachable_loadMore; [apply manager0_reachable | apply manager_last_loaded].
Qed.

Lemma manager_empty_key_reachable : reachable (@manager_empty_key Values).
Proof.
  eapply reachable_loadMore;
    [apply manager0_reachable | apply manager_empty_key_loaded].
Qed.

(** The scenarios of the specification. *)

(** Both feeds exhausted on the first answer: the last page is reached and
    everything seen is returned, most recent first. *)
Example both_feeds_exhausted :
  isAtLastPage (@manager_last Values) = true
  ∧ summary_hash <$> (getOrderedTransactions manager_last).1
    = [Some (JsStr "0xa1"); Some (JsStr "0xb2"); Some JsUndefined]
  ∧ summary_legs <$> (getOrderedTransactions manager_last).1 = [2; 1; 1]%nat.
Proof. by vm_compute. Qed.

(** The outgoing fetch rejects while the incoming one resolves: nothing of
    the incoming page is kept. *)
Example outgoing_rejects :
  loadMore remote_outgoing_down (@manager0 Values)
  = (Throw (mkError "Failed to fetch transactions: timeout"), manager0,
     [CallIsAlchemyAvailable "sepolia";
      CallGetAssetTransfers "sepolia" (incomingParams (@manager0 Values));
      CallGetAssetTransfers "sepolia" (outgoingParams (@manager0 Values))]).
Proof. by vm_compute. Qed.

(** The remote source is unavailable: the call resolves, nothing changes,
    the result stays empty and the last page is never reached. *)
Example remote_is_unavailable :
  loadMore remote_unavailable (@manager0 Values)
  = (Return (), manager0, [CallIsAlchemyAvailable "sepolia"])
  ∧ (getOrderedTransactions (@manager0 Values)).1 = []
  ∧ isAtLastPage (@manager0 Values) = false.
Proof. by vm_compute. Qed.

(** A transfer without timestamp makes the comparator throw during the
    enqueue loop (with the list queue: when the second transfer is compared
    with the first): the call rejects, the cursors are already advanced and
    the lock stays taken. *)
Example enqueue_throws :
  (loadMore remote_undated (@manager0 Values)).1.1 ≠ Return ()
  ∧ isAtLastPage (loadMore remote_undated (@manager0 Values)).1.2 = true
  ∧ _lock (loadMore remote_undated (@manager0 Values)).1.2 = true.
Proof. by vm_compute. Qed.

(** C1 at work: after one page of each feed, with the incoming feed not
    exhausted, the three hashes seen are [0xa1], [0xb2] and [undefined]; the
    result holds the first two. *)
Lemma getOrderedTransactions_safe_prefix_witness :
  reachable (@manager1 Values)
  ∧ _inorderTransactionHashes (getOrderedTransactions manager1).2
    = [JsStr "0xa1"; JsStr "0xb2"; JsUndefined]
  ∧ (getOrderedTransactions manager1).1
    = summarize <$> resultParams (getOrderedTransactions manager1).2
  ∧ args_hash <$> resultParams (getOrderedTransactions manager1).2
    = [Some (JsStr "0xa1"); Some (JsStr "0xb2")]
  ∧ Some JsUndefined
    ∉ args_hash <$> resultParams (getOrderedTransactions manager1).2.
Proof.
  split; [exact manager1_reachable |]. split; [reflexivity |].
  destruct (getOrderedTransactions_safe_prefix manager1 manager1_reachable)
    as (Hres & Hhash & Hlast).
  split; [exact Hres |].
  split; [exact Hhash | apply Hlast; reflexivity].
Defined.

(** C2 at work: with both feeds exhausted the three groups come out in
    descending timestamp order. *)
Lemma getOrderedTransactions_sorted_witness :
  reachable (@manager_last Values)
  ∧ (getOrderedTransactions manager_last).1
    = summarize <$> resultParams (getOrderedTransactions manager_last).2
  ∧ StronglySorted args_precedes
      (resultParams (getOrderedTransactions manager_last).2).
Proof.
  split; [exact manager_last_reachable |].
  exact (getOrderedTransactions_sorted manager_last manager_last_reachable).
Defined.

(** C3 at work: [0xa1] has two transfers and one Full Transaction. *)
Lemma getOrderedTransactions_hash_once_witness :
  reachable (@manager_last Values)
  ∧ summary_legs <$> (getOrderedTransactions manager_last).1 = [2; 1; 1]%nat
  ∧ NoDup (args_hash <$> resultParams (getOrderedTransactions manager_last).2).
Proof.
  split; [exact manager_last_reachable |].
  split; [reflexivity |].
  exact (proj1 (proj2 (getOrderedTransactions_hash_once manager_last
                         manager_last_reachable))).
Defined.

(** C4 at work: the outgoing page fetch times out. *)
Lemma loadMore_fetch_failure_unchanged_witness :
  _lock (@manager0 Values) = false
  ∧ isAlchemyAvailableForNetwork remote_outgoing_down
      (_network (@manager0 Values)) = Return true
  ∧ outgoingRejects remote_outgoing_down (@manager0 Values) (mkError "timeout")
  ∧ ∃ cause calls,
      loadMore remote_outgoing_down (@manager0 Values)
      = (Throw (mkError ("Failed to fetch transactions: " +:+ message cause)),
         manager0, calls)
      ∧ (incomingRejects remote_outgoing_down (@manager0 Values) cause
         ∨ outgoingRejects remote_outgoing_down (@manager0 Values) cause)
      ∧ batchCalls calls = [].
Proof.
  assert (outgoingRejects remote_outgoing_down (@manager0 Values)
            (mkError "timeout")) as Hout by (split; [done | reflexivity]).
  split; [reflexivity |]. split; [reflexivity |]. split; [exact Hout |].
  apply loadMore_fetch_failure_unchanged; [reflexivity | reflexivity |].
  right. by exists (mkError "timeout").
Defined.

(** C5 (amended) at work: a call that resolves leaves the lock free. *)
Lemma loadMore_lock_released_witness :
  loadMore remote (@manager0 Values)
  = (Return (), manager1, (loadMore remote (@manager0 Values)).2)
  ∧ _lock (@manager0 Values) = false
  ∧ _lock (@manager1 Values) = false.
Proof.
  split; [exact manager1_loaded |]. split; [reflexivity |].
  exact (proj1 (proj2 (loadMore_lock_released remote manager0 _ _ _
                         manager1_loaded)) eq_refl eq_refl).
Defined.

(** C5 as stated fails: a call that finds the lock taken leaves it taken,
    and a call whose batch signed-details fetch rejects leaves the lock
    taken as well. *)
Lemma loadMore_lock_left_taken :
  ((loadMore remote (@manager_locked Values)).1.1 = Return ()
   ∧ _lock (loadMore remote (@manager_locked Values)).1.2 = true)
  ∧ ((loadMore remote_batch_down (@manager0 Values)).1.1
     = Throw (mkError "rate limited")
     ∧ _lock (loadMore remote_batch_down (@manager0 Values)).1.2 = true).
Proof. by vm_compute. Qed.

(** C6 (amended) at work: the second call fetches the incoming feed with
    the token of the first answer and leaves the exhausted outgoing feed
    alone. *)
Lemma loadMore_page_fetches_witness :
  _lock (@manager1 Values) = false
  ∧ _nextIncomingPage (@manager1 Values) = JsStr "page2"
  ∧ _nextOutgoingPage (@manager1 Values) = JsNull
  ∧ pageKey <$> incomingFetches (loadMore remote (@manager1 Values)).2
    = [Some "page2"%string]
  ∧ outgoingFetches (loadMore remote (@manager1 Values)).2 = [].
Proof.
  split; [reflexivity |]. split; [reflexivity |]. split; [reflexivity |].
  destruct (loadMore remote (@manager1 Values)) as [[r s'] calls] eqn:Hload.
  destruct (loadMore_page_fetches remote manager1 r s' calls
              eq_refl eq_refl Hload)
    as ((_ & _ & Htoken & _) & (Hnull & _)).
  cbn [snd].
  destruct (Htoken "page2"%string eq_refl ltac:(done)) as [-> Hkey].
  destruct (Hnull eq_refl) as [-> _].
  split; [by rewrite <-Hkey | done].
Defined.

(** C6 as stated fails: the empty string is a token that is not [null], and
    the page fetch made for it carries no page key. *)
Lemma loadMore_empty_token_first_page :
  reachable (@manager_empty_key Values)
  ∧ _lock (@manager_empty_key Values) = false
  ∧ _nextIncomingPage (@manager_empty_key Values) = JsStr ""
  ∧ pageKey <$> incomingFetches (loadMore remote (@manager_empty_key Values)).2
    = [None]
  ∧ pageKey <$> incomingFetches (loadMore remote (@manager_empty_key Values)).2
    ≠ [Some ""%string].
Proof.
  split; [exact manager_empty_key_reachable |]. by vm_compute.
Qed.

(** C7 (amended) at work: the caller empties the first returned array; the
    second call still returns the three Full Transactions. *)
Lemma getOrderedTransactions_snapshot_witness :
  Aliasing.cache_allocated heap0 manager_last
  ∧ let r1 := first_call.1.1 in
    let h1' := Aliasing.write_array r1 [] first_call.2 in
    let second := Aliasing.getOrderedTransactions first_call.1.2 h1' in
    Aliasing.view second.2 second.1.1 = Aliasing.view first_call.2 r1
    ∧ length (Aliasing.view second.2 second.1.1) = 3%nat
    ∧ Aliasing.read_array second.2 r1 = [].
Proof.
  assert (Aliasing.cache_allocated heap0 manager_last) as Halloc
    by (intros cache Hc; discriminate Hc).
  split; [exact Halloc |].
  destruct (getOrderedTransactions_snapshot manager_last heap0 [] Halloc)
    as (Hview & _ & _ & _ & _ & _ & Hfirst & _).
  split; [exact Hview |]. split; [reflexivity | exact Hfirst].
Defined.

(** C7 as stated fails: the elements of a returned array are the very
    objects that the cache array holds. A caller who assigns to a property of
    [result[0]] changes what the cache holds and what the next call
    returns. *)
Lemma getOrderedTransactions_elements_shared :
  let r1 := first_call.1.1 in
  let s1 := first_call.1.2 in
  let h1 := first_call.2 in
  let h1' := Aliasing.write_object 0 tampered h1 in
  let second := Aliasing.getOrderedTransactions s1 h1' in
  Aliasing.read_array h1 r1 !! 0%nat = Some 0%nat
  ∧ _getOrderedTransactionsCache s1 = Some 1%nat
  ∧ r1 ≠ 1%nat
  ∧ Aliasing.view h1' 1 ≠ Aliasing.view h1 1
  ∧ Aliasing.view h1' 1 !! 0%nat = Some (Some tampered)
  ∧ Aliasing.view second.2 second.1.1 !! 0%nat = Some (Some tampered)
  ∧ Aliasing.view second.2 second.1.1 ≠ Aliasing.view h1 r1.
Proof. by vm_compute. Qed.

(** C8 (amended) at work: the first call asks for the details of [0xa1],
    [0xb2] and [0xa1] again; the transfer without hash is left out. *)
Lemma loadMore_batch_hashes_witness :
  loadMore remote (@manager0 Values)
  = (Return (), manager1, (loadMore remote (@manager0 Values)).2)
  ∧ batchCalls (loadMore remote (@manager0 Values)).2
    = [["0xa1"; "0xb2"; "0xa1"]%string].
Proof.
  split; [exact manager1_loaded |].
  exact (loadMore_batch_hashes remote manager0 manager1 _ manager1_loaded).
Defined.

(** C8 as stated fails: two fresh transfers share the hash [0xa1], and the
    hash list of the batch fetch holds it twice. *)
Lemma loadMore_batch_hashes_repeated :
  (loadMore remote (@manager0 Values)).1.1 = Return ()
  ∧ ∃ hashes,
      batchCalls (loadMore remote (@manager0 Values)).2 = [hashes]
      ∧ ¬ NoDup hashes.
Proof.
  split; [reflexivity |]. exists ["0xa1"; "0xb2"; "0xa1"]%string.
  split; [reflexivity |].
  intros Hnd. apply NoDup_cons in Hnd as [Hnotin _]. apply Hnotin.
  right. left.
Qed.

(** C9 at work: the details of [0xa1], fetched by the first call, are there
    after every operation. *)
Lemma signed_details_durable_witness :
  is_Some (_allSignedTransactions (@manager1 Values) !! JsStr "0xa1")
  ∧ is_Some (_allSignedTransactions (loadMore remote (@manager1 Values)).1.2
             !! JsStr "0xa1")
  ∧ _allSignedTransactions (_dropGetOrderedTransactionsCache (@manager1 Values))
    = _allSignedTransactions (@manager1 Values)
  ∧ _allSignedTransactions (getOrderedTransactions manager1).2
    = _allSignedTransactions (@manager1 Values).
Proof.
  assert (is_Some (_allSignedTransactions (@manager1 Values) !! JsStr "0xa1"))
    as Hsome by (by exists (details "0xa1")).
  split; [exact Hsome |].
  destruct (signed_details_durable remote manager1 (JsStr "0xa1") Hsome)
    as (Hload & Hdrop & _ & _ & _ & Hordered).
  split; [exact Hload |]. split; [exact Hdrop | exact Hordered].
Defined.

(** C10 at work: the transfer without hash is queued, not enriched, and is
    the one member of the group under [undefined]. *)
Lemma missing_hash_single_group_witness :
  missing_hash JsUndefined
  ∧ reachable (@manager_last Values)
  ∧ unhashed ∈ fetchedTransfers remote_last
                 (loadMore remote_last (@manager0 Values)).2
  ∧ unhashed ∈ _transactionQueue (@manager_last Values)
  ∧ _allTransactions (getOrderedTransactions manager_last).2 !! JsUndefined
    = Some [unhashed]
  ∧ length (filter (λ k, k = JsUndefined)
              (_inorderTransactionHashes (getOrderedTransactions manager_last).2))
    = 1%nat
  ∧ (length (filter (λ a, args_hash a = Some JsUndefined)
               (resultParams (getOrderedTransactions manager_last).2)) ≤ 1)%nat.
Proof.
  assert (missing_hash JsUndefined) as Hmissing by (by left).
  assert (unhashed ∈ fetchedTransfers remote_last
                       (loadMore remote_last (@manager0 Values)).2) as Hfetched.
  { change (unhashed ∈ [swap_in; payment; swap_log; unhashed]).
    do 3 right. left. }
  destruct (missing_hash_single_group JsUndefined Hmissing)
    as (_ & Hqueued & Hgroup).
  destruct (Hgroup manager_last manager_last_reachable)
    as (Hlookup & Hslot & Hone).
  split; [exact Hmissing |]. split; [exact manager_last_reachable |].
  split; [exact Hfetched |].
  split.
  { exact (Hqueued remote_last manager0 manager_last _ unhashed
             manager0_reachable manager_last_loaded Hfetched eq_refl). }
  split; [exact Hlookup |]. split; [exact Hslot | exact (proj2 Hone)].
Defined.

(** X5 at work: no Alchemy for the network. *)
Lemma loadMore_remote_unavailable_witness :
  _lock (@manager0 Values) = false
  ∧ isAlchemyAvailableForNetwork remote_unavailable
      (_network (@manager0 Values)) = Return false
  ∧ loadMore remote_unavailable (@manager0 Values)
    = (Return (), manager0, [CallIsAlchemyAvailable "sepolia"]).
Proof.
  split; [reflexivity |]. split; [reflexivity |].
  exact (loadMore_remote_unavailable remote_unavailable manager0
           eq_refl eq_refl).
Defined.

(** X6 at work: the availability check has no route; the manager is left
    locked and the next call does nothing. *)
Lemma loadMore_availability_rejects_witness :
  _lock (@manager0 Values) = false
  ∧ isAlchemyAvailableForNetwork remote_check_down
      (_network (@manager0 Values)) = Throw (mkError "no route")
  ∧ loadMore remote_check_down (@manager0 Values)
    = (Throw (mkError "no route"), manager_locked,
       [CallIsAlchemyAvailable "sepolia"])
  ∧ loadMore remote (@manager_locked Values)
    = (Return (), manager_locked, []).
Proof.
  split; [reflexivity |]. split; [reflexivity |].
  destruct (loadMore_availability_rejects remote_check_down (@manager0 Values)
              (mkError "no route") eq_refl eq_refl) as [Hthrow Hstuck].
  split; [exact Hthrow | exact (Hstuck remote)].
Defined.

Lemma loadMore_batch_down_outcome :
  loadMore remote_batch_down (@manager0 Values)
  = (Throw (mkError "rate limited"),
     (loadMore remote_batch_down (@manager0 Values)).1.2,
     (loadMore remote_batch_down (@manager0 Values)).2).
Proof. vm_compute. reflexivity. Qed.

(** X7 at work: the batch fetch is rate limited after both pages came in:
    no page is counted, the lock stays taken, the incoming cursor is already
    the token of the next page. *)
Lemma loadMore_rejected_witness :
  (loadMore remote_batch_down (@manager0 Values)).1.1
  = Throw (mkError "rate limited")
  ∧ _pagesLoaded (loadMore remote_batch_down (@manager0 Values)).1.2 = 0
  ∧ _lock (loadMore remote_batch_down (@manager0 Values)).1.2 = true
  ∧ _nextIncomingPage (loadMore remote_batch_down (@manager0 Values)).1.2
    = JsStr "page2".
Proof.
  split; [reflexivity |].
  split;
    [exact (proj1 (loadMore_rejected remote_batch_down manager0 _ _ _
                     loadMore_batch_down_outcome)) |].
  split; reflexivity.
Defined.

(** X8 at work: the four transfers of the first two pages are in the
    queue. *)
Lemma loadMore_resolved_witness :
  pq_wf (_transactionQueue (@manager0 Values))
  ∧ _lock (@manager0 Values) = false
  ∧ isAlchemyAvailableForNetwork remote (_network (@manager0 Values))
    = Return true
  ∧ pq_toArray (_transactionQueue (@manager1 Values))
    ≡ₚ [swap_in; payment; swap_log; unhashed]
  ∧ _pagesLoaded (@manager1 Values) = 1.
Proof.
  assert (pq_wf (_transactionQueue (@manager0 Values))) as Hwf
    by exact (@pq_new_wf list_queue list_queue_spec).
  split; [exact Hwf |]. split; [reflexivity |]. split; [reflexivity |].
  destruct (loadMore_resolved remote manager0 _ _ Hwf eq_refl eq_refl
              manager1_loaded) as (Hperm & Hpages & _).
  split; [exact Hperm | exact Hpages].
Defined.

Lemma manager_last_at_last_page : isAtLastPage (@manager_last Values) = true.
Proof. vm_compute. reflexivity. Qed.

(** X9 at work: one more [loadMore()] at the last page. *)
Lemma loadMore_at_last_page_witness :
  reachable (@manager_last Values)
  ∧ isAtLastPage (@manager_last Values) = true
  ∧ isAlchemyAvailableForNetwork remote_last (_network (@manager_last Values))
    = Return true
  ∧ loadMore remote_last (@manager_last Values)
    = (Return (),
       _dropGetOrderedTransactionsCache
         (set_pagesLoaded (_pagesLoaded (@manager_last Values) + 1) manager_last),
       [CallIsAlchemyAvailable (_network (@manager_last Values))])
  ∧ (getOrderedTransactions
       (_dropGetOrderedTransactionsCache
          (set_pagesLoaded (_pagesLoaded (@manager_last Values) + 1)
             manager_last))).1
    = (getOrderedTransactions manager_last).1.
Proof.
  split; [exact manager_last_reachable |].
  split; [exact manager_last_at_last_page |]. split; [reflexivity |].
  exact (loadMore_at_last_page remote_last manager_last manager_last_reachable
           manager_last_at_last_page eq_refl).
Defined.

(** X14 at work: the details of [0xa1]. *)
Lemma signed_details_keyed_witness :
  reachable (@manager_last Values)
  ∧ _allSignedTransactions (@manager_last Values) !! JsStr "0xa1"
    = Some (details "0xa1")
  ∧ signed_hash (details "0xa1") = JsStr "0xa1"
  ∧ ¬ missing_hash (JsStr "0xa1").
Proof.
  assert (_allSignedTransactions (@manager_last Values) !! JsStr "0xa1"
          = Some (details "0xa1")) as Hlookup by (vm_compute; reflexivity).
  split; [exact manager_last_reachable |]. split; [exact Hlookup |].
  exact (proj1 (signed_details_keyed manager_last manager_last_reachable)
           _ _ Hlookup).
Defined.

(** X15 at work: the four transfers, in three Full Transactions. *)
Lemma last_page_complete_witness :
  reachable (@manager_last Values)
  ∧ isAtLastPage (@manager_last Values) = true
  ∧ concat (transfers <$> resultParams (getOrderedTransactions manager_last).2)
    ≡ₚ pq_toArray (_transactionQueue (@manager_last Values))
  ∧ length (getOrderedTransactions (@manager_last Values)).1
    = length (remove_dups
                (hash <$> pq_toArray (_transactionQueue (@manager_last Values)))).
Proof.
  split; [exact manager_last_reachable |].
  split; [exact manager_last_at_last_page |].
  exact (last_page_complete manager_last manager_last_reachable
           manager_last_at_last_page).
Defined.

(** X13 at work: of the two entries for [0xa1] the last is kept; the
    entry without hash is not stored. *)
Lemma populateSignedTransactions_stores_witness :
  filter (λ h : string, h ≠ ""%string) ["0xa1"; ""; "0xc3"]%string ≠ []
  ∧ (let s' := (_populateSignedTransactions remote_repeats
                  ["0xa1"; ""; "0xc3"]%string (@manager0 Values)).1.2 in
     _allSignedTransactions s' !! JsStr "0xa1"
     = Some (mkSignedTransaction (JsStr "0xa1") 3 21000 "0x")
     ∧ _allSignedTransactions s' !! JsUndefined = None).
Proof.
  assert (filter (λ h : string, h ≠ ""%string) ["0xa1"; ""; "0xc3"]%string ≠ [])
    as Hne by (vm_compute; discriminate).
  split; [exact Hne |].
  pose proof (populateSignedTransactions_stores remote_repeats
                ["0xa1"; ""; "0xc3"]%string (@manager0 Values) _ Hne eq_refl)
    as Hstores.
  cbv zeta in *. split; [exact (Hstores (JsStr "0xa1")) |].
  exact (Hstores JsUndefined).
Defined.

(** X1 at work: the manager of the scenario. *)
Lemma constructor_fresh_witness :
  constructor isAddress params = Return (@manager0 Values)
  ∧ (getOrderedTransactions (@manager0 Values)).1 = []
  ∧ isAtLastPage (@manager0 Values) = false
  ∧ pageKey <$> assetTransferCalls (loadMore remote (@manager0 Values)).2
    = [None; None]
  ∧ maxCount <$> assetTransferCalls (loadMore remote (@manager0 Values)).2
    = [20; 20].
Proof.
  split; [exact manager0_new |].
  destruct (constructor_fresh isAddress params manager0 remote manager0_new)
    as (_ & Hres & Hlast & Hcalls).
  split; [exact Hres |]. split; [exact Hlast |].
  split; [exact (f_equal (fmap pageKey) (Hcalls eq_refl))
         | exact (f_equal (fmap maxCount) (Hcalls eq_refl))].
Defined.

(** X24 at work: nothing before the first page, two Full Transactions
    after it. *)
Lemma loadMore_never_shrinks_witness :
  reachable (@manager0 Values)
  ∧ length (getOrderedTransactions (@manager0 Values)).1 = 0%nat
  ∧ length (getOrderedTransactions (@manager1 Values)).1 = 2%nat
  ∧ (length (getOrderedTransactions (@manager0 Values)).1
     ≤ length (getOrderedTransactions (@manager1 Values)).1)%nat.
Proof.
  split; [exact manager0_reachable |]. split; [reflexivity |].
  split; [reflexivity |].
  exact (loadMore_never_shrinks remote manager0 manager1 _ manager0_reachable
           manager1_loaded).
Defined.

End ScenarioFacts.

Module ScreensFacts.
Import TransactionList AuthScreen Screens.

(** X22 at work: on Android the Apple button opens the browser at the
    login URL that the server gave. *)
Lemma handleAuth_active_witness :
  apple ∈ activeAuthentications server_methods server_external
  ∧ handleAuth android apple = beginWebAuth "/accounts/login/social/apple"
  ∧ ((("/accounts/login/social/apple" = "accounts/login/sso/")%string
      ∧ server_methods !! "remoteuser"%string = Some true)
     ∨ ∃ external, external ∈ server_external
                   ∧ method_name external = AuthScreen.name apple
                   ∧ login_url external = "/accounts/login/social/apple"%string).
Proof.
  assert (apple ∈ activeAuthentications server_methods server_external) as Hin.
  { apply (bool_decide_unpack _). by vm_compute. }
  split; [exact Hin |]. split; [reflexivity |].
  exact (AuthScreenFacts.handleAuth_active android server_methods
           server_external apple Hin).
Defined.

(** X17 at work: two rows while the conversion is under way. *)
Lemma TransactionList_processing_witness :
  apiKeyConfigured list_props = true
  ∧ walletAddress list_props ≠ ""%string
  ∧ ∃ rows loadMore modal,
      TransactionList list_props (effectStarted list_props initialState)
      = Transactions rows loadMore modal
      ∧ onView <$> rows = [received; sent]
      ∧ displayTitle <$> rows = ["Received"; "Sent"]%string.
Proof.
  split; [reflexivity |]. split; [discriminate |].
  destruct (TransactionListFacts.TransactionList_processing list_props
              initialState [received; sent] true eq_refl ltac:(discriminate)
              eq_refl ltac:(discriminate))
    as (rows & loadMore & modal & Heq & Hview & _).
  exists rows, loadMore, modal. split; [exact Heq |]. split; [exact Hview |].
  injection Heq as <- _ _. reflexivity.
Defined.

(** X18 at work: the first transfer is shown converted, the second as it
    is. *)
Lemma TransactionList_processed_witness :
  apiKeyConfigured list_props = true
  ∧ walletAddress list_props ≠ ""%string
  ∧ ∃ rows,
      TransactionList list_props
        (effectSettled converter list_props initialState)
      = Transactions rows (Some (LoadMoreButton false)) None
      ∧ displayAmount <$> rows = [JsStr "5 ETH"; JsUndefined]
      ∧ onView <$> rows
        = [mkTransaction (JsStr "0xa1") (JsStr "IN") (JsStr "5 ETH")
             (JsStr "1700000300") false JsNull JsUndefined;
           sent].
Proof.
  split; [reflexivity |]. split; [discriminate |].
  destruct (TransactionListFacts.TransactionList_processed converter list_props
              initialState [received; sent] true eq_refl ltac:(discriminate)
              eq_refl ltac:(discriminate))
    as (rows & Heq & Hview & _).
  exists rows. split; [exact Heq |]. split; [| exact Hview].
  injection Heq as <-. reflexivity.
Defined.

End ScreensFacts.
